(** * uvw::Emitter — a model of src/uvw/emitter.hpp and its properties

    The emitter keeps, per event type, two [std::list]s of listeners
    ([onL], [onceL]).  Connections are list iterators, that is, addresses
    of list nodes; a listener is user code that receives the event and
    the emitter itself by reference and may therefore call back into the
    emitter while a dispatch is in progress.

    The model keeps the list nodes in a store indexed by address, the two
    lists of a handler as sequences of addresses, and a listener as a
    script of emitter calls.  Running a script or a dispatch takes fuel,
    since a listener may publish again.

    Added to what the source stores, to state the properties: a log of
    the invocations, a number for each [publish] call, the address of a
    handler object, and a mark on destroyed nodes.

    Without defined behaviour, and [Undefined] in the model: [erase]
    through a connection to a destroyed node; stepping an iterator off
    the list or from a node that has left it; a listener whose own node
    is destroyed while it runs. *)

From stdpp Require Import gmap list.
From Stdlib Require Import ZArith Lia.

Set Default Proof Using "Type".
Set Warnings "-clear-no-such-hyp".

(* ===================================================================== *)
(** ** Data model *)
(* ===================================================================== *)

(** Payload of an event (the fields of [E]). *)
Definition Event : Type := Z.

(** A listener, [std::function<void(E &, T &)>]: through [E &] it may
    change the event ([act]), through [T &] it may call the emitter
    ([body]).  [tag] names the listener in the invocation log. *)
Inductive Cmd : Type :=
| COn (ty : nat) (f : Listener)       (* ref.on<E>(f) *)
| COnce (ty : nat) (f : Listener)     (* ref.once<E>(f) *)
| CErase (ty : nat) (conn : nat)      (* ref.erase<E>(conn) *)
| CClear (ty : nat)                   (* ref.clear<E>() *)
| CClearAll                           (* ref.clearAll() *)
| CPublish (ty : nat) (ev : Event)    (* publish<E>(ev), through the owner *)
with Listener : Type :=
| MkListener (tag : nat) (act : Event → Event) (body : list Cmd).

(** The three parts of a listener. *)
Definition tag (f : Listener) : nat := let 'MkListener t _ _ := f in t.
Definition act (f : Listener) : Event → Event := let 'MkListener _ a _ := f in a.
Definition body (f : Listener) : list Cmd := let 'MkListener _ _ b := f in b.

(** [Element = std::pair<bool, Listener>], one per list node.  [freed]
    is not in the source: it marks a node that was destroyed, so that a
    connection to it is recognisably dangling. *)
Record Element : Type := MkElement {
  first : bool;
  second : Listener;
  freed : bool
}.

(** [Handler<E>]: the two lists, as sequences of node addresses in list
    order (front first).  [hid] stands for the address of the handler
    object owned by the [unique_ptr]. *)
Record Handler : Type := MkHandler {
  hid : nat;
  onceL : list nat;
  onL : list nat
}.

(** One invocation of a listener: by which [publish] call, at which
    node, and the event as the listener found and left it. *)
Record Entry : Type := MkEntry {
  e_call : nat;
  e_node : nat;
  e_tag : nat;
  e_seen : Event;
  e_left : Event
}.

(** [Emitter<T>]: [handlers] is the vector of [unique_ptr<BaseHandler>]
    ([None] is a null pointer), [heap] holds the list nodes.  The
    counters give fresh addresses and call numbers; [log] records the
    invocations, oldest first. *)
Record Emitter : Type := MkEmitter {
  handlers : list (option Handler);
  heap : gmap nat Element;
  next_node : nat;
  next_hid : nat;
  next_call : nat;
  log : list Entry
}.

(** A new emitter: [handlers{}]. *)
Definition Emitter_init : Emitter :=
  MkEmitter [] ∅ 0 0 0 [].

(** What a call comes to: it returns, it has no defined behaviour, or
    the fuel given to it did not suffice. *)
Inductive Outcome (A : Type) : Type :=
| Done (a : A)
| Undefined
| OutOfFuel.
Arguments Done {A} a.
Arguments Undefined {A}.
Arguments OutOfFuel {A}.

Definition obind {A B} (m : Outcome A) (k : A → Outcome B) : Outcome B :=
  match m with
  | Done a => k a
  | Undefined => Undefined
  | OutOfFuel => OutOfFuel
  end.

Notation "x ←← m ; k" := (obind m (λ x, k))
  (at level 20, m at level 100, k at level 200, only parsing).
Notation "' p ←← m ; k" := (obind m (λ x, let 'p := x in k))
  (at level 20, p pattern, m at level 100, k at level 200, only parsing).

(* --------------------------------------------------------------------- *)
(** *** State accessors *)

(** Field updates. *)
Definition set_handlers (hs : list (option Handler)) (s : Emitter) : Emitter :=
  MkEmitter hs (heap s) (next_node s) (next_hid s) (next_call s) (log s).
Definition set_heap (hp : gmap nat Element) (s : Emitter) : Emitter :=
  MkEmitter (handlers s) hp (next_node s) (next_hid s) (next_call s) (log s).

(** [handlers[ty]], if the vector is long enough and the slot not null. *)
Definition get_handler (s : Emitter) (ty : nat) : option Handler :=
  match handlers s !! ty with
  | Some (Some h) => Some h
  | _ => None
  end.

(** The two lists of the handler of event type [ty]; without a handler
    there are no nodes. *)
Definition onL_of (s : Emitter) (ty : nat) : list nat :=
  from_option onL [] (get_handler s ty).
Definition onceL_of (s : Emitter) (ty : nat) : list nat :=
  from_option onceL [] (get_handler s ty).

(** A change to the handler of event type [ty], in place. *)
Definition upd_handler (ty : nat) (g : Handler → Handler) (s : Emitter) : Emitter :=
  set_handlers (alter (fmap g) ty (handlers s)) s.

Definition set_onL (l : list nat) (h : Handler) : Handler :=
  MkHandler (hid h) (onceL h) l.
Definition set_onceL (l : list nat) (h : Handler) : Handler :=
  MkHandler (hid h) l (onL h).

(** [element.first] of the node at address [n]; a destroyed node keeps
    the value it had. *)
Definition tombstoned (s : Emitter) (n : nat) : bool :=
  match heap s !! n with
  | Some el => first el
  | None => false
  end.

(** The node at [n] exists and was not destroyed. *)
Definition allocated (s : Emitter) (n : nat) : bool :=
  match heap s !! n with
  | Some el => negb (freed el)
  | None => false
  end.

(** [element.first = true], and the mark of destruction. *)
Definition set_first (el : Element) : Element :=
  MkElement true (second el) (freed el).
Definition set_freed (el : Element) : Element :=
  MkElement (first el) (second el) true.

(** Destroy the nodes [ns]. *)
Definition free_all (ns : list nat) (s : Emitter) : Emitter :=
  set_heap (foldr (alter set_freed) (heap s) ns) s.

(** [element.first = true] for each node of [ns]. *)
Definition tombstone_all (ns : list nat) (hp : gmap nat Element) : gmap nat Element :=
  foldr (alter set_first) hp ns.

(* ===================================================================== *)
(** ** Handler<E> *)
(* ===================================================================== *)

(** [Handler::empty]: [all_of] over [onceL], then over [onL]. *)
Definition Handler_empty (s : Emitter) (h : Handler) : bool :=
  forallb (tombstoned s) (onceL h) && forallb (tombstoned s) (onL h).

(** [Handler::clear]: [for_each] over [onceL], then over [onL]. *)
Definition Handler_clear (h : Handler) (hp : gmap nat Element) : gmap nat Element :=
  tombstone_all (onL h) (tombstone_all (onceL h) hp).

(** [Handler::once]: [onceL.emplace(onceL.cend(), false, f)]. *)
Definition Handler_once (n : nat) (h : Handler) : Handler :=
  set_onceL (onceL h ++ [n]) h.

(** [Handler::on]: [onL.emplace(onL.cbegin(), false, f)]. *)
Definition Handler_on (n : nat) (h : Handler) : Handler :=
  set_onL (n :: onL h) h.

(** [Handler::erase]: [conn->first = true].  Dereferencing an iterator
    to a destroyed node (or a singular iterator) is undefined. *)
Definition Handler_erase (conn : nat) (s : Emitter) : Outcome Emitter :=
  if allocated s conn
  then Done (set_heap (alter set_first conn (heap s)) s)
  else Undefined.

(** A list iterator: [None] is [end()], [Some n] the node at [n]. *)
Definition Iter : Type := option nat.

(** [begin()] *)
Definition begin_of (l : list nat) : Iter := head l.

(** [--it] on the list [l]: the node before [it].  There is none before
    the first node, and none if [it] is not a node of [l]. *)
Fixpoint prev_of (l : list nat) (it : Iter) : option nat :=
  match l with
  | [] => None
  | x :: l' =>
      match l' with
      | [] => match it with None => Some x | Some _ => None end
      | y :: _ => if decide (it = Some y) then Some x else prev_of l' it
      end
  end.

(** [onL.remove_if([](auto &&element){ return element.first; })]: the
    tombstoned nodes are unlinked and destroyed. *)
Definition remove_if (ty : nat) (s : Emitter) : Emitter :=
  let dead := filter (λ n, tombstoned s n = true) (onL_of s ty) in
  let keep := filter (λ n, tombstoned s n = false) (onL_of s ty) in
  free_all dead (upd_handler ty (set_onL keep) s).

(** [onceL.swap(currentL)] with [currentL] empty. *)
Definition swap_onceL (ty : nat) (s : Emitter) : Emitter :=
  upd_handler ty (set_onceL []) s.

(* ===================================================================== *)
(** ** Emitter<T>: the registry and the calls that do not dispatch *)
(* ===================================================================== *)

(** [handlers.resize(n)] *)
Definition vec_resize (n : nat) (hs : list (option Handler)) : list (option Handler) :=
  take n hs ++ replicate (n - length hs) None.

(** [Emitter::handler<E>()], [ty = E::type()]. *)
Definition handler (ty : nat) (s : Emitter) : Emitter :=
  let hs := if decide (ty < length (handlers s))
            then handlers s
            else vec_resize (ty + 1) (handlers s) in
  match hs !! ty with
  | Some (Some _) => set_handlers hs s
  | _ =>
      MkEmitter (<[ty := Some (MkHandler (next_hid s) [] [])]> hs)
                (heap s) (next_node s) (S (next_hid s)) (next_call s) (log s)
  end.

(** A new list node holding [(false, f)]; its address is returned. *)
Definition new_node (f : Listener) (s : Emitter) : nat * Emitter :=
  (next_node s,
   MkEmitter (handlers s) (<[next_node s := MkElement false f false]> (heap s))
             (S (next_node s)) (next_hid s) (next_call s) (log s)).

(** [Emitter::on<E>(f)] *)
Definition Emitter_on (ty : nat) (f : Listener) (s : Emitter) : nat * Emitter :=
  let '(n, s1) := new_node f (handler ty s) in
  (n, upd_handler ty (Handler_on n) s1).

(** [Emitter::once<E>(f)] *)
Definition Emitter_once (ty : nat) (f : Listener) (s : Emitter) : nat * Emitter :=
  let '(n, s1) := new_node f (handler ty s) in
  (n, upd_handler ty (Handler_once n) s1).

(** [Emitter::erase<E>(conn)] *)
Definition Emitter_erase (ty : nat) (conn : nat) (s : Emitter) : Outcome Emitter :=
  Handler_erase conn (handler ty s).

(** [Emitter::clear<E>()] *)
Definition Emitter_clear (ty : nat) (s : Emitter) : Emitter :=
  let s1 := handler ty s in
  match get_handler s1 ty with
  | Some h => set_heap (Handler_clear h (heap s1)) s1
  | None => s1
  end.

(** [Emitter::clearAll()]: [for_each] over [handlers], skipping nulls. *)
Definition Emitter_clearAll (s : Emitter) : Emitter :=
  set_heap
    (foldl (λ hp oh, match oh with Some h => Handler_clear h hp | None => hp end)
           (heap s) (handlers s))
    s.

(** [Emitter::empty<E>()] *)
Definition Emitter_empty_ty (ty : nat) (s : Emitter) : bool :=
  negb (bool_decide (ty < length (handlers s)))
  || match handlers s !! ty with
     | Some (Some h) => Handler_empty s h
     | _ => true
     end.

(** [Emitter::empty()] *)
Definition Emitter_empty (s : Emitter) : bool :=
  forallb (λ oh, match oh with Some h => Handler_empty s h | None => true end)
          (handlers s).

(** The calls of a script other than [publish], which [exec] below
    handles itself. *)
Definition prim (c : Cmd) (s : Emitter) : Outcome Emitter :=
  match c with
  | COn ty f => Done (Emitter_on ty f s).2
  | COnce ty f => Done (Emitter_once ty f s).2
  | CErase ty conn => Emitter_erase ty conn s
  | CClear ty => Done (Emitter_clear ty s)
  | CClearAll => Done (Emitter_clearAll s)
  | CPublish _ _ => Undefined
  end.

(* ===================================================================== *)
(** ** Dispatch *)
(* ===================================================================== *)

(** The call [c] invokes the listener [f] of node [n] on the event [ev]. *)
Definition log_invoke (c n : nat) (f : Listener) (ev : Event) (s : Emitter) : Emitter :=
  MkEmitter (handlers s) (heap s) (next_node s) (next_hid s) (next_call s)
            (log s ++ [MkEntry c n (tag f) ev (act f ev)]).

(** A [publish] call takes the next call number. *)
Definition take_call (s : Emitter) : Emitter :=
  MkEmitter (handlers s) (heap s) (next_node s) (next_hid s) (S (next_call s)) (log s).

(** [exec]: a script, call by call.
    [publish]: [Emitter::publish<E>] and [Handler::publish].
    [for_each_on]: [std::for_each(onL.rbegin(), onL.rend(), func)]; a
      reverse iterator holds a base iterator [cur] and denotes the node
      before it; [last] is the base of [rend()], that is [begin()] as it
      was when the loop started.
    [for_each_current]: [std::for_each(currentL.rbegin(), currentL.rend(), func)];
      [currentL] is local, nothing but this loop walks or relinks it.
    [func]: the lambda [element.first ? void() : element.second(event, ref)].
      A listener whose own node is destroyed while it runs has no
      defined behaviour. *)
Fixpoint exec (fuel : nat) (cmds : list Cmd) (s : Emitter) {struct fuel}
  : Outcome Emitter :=
  match fuel with
  | O => OutOfFuel
  | S k =>
      match cmds with
      | [] => Done s
      | CPublish ty ev :: rest => s1 ←← publish k ty ev s; exec k rest s1
      | c :: rest => s1 ←← prim c s; exec k rest s1
      end
  end
with publish (fuel : nat) (ty : nat) (ev : Event) (s : Emitter) {struct fuel}
  : Outcome Emitter :=
  match fuel with
  | O => OutOfFuel
  | S k =>
      let s0 := handler ty s in
      let c := next_call s0 in
      let currentL := onceL_of s0 ty in
      let s1 := swap_onceL ty (take_call s0) in
      '(ev1, s2) ←← for_each_on k c ty None (begin_of (onL_of s1 ty)) ev s1;
      '(ev2, s3) ←← for_each_current k c (reverse currentL) ev1 s2;
      Done (free_all currentL (remove_if ty s3))
  end
with for_each_on (fuel : nat) (c ty : nat) (cur last : Iter) (ev : Event)
       (s : Emitter) {struct fuel} : Outcome (Event * Emitter) :=
  match fuel with
  | O => OutOfFuel
  | S k =>
      if decide (cur = last) then Done (ev, s)
      else
        match prev_of (onL_of s ty) cur with
        | None => Undefined
        | Some n =>
            '(ev1, s1) ←← func k c n ev s;
            match prev_of (onL_of s1 ty) cur with
            | None => Undefined
            | Some n' => for_each_on k c ty (Some n') last ev1 s1
            end
        end
  end
with for_each_current (fuel : nat) (c : nat) (ns : list nat) (ev : Event)
       (s : Emitter) {struct fuel} : Outcome (Event * Emitter) :=
  match fuel with
  | O => OutOfFuel
  | S k =>
      match ns with
      | [] => Done (ev, s)
      | n :: ns' =>
          '(ev1, s1) ←← func k c n ev s;
          for_each_current k c ns' ev1 s1
      end
  end
with func (fuel : nat) (c n : nat) (ev : Event) (s : Emitter) {struct fuel}
  : Outcome (Event * Emitter) :=
  match fuel with
  | O => OutOfFuel
  | S k =>
      if allocated s n then
        if tombstoned s n then Done (ev, s)
        else
          match heap s !! n with
          | None => Undefined
          | Some el =>
              let f := second el in
              s1 ←← exec k (body f) (log_invoke c n f ev s);
              if allocated s1 n then Done (act f ev, s1) else Undefined
          end
      else Undefined
  end.

(* ===================================================================== *)
(** ** Runs as derivations *)
(* ===================================================================== *)

(** The five functions above, read as relations between the state before
    and after a run that returned.  Every [Done] result of a function is
    a derivation ([run_sound]); the relations carry the induction. *)
Inductive Exec : list Cmd → Emitter → Emitter → Prop :=
| Exec_nil s : Exec [] s s
| Exec_publish ty ev rest s s1 s' :
    Publish ty ev s s1 → Exec rest s1 s' → Exec (CPublish ty ev :: rest) s s'
| Exec_prim c rest s s1 s' :
    prim c s = Done s1 → Exec rest s1 s' → Exec (c :: rest) s s'
with Publish : nat → Event → Emitter → Emitter → Prop :=
| Publish_intro ty ev s ev1 s2 ev2 s3 :
    ForEachOn (next_call (handler ty s)) ty None
      (begin_of (onL_of (swap_onceL ty (take_call (handler ty s))) ty))
      ev (swap_onceL ty (take_call (handler ty s))) ev1 s2 →
    ForEachCurrent (next_call (handler ty s)) (reverse (onceL_of (handler ty s) ty))
      ev1 s2 ev2 s3 →
    Publish ty ev s (free_all (onceL_of (handler ty s) ty) (remove_if ty s3))
with ForEachOn : nat → nat → Iter → Iter → Event → Emitter → Event → Emitter → Prop :=
| ForEachOn_stop c ty cur ev s : ForEachOn c ty cur cur ev s ev s
| ForEachOn_step c ty cur last ev s n ev1 s1 n' ev' s' :
    cur ≠ last →
    prev_of (onL_of s ty) cur = Some n →
    Func c n ev s ev1 s1 →
    prev_of (onL_of s1 ty) cur = Some n' →
    ForEachOn c ty (Some n') last ev1 s1 ev' s' →
    ForEachOn c ty cur last ev s ev' s'
with ForEachCurrent : nat → list nat → Event → Emitter → Event → Emitter → Prop :=
| ForEachCurrent_nil c ev s : ForEachCurrent c [] ev s ev s
| ForEachCurrent_cons c n ns ev s ev1 s1 ev' s' :
    Func c n ev s ev1 s1 →
    ForEachCurrent c ns ev1 s1 ev' s' →
    ForEachCurrent c (n :: ns) ev s ev' s'
with Func : nat → nat → Event → Emitter → Event → Emitter → Prop :=
| Func_skip c n ev s :
    allocated s n = true → tombstoned s n = true → Func c n ev s ev s
| Func_call c n ev s el s' :
    allocated s n = true → tombstoned s n = false →
    heap s !! n = Some el →
    Exec (body (second el)) (log_invoke c n (second el) ev s) s' →
    allocated s' n = true →
    Func c n ev s (act (second el) ev) s'.

Scheme Exec_mind := Minimality for Exec Sort Prop
  with Publish_mind := Minimality for Publish Sort Prop
  with ForEachOn_mind := Minimality for ForEachOn Sort Prop
  with ForEachCurrent_mind := Minimality for ForEachCurrent Sort Prop
  with Func_mind := Minimality for Func Sort Prop.
Combined Scheme run_mind from
  Exec_mind, Publish_mind, ForEachOn_mind, ForEachCurrent_mind, Func_mind.

(* ===================================================================== *)
(** ** Well-formed states, and what a run does to a state *)
(* ===================================================================== *)

(** The nodes linked into the two lists of event type [ty]. *)
Definition nodes_of (s : Emitter) (ty : nat) : list nat :=
  onceL_of s ty ++ onL_of s ty.

(** The node [n] is linked into some list of the emitter. *)
Definition listed (s : Emitter) (n : nat) : Prop := ∃ ty, n ∈ nodes_of s ty.

(** A state of the emitter as the code keeps it: a node is linked into
    at most one list, at one place; linked nodes exist; addresses and
    call numbers are below the counters.  The initial emitter is such a
    state and every run keeps it so ([wf_init], [run_wf_evolves]). *)
Record wf (s : Emitter) : Prop := MkWf {
  wf_nodup : ∀ ty, NoDup (nodes_of s ty);
  wf_disj : ∀ ty1 ty2 n, n ∈ nodes_of s ty1 → n ∈ nodes_of s ty2 → ty1 = ty2;
  wf_alloc : ∀ ty n, n ∈ nodes_of s ty → allocated s n = true;
  wf_heap : ∀ n, is_Some (heap s !! n) → n < next_node s;
  wf_log : ∀ e, e ∈ log s → e_node e < next_node s ∧ e_call e < next_call s
}.

(** What any run does to a state: counters grow, the log is extended,
    nodes keep their listener, tombstones and destruction are final,
    handlers stay, [onL] loses only destroyed nodes and gains only new
    ones at the front, a node destroyed out of [onL] was tombstoned. *)
Record evolves (s s' : Emitter) : Prop := MkEvolves {
  ev_node : next_node s ≤ next_node s';
  ev_call : next_call s ≤ next_call s';
  ev_log : log s `prefix_of` log s';
  ev_heap : ∀ n el, heap s !! n = Some el →
    ∃ el', heap s' !! n = Some el' ∧ second el' = second el ∧
           (first el = true → first el' = true) ∧
           (freed el = true → freed el' = true);
  ev_handler : ∀ ty h, get_handler s ty = Some h →
    ∃ h', get_handler s' ty = Some h' ∧ hid h' = hid h;
  ev_onL : ∀ ty, ∃ front,
    onL_of s' ty = front ++ filter (λ n, allocated s' n = true) (onL_of s ty) ∧
    Forall (λ n, next_node s ≤ n) front;
  ev_onceL : ∀ ty n, n ∈ onceL_of s' ty → n ∈ onceL_of s ty ∨ next_node s ≤ n;
  ev_freed : ∀ ty n, n ∈ onL_of s ty → allocated s' n = false → tombstoned s' n = true
}.

(** The store [hp'] is [hp] with some nodes tombstoned. *)
Definition marked (hp hp' : gmap nat Element) : Prop :=
  ∀ n, hp' !! n = hp !! n ∨ hp' !! n = set_first <$> hp !! n.

(** The invocations of the node [n], and those made by the call [c]. *)
Definition fired (n : nat) (s : Emitter) : list Entry :=
  filter (λ e, e_node e = n) (log s).
Definition by_call (c : nat) (s : Emitter) : list Entry :=
  filter (λ e, e_call e = c) (log s).

(** A node that is tombstoned, or linked nowhere (and not in the local
    list [ns]) while its address is in use. *)
Definition quiet (s : Emitter) (n : nat) (ns : list nat) : Prop :=
  tombstoned s n = true ∨ (n < next_node s ∧ ¬ listed s n ∧ n ∉ ns).

(** The entries [es] pass the event along: each listener sees what the
    one before it left; [ev] goes in, [ev'] comes out. *)
Fixpoint chain (ev : Event) (es : list Entry) (ev' : Event) : Prop :=
  match es with
  | [] => ev' = ev
  | e :: es' => e_seen e = ev ∧ chain (e_left e) es' ev'
  end.

(** The entry [e] records the listener stored at its node. *)
Definition faithful (s : Emitter) (e : Entry) : Prop :=
  ∃ el, heap s !! e_node e = Some el ∧ e_tag e = tag (second el) ∧
        e_left e = act (second el) (e_seen e).


(** The invocations of one [publish] call: first nodes of [onL], back to
    front, then nodes of [onceL], back to front; no node that is not
    tombstoned when the call ends is left out. *)
Definition dispatch_order (ty : nat) (s s' : Emitter) : Prop :=
  ∃ new1 new2,
    by_call (next_call s) s' = new1 ++ new2 ∧
    e_node <$> new1 `sublist_of` reverse (onL_of s ty) ∧
    e_node <$> new2 `sublist_of` reverse (onceL_of s ty) ∧
    (∀ n, n ∈ onL_of s ty → tombstoned s' n = false → n ∈ e_node <$> new1) ∧
    (∀ n, n ∈ onceL_of s ty → tombstoned s' n = false → n ∈ e_node <$> new2).

(** The node [n] holds a listener that makes no call to the emitter. *)
Definition passive_node (s : Emitter) (n : nat) : Prop :=
  ∀ el, heap s !! n = Some el → body (second el) = [].

(** [s'] is [s] with a longer log. *)
Definition logged (s s' : Emitter) : Prop :=
  handlers s' = handlers s ∧ heap s' = heap s ∧ next_node s' = next_node s ∧
  next_hid s' = next_hid s ∧ next_call s' = next_call s.

(** The nodes of [l] that are not tombstoned. *)
Definition live (s : Emitter) (l : list nat) : list nat :=
  filter (λ n, tombstoned s n = false) l.


(* ===================================================================== *)
(** ** Sample emitters *)
(* ===================================================================== *)

(** A listener that does not call back into the emitter. *)
Definition passive (t : nat) (a : Event → Event) : Listener := MkListener t a [].

(** The state, or the result, a call returned. *)
Definition state_of (o : Outcome Emitter) : Emitter :=
  match o with Done s => s | _ => Emitter_init end.
Definition result_of (o : Outcome (Event * Emitter)) : Event * Emitter :=
  match o with Done r => r | _ => (0%Z, Emitter_init) end.

(** Persistent A, B, C then one-shot D, E on event type 0, published twice. *)
Definition scenario (ta tb tc td te : nat) (fa fb fc fd fe : Event → Event)
    (ev1 ev2 : Event) : list Cmd :=
  [COn 0 (passive ta fa); COn 0 (passive tb fb); COn 0 (passive tc fc);
   COnce 0 (passive td fd); COnce 0 (passive te fe);
   CPublish 0 ev1; CPublish 0 ev2].

(** Event type 0 with two persistent listeners, the second of which
    registers a one-shot and a persistent listener whenever it runs, and
    one one-shot listener; event type 1 with one persistent listener. *)
Definition demo_cmds : list Cmd :=
  [COn 0 (passive 1 id);
   COn 0 (MkListener 2 (Z.add 1) [COnce 0 (passive 9 id); COn 0 (passive 8 id)]);
   COnce 0 (passive 3 (Z.mul 2));
   COn 1 (passive 4 id)].
Definition demo : Emitter := state_of (exec 10 demo_cmds Emitter_init).
Definition demo1 : Emitter := state_of (publish 10 0 7%Z demo).
Definition demo2 : Emitter := state_of (publish 10 0 5%Z demo1).

(** Persistent A, B, C and one-shot D on event type 0; A erases the
    connection of C when it runs. *)
Definition erasing_cmds : list Cmd :=
  [COn 0 (MkListener 1 id [CErase 0 2]); COn 0 (passive 2 id); COn 0 (passive 3 id);
   COnce 0 (passive 4 id)].
Definition erasing : Emitter := state_of (exec 10 erasing_cmds Emitter_init).

(** [Handler::publish] on [erasing]: the state in which the loops
    start, the result after the first listener (A) returned, and the
    state in which the call returns. *)
Definition erasing_start : Emitter := swap_onceL 0 (take_call (handler 0 erasing)).
Definition erasing_A : Event * Emitter := result_of (func 10 0 0 7%Z erasing_start).
Definition erasing1 : Emitter := state_of (publish 10 0 7%Z erasing).



(** Event type 0 with two persistent and two one-shot listeners, event
    type 1 with one persistent listener, none of which calls the
    emitter; the older persistent listener of event type 0 is erased. *)
Definition calm_cmds : list Cmd :=
  [COn 0 (passive 1 id); COn 0 (passive 2 (Z.add 1)); COnce 0 (passive 3 id);
   COnce 0 (passive 4 (Z.mul 2)); COn 1 (passive 5 id); CErase 0 0].
Definition calm : Emitter := state_of (exec 10 calm_cmds Emitter_init).

(** [demo] with the connection of its second persistent listener erased,
    and [demo] after [clear<E>()] for event type 0. *)
Definition demo_erased : Emitter := state_of (Emitter_erase 0 1 demo).
Definition cleared : Emitter := Emitter_clear 0 demo.

(** One persistent listener, which publishes its own event type. *)
Definition looping : Emitter :=
  (Emitter_on 0 (MkListener 1 id [CPublish 0 0%Z]) Emitter_init).2.

(** Two one-shot listeners; the newer one publishes its own event type
    when it runs. *)
Definition nesting_cmds : list Cmd :=
  [COnce 0 (passive 1 id); COnce 0 (MkListener 2 id [CPublish 0 1%Z])].
Definition nesting : Emitter := state_of (exec 10 nesting_cmds Emitter_init).
Definition nesting1 : Emitter := state_of (publish 10 0 7%Z nesting).

(* ===================================================================== *)
(** ** Runs of the functions are derivations *)
(* ===================================================================== *)

(** [obind] returns only if both parts do. *)
Lemma obind_Done {A B} (m : Outcome A) (k : A → Outcome B) b :
  obind m k = Done b → ∃ a, m = Done a ∧ k a = Done b.
Proof. destruct m; simpl; intros; try discriminate; eauto. Qed.

(** A run of a function that returned is a derivation. *)
Lemma run_sound fuel :
  (∀ cmds s s', exec fuel cmds s = Done s' → Exec cmds s s') ∧
  (∀ ty ev s s', publish fuel ty ev s = Done s' → Publish ty ev s s') ∧
  (∀ c ty cur last ev s ev' s',
     for_each_on fuel c ty cur last ev s = Done (ev', s') →
     ForEachOn c ty cur last ev s ev' s') ∧
  (∀ c ns ev s ev' s',
     for_each_current fuel c ns ev s = Done (ev', s') →
     ForEachCurrent c ns ev s ev' s') ∧
  (∀ c n ev s ev' s',
     func fuel c n ev s = Done (ev', s') → Func c n ev s ev' s').
Proof.
  induction fuel as [|k (IHe & IHp & IHo & IHc & IHf)];
    [by split_and!; intros; discriminate|].
  split_and!.
  - intros cmds s s' H. simpl in H. destruct cmds as [|c rest].
    + injection H as <-. constructor.
    + destruct c; apply obind_Done in H as (s1 & H1 & H2);
        try (eapply Exec_prim; [exact H1 | by apply IHe]).
      eapply Exec_publish; [by apply IHp | by apply IHe].
  - intros ty ev s s' H. simpl in H.
    apply obind_Done in H as ([ev1 s2] & H1 & H).
    apply obind_Done in H as ([ev2 s3] & H2 & H).
    injection H as <-. eapply Publish_intro; [by apply IHo | by apply IHc].
  - intros c ty cur last ev s ev' s' H. simpl in H.
    destruct (decide (cur = last)) as [->|Hne].
    + injection H as <- <-. constructor.
    + destruct (prev_of (onL_of s ty) cur) as [n|] eqn:Hp; [|discriminate].
      apply obind_Done in H as ([ev1 s1] & H1 & H).
      destruct (prev_of (onL_of s1 ty) cur) as [n'|] eqn:Hp'; [|discriminate].
      eapply ForEachOn_step; eauto.
  - intros c ns ev s ev' s' H. simpl in H. destruct ns as [|n ns].
    + injection H as <- <-. constructor.
    + apply obind_Done in H as ([ev1 s1] & H1 & H).
      eapply ForEachCurrent_cons; eauto.
  - intros c n ev s ev' s' H. simpl in H.
    destruct (allocated s n) eqn:Ha; [|discriminate].
    destruct (tombstoned s n) eqn:Ht.
    + injection H as <- <-. by constructor.
    + destruct (heap s !! n) as [el|] eqn:Hh; [|discriminate].
      apply obind_Done in H as (s1 & H1 & H).
      destruct (allocated s1 n) eqn:Ha'; [|discriminate].
      injection H as <- <-. eapply Func_call; eauto.
Qed.

(* ===================================================================== *)
(** ** Lists and stores *)
(* ===================================================================== *)

Section list_facts.
Context {A : Type} (P Q : A → Prop).
Context `{!∀ x, Decision (P x)} `{!∀ x, Decision (Q x)}.

Lemma filter_all (l : list A) : (∀ x, x ∈ l → P x) → filter P l = l.
Proof.
  induction l as [|x l IH]; intros Hl; [done|].
  rewrite filter_cons_True by (apply Hl; left).
  f_equal. apply IH. intros y Hy. apply Hl. by right.
Qed.

Lemma filter_none (l : list A) : (∀ x, x ∈ l → ¬ P x) → filter P l = [].
Proof.
  induction l as [|x l IH]; intros Hl; [done|].
  rewrite filter_cons_False by (apply Hl; left).
  apply IH. intros y Hy. apply Hl. by right.
Qed.

Lemma filter_ext_in (l : list A) :
  (∀ x, x ∈ l → P x ↔ Q x) → filter P l = filter Q l.
Proof.
  induction l as [|x l IH]; intros Hl; [done|].
  rewrite !filter_cons. rewrite IH by (intros y Hy; apply Hl; by right).
  destruct (decide (P x)) as [HP|HP], (decide (Q x)) as [HQ|HQ]; try done.
  - destruct HQ. apply Hl; [left|done].
  - destruct HP. apply Hl; [left|done].
Qed.

Lemma head_filter_cons (C : list A) y :
  head C = Some y → P y → head (filter P C) = Some y.
Proof.
  destruct C as [|z C]; [done|]. intros [= ->] Hy. by rewrite filter_cons_True.
Qed.

(** A sublist of a list without repetitions that holds the elements
    with [P], and only those, is the list filtered by [P]. *)
Lemma sublist_filter_eq (l' l : list A) :
  l' `sublist_of` l → (∀ x, x ∈ l → P x → x ∈ l') → (∀ x, x ∈ l' → P x) →
  NoDup l → l' = filter P l.
Proof.
  induction 1 as [|x l1 l2 Hsub IH|x l1 l2 Hsub IH]; intros Hall HP Hnd.
  - done.
  - apply NoDup_cons in Hnd as [Hx Hnd].
    rewrite filter_cons_True by (apply HP; left). f_equal. apply IH; [| |done].
    + intros y Hy Py. specialize (Hall y (list_elem_of_further _ _ _ Hy) Py).
      apply elem_of_cons in Hall as [->|?]; [done|done].
    + intros y Hy. apply HP. by right.
  - apply NoDup_cons in Hnd as [Hx Hnd].
    assert (x ∉ l1) as Hx1.
    { intros Hin. apply Hx. by eapply elem_of_sublist. }
    rewrite filter_cons_False; [apply IH; [|done|done]|].
    + intros y Hy Py. apply Hall; [by right|done].
    + intros Px. apply Hx1, Hall; [left|done].
Qed.

Lemma forallb_elem_of (p : A → bool) (l : list A) :
  forallb p l = true ↔ ∀ x, x ∈ l → p x = true.
Proof.
  rewrite forallb_forall. split; intros Hall x Hx; apply Hall; by apply list_elem_of_In.
Qed.
End list_facts.

(* ===================================================================== *)
(** ** The registry and the lists under each call *)
(* ===================================================================== *)

(** Growing the vector keeps the old slots and adds null ones. *)
Lemma vec_resize_lookup n hs i :
  length hs ≤ n →
  vec_resize n hs !! i =
    if decide (i < length hs) then hs !! i
    else if decide (i < n) then Some None else None.
Proof.
  intros Hn. unfold vec_resize. rewrite take_ge by lia.
  case_decide.
  - by rewrite lookup_app_l.
  - rewrite lookup_app_r by lia. case_decide.
    + apply lookup_replicate_2. lia.
    + apply lookup_replicate_None. lia.
Qed.

(** [handler<E>()] makes a handler for [E] unless there is one, and leaves
    the other slots as they are. *)
Lemma get_handler_handler ty s ty' :
  get_handler (handler ty s) ty' =
    match get_handler s ty' with
    | Some h => Some h
    | None => if decide (ty' = ty) then Some (MkHandler (next_hid s) [] []) else None
    end.
Proof.
  unfold handler, get_handler.
  destruct (decide (ty < length (handlers s))) as [Hlt|Hge].
  - destruct (handlers s !! ty) as [[h|]|] eqn:Hty; simpl.
    + destruct (handlers s !! ty') as [[h'|]|] eqn:Hty'; try done;
        case_decide; simplify_eq; done.
    + destruct (decide (ty' = ty)) as [->|Hne].
      * rewrite Hty. by rewrite list_lookup_insert_eq.
      * rewrite list_lookup_insert_ne by done.
        by destruct (handlers s !! ty') as [[h'|]|].
    + apply lookup_ge_None in Hty. lia.
  - rewrite !vec_resize_lookup by lia.
    rewrite decide_False by done. rewrite decide_True by lia. simpl.
    destruct (decide (ty' = ty)) as [->|Hne].
    + rewrite list_lookup_insert_eq; last first.
      { unfold vec_resize. rewrite length_app, length_take, length_replicate. lia. }
      rewrite (lookup_ge_None_2 (handlers s)) by lia. done.
    + rewrite list_lookup_insert_ne by done. rewrite vec_resize_lookup by lia.
      destruct (decide (ty' < length (handlers s))).
      * by destruct (handlers s !! ty') as [[h'|]|].
      * rewrite (lookup_ge_None_2 (handlers s)) by lia. by case_decide.
Qed.

Lemma get_handler_upd ty g s ty' :
  get_handler (upd_handler ty g s) ty' =
    if decide (ty' = ty) then g <$> get_handler s ty' else get_handler s ty'.
Proof.
  unfold get_handler, upd_handler. simpl. case_decide as Hty.
  - subst. rewrite list_lookup_alter_eq. by destruct (handlers s !! ty) as [[h|]|].
  - by rewrite list_lookup_alter_ne.
Qed.

Lemma onL_of_handler ty s ty' : onL_of (handler ty s) ty' = onL_of s ty'.
Proof.
  unfold onL_of. rewrite get_handler_handler.
  destruct (get_handler s ty'); [done|]. by case_decide.
Qed.

Lemma onceL_of_handler ty s ty' : onceL_of (handler ty s) ty' = onceL_of s ty'.
Proof.
  unfold onceL_of. rewrite get_handler_handler.
  destruct (get_handler s ty'); [done|]. by case_decide.
Qed.

Lemma handler_fields ty s :
  heap (handler ty s) = heap s ∧ next_node (handler ty s) = next_node s ∧
  next_call (handler ty s) = next_call s ∧ log (handler ty s) = log s.
Proof. unfold handler. by repeat case_match. Qed.

Lemma get_handler_handler_is_Some ty s : is_Some (get_handler (handler ty s) ty).
Proof.
  rewrite get_handler_handler. destruct (get_handler s ty); [by eexists|].
  rewrite decide_True by done. by eexists.
Qed.

Lemma onL_of_upd ty g s ty' :
  onL_of (upd_handler ty g s) ty' =
    if decide (ty' = ty) then from_option (onL ∘ g) [] (get_handler s ty')
    else onL_of s ty'.
Proof.
  unfold onL_of. rewrite get_handler_upd. case_decide; [|done].
  by destruct (get_handler s ty').
Qed.

Lemma onceL_of_upd ty g s ty' :
  onceL_of (upd_handler ty g s) ty' =
    if decide (ty' = ty) then from_option (onceL ∘ g) [] (get_handler s ty')
    else onceL_of s ty'.
Proof.
  unfold onceL_of. rewrite get_handler_upd. case_decide; [|done].
  by destruct (get_handler s ty').
Qed.

(** *** What each call does to the lists and to the store *)

Lemma onL_of_on ty f s ty' :
  onL_of (Emitter_on ty f s).2 ty' =
    if decide (ty' = ty) then next_node s :: onL_of s ty' else onL_of s ty'.
Proof.
  unfold Emitter_on, new_node. simpl.
  rewrite onL_of_upd. destruct (handler_fields ty s) as (_ & -> & _).
  case_decide as Hty.
  - subst. change (get_handler _ ty) with (get_handler (handler ty s) ty).
    rewrite <- (onL_of_handler ty s ty). unfold onL_of.
    by destruct (get_handler_handler_is_Some ty s) as [h ->].
  - apply (onL_of_handler ty s ty').
Qed.

Lemma onceL_of_on ty f s ty' : onceL_of (Emitter_on ty f s).2 ty' = onceL_of s ty'.
Proof.
  unfold Emitter_on, new_node. simpl. rewrite onceL_of_upd.
  case_decide as Hty.
  - subst. change (get_handler _ ty) with (get_handler (handler ty s) ty).
    rewrite <- (onceL_of_handler ty s ty). unfold onceL_of.
    by destruct (get_handler (handler ty s) ty).
  - apply (onceL_of_handler ty s ty').
Qed.

Lemma onceL_of_once ty f s ty' :
  onceL_of (Emitter_once ty f s).2 ty' =
    if decide (ty' = ty) then onceL_of s ty' ++ [next_node s] else onceL_of s ty'.
Proof.
  unfold Emitter_once, new_node. simpl.
  rewrite onceL_of_upd. destruct (handler_fields ty s) as (_ & -> & _).
  case_decide as Hty.
  - subst. change (get_handler _ ty) with (get_handler (handler ty s) ty).
    rewrite <- (onceL_of_handler ty s ty). unfold onceL_of.
    by destruct (get_handler_handler_is_Some ty s) as [h ->].
  - apply (onceL_of_handler ty s ty').
Qed.

Lemma onL_of_once ty f s ty' : onL_of (Emitter_once ty f s).2 ty' = onL_of s ty'.
Proof.
  unfold Emitter_once, new_node. simpl. rewrite onL_of_upd.
  case_decide as Hty.
  - subst. change (get_handler _ ty) with (get_handler (handler ty s) ty).
    rewrite <- (onL_of_handler ty s ty). unfold onL_of.
    by destruct (get_handler (handler ty s) ty).
  - apply (onL_of_handler ty s ty').
Qed.

Lemma on_fields ty f s :
  let s' := (Emitter_on ty f s).2 in
  heap s' = <[next_node s := MkElement false f false]> (heap s) ∧
  next_node s' = S (next_node s) ∧ next_call s' = next_call s ∧ log s' = log s.
Proof.
  unfold Emitter_on, new_node. simpl.
  by destruct (handler_fields ty s) as (-> & -> & -> & ->).
Qed.

Lemma once_fields ty f s :
  let s' := (Emitter_once ty f s).2 in
  heap s' = <[next_node s := MkElement false f false]> (heap s) ∧
  next_node s' = S (next_node s) ∧ next_call s' = next_call s ∧ log s' = log s.
Proof.
  unfold Emitter_once, new_node. simpl.
  by destruct (handler_fields ty s) as (-> & -> & -> & ->).
Qed.

Lemma on_conn ty f s : (Emitter_on ty f s).1 = next_node s.
Proof. unfold Emitter_on, new_node. simpl. by destruct (handler_fields ty s) as (_ & -> & _). Qed.
Lemma once_conn ty f s : (Emitter_once ty f s).1 = next_node s.
Proof. unfold Emitter_once, new_node. simpl. by destruct (handler_fields ty s) as (_ & -> & _). Qed.

(** A change applied to the nodes [ns] of a store, read at [n]. *)
Lemma lookup_foldr_alter (g : Element → Element) ns (hp : gmap nat Element) n :
  (∀ el, g (g el) = g el) →
  foldr (alter g) hp ns !! n = if decide (n ∈ ns) then g <$> hp !! n else hp !! n.
Proof.
  intros Hg. induction ns as [|m ns IH].
  - simpl. destruct (decide (n ∈ [])) as [Hin|Hin]; [|done].
    by apply not_elem_of_nil in Hin.
  - cbn [foldr]. destruct (decide (m = n)) as [->|Hne].
    + rewrite lookup_alter_eq, IH.
      destruct (decide (n ∈ n :: ns)) as [_|Hn]; [|by destruct Hn; left].
      destruct (decide (n ∈ ns)); [|done].
      destruct (hp !! n); simpl; by rewrite ?Hg.
    + rewrite lookup_alter_ne by done. rewrite IH.
      destruct (decide (n ∈ ns)) as [Hin|Hin];
        destruct (decide (n ∈ m :: ns)) as [Hin'|Hin']; try done.
      * destruct Hin'. by right.
      * apply elem_of_cons in Hin'. naive_solver.
Qed.

Lemma lookup_tombstone_all ns (hp : gmap nat Element) n :
  tombstone_all ns hp !! n = if decide (n ∈ ns) then set_first <$> hp !! n else hp !! n.
Proof. by apply lookup_foldr_alter. Qed.

Lemma heap_free_all ns s n :
  heap (free_all ns s) !! n =
    if decide (n ∈ ns) then set_freed <$> heap s !! n else heap s !! n.
Proof. by apply lookup_foldr_alter. Qed.

(** [erase] returns exactly when the connection is to an existing node. *)
Lemma erase_Done ty conn s s' :
  Emitter_erase ty conn s = Done s' →
  allocated s conn = true ∧
  s' = set_heap (alter set_first conn (heap s)) (handler ty s).
Proof.
  unfold Emitter_erase, Handler_erase, allocated.
  destruct (handler_fields ty s) as (-> & _).
  destruct (heap s !! conn) as [el|]; [|done].
  destruct (negb (freed el)); [|done]. by intros [= <-].
Qed.

(** [erase] sets the flag of the node it is given, and nothing else. *)
Lemma tombstoned_erase ty conn s s' :
  Emitter_erase ty conn s = Done s' →
  tombstoned s' conn = true ∧ (∀ m, m ≠ conn → tombstoned s' m = tombstoned s m) ∧
  (∀ m, allocated s' m = allocated s m).
Proof.
  intros (Ha & ->)%erase_Done. unfold tombstoned, allocated in *. simpl.
  split_and!.
  - rewrite lookup_alter_eq. by destruct (heap s !! conn).
  - intros m Hm. by rewrite lookup_alter_ne.
  - intros m. destruct (decide (conn = m)) as [->|Hne].
    + rewrite lookup_alter_eq. by destruct (heap s !! m).
    + by rewrite lookup_alter_ne.
Qed.

(** [clear<E>()], in terms of the two lists before the call. *)
Lemma clear_eq ty s :
  Emitter_clear ty s =
    set_heap (tombstone_all (onL_of s ty) (tombstone_all (onceL_of s ty) (heap s)))
             (handler ty s).
Proof.
  unfold Emitter_clear.
  rewrite <- (onL_of_handler ty s ty), <- (onceL_of_handler ty s ty).
  unfold onL_of, onceL_of.
  destruct (get_handler_handler_is_Some ty s) as [h ->]. simpl.
  by destruct (handler_fields ty s) as (-> & _).
Qed.

Lemma onL_of_set_heap hp s ty : onL_of (set_heap hp s) ty = onL_of s ty.
Proof. done. Qed.
Lemma onceL_of_set_heap hp s ty : onceL_of (set_heap hp s) ty = onceL_of s ty.
Proof. done. Qed.

Lemma onceL_of_swap ty s ty' :
  onceL_of (swap_onceL ty s) ty' = if decide (ty' = ty) then [] else onceL_of s ty'.
Proof.
  unfold swap_onceL. rewrite onceL_of_upd. case_decide; [|done].
  by destruct (get_handler s ty').
Qed.

Lemma onL_of_swap ty s ty' : onL_of (swap_onceL ty s) ty' = onL_of s ty'.
Proof.
  unfold swap_onceL. rewrite onL_of_upd. case_decide; [|done].
  unfold onL_of. by destruct (get_handler s ty').
Qed.

Lemma onL_of_remove_if ty s ty' :
  onL_of (remove_if ty s) ty' =
    if decide (ty' = ty) then filter (λ n, tombstoned s n = false) (onL_of s ty')
    else onL_of s ty'.
Proof.
  unfold remove_if, free_all. rewrite onL_of_set_heap, onL_of_upd.
  case_decide; [|done]. subst. unfold onL_of.
  by destruct (get_handler s ty).
Qed.

Lemma onceL_of_remove_if ty s ty' : onceL_of (remove_if ty s) ty' = onceL_of s ty'.
Proof.
  unfold remove_if, free_all. rewrite onceL_of_set_heap, onceL_of_upd.
  case_decide; [|done]. unfold onceL_of. by destruct (get_handler s ty').
Qed.

Lemma heap_remove_if ty s n :
  heap (remove_if ty s) !! n =
    if decide (n ∈ onL_of s ty ∧ tombstoned s n = true)
    then set_freed <$> heap s !! n else heap s !! n.
Proof.
  unfold remove_if. rewrite heap_free_all. simpl.
  destruct (decide (n ∈ filter _ _)) as [Hin|Hin];
    rewrite list_elem_of_filter in Hin.
  - rewrite decide_True; [done|]. tauto.
  - rewrite decide_False; [done|]. tauto.
Qed.

(** *** Facts about [wf] and [evolves] *)

Lemma tombstoned_mono s s' n :
  evolves s s' → tombstoned s n = true → tombstoned s' n = true.
Proof.
  intros He. unfold tombstoned. destruct (heap s !! n) as [el|] eqn:Hn; [|done].
  destruct (ev_heap _ _ He _ _ Hn) as (el' & -> & _ & Hf & _). done.
Qed.

Lemma allocated_anti s s' n :
  evolves s s' → is_Some (heap s !! n) → allocated s' n = true → allocated s n = true.
Proof.
  intros He [el Hn]. unfold allocated. rewrite Hn.
  destruct (ev_heap _ _ He _ _ Hn) as (el' & -> & _ & _ & Hf).
  destruct (freed el); [|done]. by rewrite Hf.
Qed.

Lemma allocated_is_Some s n : allocated s n = true → is_Some (heap s !! n).
Proof. unfold allocated. destruct (heap s !! n); [by eexists|done]. Qed.

Lemma listener_stable s s' n el :
  evolves s s' → heap s !! n = Some el →
  ∃ el', heap s' !! n = Some el' ∧ second el' = second el.
Proof. intros He Hn. destruct (ev_heap _ _ He _ _ Hn) as (el' & ? & ? & _). eauto. Qed.

Lemma evolves_refl s : wf s → evolves s s.
Proof.
  intros Hwf. split; try done; try lia.
  - intros n el Hn. exists el. eauto.
  - intros ty h Hh. eauto.
  - intros ty. exists []. split; [|constructor]. simpl. symmetry.
    apply filter_all. intros n Hn. eapply wf_alloc; [done|].
    apply elem_of_app. by right.
  - intros ty n Hn. by left.
  - intros ty n Hn Ha. rewrite (wf_alloc _ Hwf ty n) in Ha; [done|].
    apply elem_of_app. by right.
Qed.

(** [evolves] composes along well-formed states. *)
Lemma evolves_trans s1 s2 s3 :
  wf s1 → evolves s1 s2 → evolves s2 s3 → evolves s1 s3.
Proof.
  intros Hwf H12 H23. split.
  - pose proof (ev_node _ _ H12). pose proof (ev_node _ _ H23). lia.
  - pose proof (ev_call _ _ H12). pose proof (ev_call _ _ H23). lia.
  - etrans; [apply (ev_log _ _ H12) | apply (ev_log _ _ H23)].
  - intros n el Hn.
    destruct (ev_heap _ _ H12 _ _ Hn) as (el2 & Hn2 & Hs2 & Hf2 & Hd2).
    destruct (ev_heap _ _ H23 _ _ Hn2) as (el3 & Hn3 & Hs3 & Hf3 & Hd3).
    exists el3. split_and!; [done|congruence|tauto|tauto].
  - intros ty h Hh.
    destruct (ev_handler _ _ H12 _ _ Hh) as (h2 & Hh2 & Hid2).
    destruct (ev_handler _ _ H23 _ _ Hh2) as (h3 & Hh3 & Hid3).
    exists h3. split; [done|congruence].
  - intros ty.
    destruct (ev_onL _ _ H12 ty) as (f2 & E2 & F2).
    destruct (ev_onL _ _ H23 ty) as (f3 & E3 & F3).
    exists (f3 ++ filter (λ n, allocated s3 n = true) f2). split.
    + rewrite E3, E2, filter_app, <- app_assoc. do 2 f_equal.
      rewrite list_filter_filter. apply filter_ext_in.
      intros n Hn. split; [tauto|]. intros Ha. split; [done|].
      eapply allocated_anti; [exact H23| |done].
      assert (allocated s1 n = true) as Ha1.
      { eapply wf_alloc; [done|]. apply elem_of_app. by right. }
      apply allocated_is_Some in Ha1 as [el Hel].
      destruct (ev_heap _ _ H12 _ _ Hel) as (el' & -> & _). by eexists.
    + apply Forall_app. split.
      * eapply Forall_impl; [exact F3|]. simpl. intros n.
        pose proof (ev_node _ _ H12). lia.
      * apply Forall_forall. intros n [_ Hn]%list_elem_of_filter.
        by apply (proj1 (Forall_forall _ _) F2).
  - intros ty n Hn.
    destruct (ev_onceL _ _ H23 _ _ Hn) as [Hn2|Hn2].
    + apply (ev_onceL _ _ H12 _ _ Hn2).
    + right. pose proof (ev_node _ _ H12). lia.
  - intros ty n Hn Ha.
    destruct (allocated s2 n) eqn:Ha2.
    + eapply (ev_freed _ _ H23 ty); [|done].
      destruct (ev_onL _ _ H12 ty) as (f2 & -> & _).
      apply elem_of_app. right. apply list_elem_of_filter. done.
    + eapply tombstoned_mono; [exact H23|]. by eapply (ev_freed _ _ H12).
Qed.

(** *** Calls that only tombstone *)

Lemma marked_refl hp : marked hp hp.
Proof. intros n. by left. Qed.

Lemma marked_trans hp1 hp2 hp3 : marked hp1 hp2 → marked hp2 hp3 → marked hp1 hp3.
Proof.
  intros H12 H23 n. destruct (H12 n) as [E2|E2], (H23 n) as [E3|E3];
    rewrite E3, E2; auto.
  right. by destruct (hp1 !! n).
Qed.

Lemma marked_tombstone_all ns hp : marked hp (tombstone_all ns hp).
Proof. intros n. rewrite lookup_tombstone_all. case_decide; auto. Qed.

Lemma marked_alter n hp : marked hp (alter set_first n hp).
Proof.
  intros m. destruct (decide (n = m)) as [->|Hne].
  - rewrite lookup_alter_eq. by right.
  - rewrite lookup_alter_ne by done. by left.
Qed.

Lemma marked_allocated s s' n :
  marked (heap s) (heap s') → allocated s' n = allocated s n.
Proof.
  intros Hm. unfold allocated. destruct (Hm n) as [->| ->]; [done|].
  by destruct (heap s !! n).
Qed.

Lemma marked_tombstoned s s' n :
  marked (heap s) (heap s') → tombstoned s n = true → tombstoned s' n = true.
Proof.
  intros Hm. unfold tombstoned. destruct (Hm n) as [->| ->]; [done|].
  by destruct (heap s !! n).
Qed.

(** A call that links nothing, takes no address and only tombstones
    keeps the state well-formed, and the state evolves. *)
Lemma step_mark s s' :
  (∀ ty, onL_of s' ty = onL_of s ty) →
  (∀ ty, onceL_of s' ty = onceL_of s ty) →
  next_node s' = next_node s →
  next_call s ≤ next_call s' →
  log s' = log s →
  (∀ ty h, get_handler s ty = Some h →
     ∃ h', get_handler s' ty = Some h' ∧ hid h' = hid h) →
  marked (heap s) (heap s') →
  wf s → wf s' ∧ evolves s s'.
Proof.
  intros HonL HonceL Hnode Hcall Hlog Hh Hm Hwf.
  assert (∀ ty, nodes_of s' ty = nodes_of s ty) as Hnodes.
  { intros ty. unfold nodes_of. by rewrite HonL, HonceL. }
  assert (∀ ty n, n ∈ onL_of s ty → allocated s' n = true) as Hal.
  { intros ty n Hn. rewrite (marked_allocated s s') by done.
    eapply wf_alloc; [done|]. apply elem_of_app. by right. }
  split; split.
  - intros ty. rewrite Hnodes. by apply wf_nodup.
  - intros ty1 ty2 n. rewrite !Hnodes. by apply wf_disj.
  - intros ty n. rewrite Hnodes, (marked_allocated s s') by done. by apply wf_alloc.
  - intros n Hn. rewrite Hnode. apply (wf_heap _ Hwf).
    destruct (Hm n) as [E|E]; rewrite E in Hn; [done|].
    by apply fmap_is_Some in Hn.
  - intros e. rewrite Hlog. intros He.
    destruct (wf_log _ Hwf e He). lia.
  - lia.
  - done.
  - by rewrite Hlog.
  - intros n el Hn. destruct (Hm n) as [E|E]; rewrite E, Hn; simpl; eauto 10.
  - done.
  - intros ty. exists []. split; [|constructor]. simpl. rewrite HonL.
    symmetry. apply filter_all. intros n Hn. by eapply Hal.
  - intros ty n. rewrite HonceL. auto.
  - intros ty n Hn Ha. by rewrite (Hal ty n) in Ha.
Qed.

Lemma get_handler_handler_mono ty s ty' h :
  get_handler s ty' = Some h →
  ∃ h', get_handler (handler ty s) ty' = Some h' ∧ hid h' = hid h.
Proof. intros Hh. rewrite get_handler_handler, Hh. eauto. Qed.

Lemma step_handler ty s : wf s → wf (handler ty s) ∧ evolves s (handler ty s).
Proof.
  destruct (handler_fields ty s) as (Hheap & Hnode & Hcall & Hlog).
  apply step_mark; try done.
  - apply onL_of_handler.
  - apply onceL_of_handler.
  - lia.
  - intros ty' h. apply get_handler_handler_mono.
  - rewrite Hheap. apply marked_refl.
Qed.

Lemma step_erase ty conn s s' :
  Emitter_erase ty conn s = Done s' → wf s → wf s' ∧ evolves s s'.
Proof.
  intros (Ha & ->)%erase_Done.
  destruct (handler_fields ty s) as (Hheap & Hnode & Hcall & Hlog).
  apply step_mark; simpl; try done.
  - apply onL_of_handler.
  - apply onceL_of_handler.
  - lia.
  - intros ty' h. apply get_handler_handler_mono.
  - apply marked_alter.
Qed.

Lemma step_clear ty s : wf s → wf (Emitter_clear ty s) ∧ evolves s (Emitter_clear ty s).
Proof.
  rewrite clear_eq.
  destruct (handler_fields ty s) as (Hheap & Hnode & Hcall & Hlog).
  apply step_mark; simpl; try done.
  - apply onL_of_handler.
  - apply onceL_of_handler.
  - lia.
  - intros ty' h. apply get_handler_handler_mono.
  - eapply marked_trans; apply marked_tombstone_all.
Qed.

Lemma marked_clearAll hs hp :
  marked hp (foldl (λ hp oh, match oh with Some h => Handler_clear h hp | None => hp end)
                   hp hs).
Proof.
  revert hp. induction hs as [|[h|] hs IH]; intros hp; simpl.
  - apply marked_refl.
  - eapply marked_trans; [|apply IH].
    eapply marked_trans; apply marked_tombstone_all.
  - apply IH.
Qed.

Lemma step_clearAll s : wf s → wf (Emitter_clearAll s) ∧ evolves s (Emitter_clearAll s).
Proof.
  apply step_mark; simpl; try done.
  - eauto.
  - apply marked_clearAll.
Qed.

Lemma step_take_call s : wf s → wf (take_call s) ∧ evolves s (take_call s).
Proof.
  apply step_mark; simpl; try done.
  - lia.
  - eauto.
  - apply marked_refl.
Qed.

(** *** Invocation and registration *)

Lemma listed_lt s n : wf s → listed s n → n < next_node s.
Proof.
  intros Hwf [ty Hn]. apply (wf_heap _ Hwf), allocated_is_Some.
  by eapply wf_alloc.
Qed.

Lemma onL_listed s ty n : n ∈ onL_of s ty → listed s n.
Proof. intros Hn. exists ty. apply elem_of_app. by right. Qed.
Lemma onceL_listed s ty n : n ∈ onceL_of s ty → listed s n.
Proof. intros Hn. exists ty. apply elem_of_app. by left. Qed.

Lemma step_log_invoke c n f ev s :
  c < next_call s → n < next_node s →
  wf s → wf (log_invoke c n f ev s) ∧ evolves s (log_invoke c n f ev s).
Proof.
  intros Hc Hn Hwf. split; split; try done; try (by destruct Hwf).
  - intros e. simpl. rewrite elem_of_app, list_elem_of_singleton.
    intros [He| ->]; [by apply (wf_log _ Hwf)|done].
  - simpl. by apply prefix_app_r.
  - intros m el Hm. exists el. eauto.
  - eauto.
  - intros ty. exists []. split; [|constructor]. simpl. symmetry.
    apply filter_all. intros m Hm. apply (wf_alloc _ Hwf ty). apply elem_of_app. by right.
  - auto.
  - intros ty m Hm Ha. change (allocated s m = false) in Ha.
    rewrite (wf_alloc _ Hwf ty m) in Ha; [done|]. apply elem_of_app. by right.
Qed.

(** Registration: a fresh node, linked at the front of [onL] or at the
    back of [onceL]. *)
Lemma step_register s s' ty f (front back : list nat) :
  (∀ ty', onL_of s' ty' = if decide (ty' = ty) then front ++ onL_of s ty' else onL_of s ty') →
  (∀ ty', onceL_of s' ty' = if decide (ty' = ty) then onceL_of s ty' ++ back else onceL_of s ty') →
  (front = [next_node s] ∧ back = [] ∨ front = [] ∧ back = [next_node s]) →
  heap s' = <[next_node s := MkElement false f false]> (heap s) →
  next_node s' = S (next_node s) → next_call s' = next_call s → log s' = log s →
  (∀ ty h, get_handler s ty = Some h →
     ∃ h', get_handler s' ty = Some h' ∧ hid h' = hid h) →
  wf s → wf s' ∧ evolves s s'.
Proof.
  intros HonL HonceL Hfb Hheap Hnode Hcall Hlog Hh Hwf.
  assert (∀ m, listed s m → m ≠ next_node s) as Hfresh.
  { intros m Hm%listed_lt; [lia|done]. }
  assert (∀ ty' m, m ∈ nodes_of s' ty' ↔
            m ∈ nodes_of s ty' ∨ (ty' = ty ∧ m = next_node s)) as Hnodes.
  { intros ty' m. unfold nodes_of. rewrite HonL, HonceL.
    case_decide; [|set_solver].
    destruct Hfb as [[-> ->]|[-> ->]]; set_solver. }
  assert (∀ m, m ≠ next_node s → allocated s' m = allocated s m) as Hal.
  { intros m Hm. unfold allocated. by rewrite Hheap, lookup_insert_ne. }
  assert (∀ ty' m, m ∈ onL_of s ty' → allocated s' m = true) as Hal'.
  { intros ty' m Hm. rewrite Hal by (by eapply Hfresh, onL_listed).
    apply (wf_alloc _ Hwf ty'). apply elem_of_app. by right. }
  split; split.
  - intros ty'. pose proof (wf_nodup _ Hwf ty') as Hnd. unfold nodes_of in *.
    rewrite HonL, HonceL. case_decide; [|done]. subst ty'.
    assert (next_node s ∉ onceL_of s ty ++ onL_of s ty) as Hni.
    { intros Hin. by apply (Hfresh (next_node s)); [exists ty|]. }
    destruct Hfb as [[-> ->]|[-> ->]]; simpl; rewrite ?app_nil_r.
    + apply NoDup_app in Hnd as (? & ? & ?). apply NoDup_app. split_and!; [done| |].
      * intros m Hm. rewrite elem_of_cons. set_solver.
      * apply NoDup_cons. set_solver.
    + rewrite <- app_assoc. apply NoDup_app in Hnd as (? & ? & ?).
      apply NoDup_app. split_and!; [done| |].
      * set_solver.
      * apply NoDup_cons. set_solver.
  - intros ty1 ty2 m [H1|[E1 E1']]%Hnodes [H2|[E2 E2']]%Hnodes; subst.
    + by eapply wf_disj.
    + destruct (Hfresh (next_node s)); [by exists ty1|done].
    + destruct (Hfresh (next_node s)); [by exists ty2|done].
    + done.
  - intros ty' m [Hm|[-> ->]]%Hnodes.
    + rewrite Hal by (apply Hfresh; by exists ty'). by eapply wf_alloc.
    + unfold allocated. by rewrite Hheap, lookup_insert_eq.
  - intros m. rewrite Hheap, Hnode, lookup_insert_is_Some.
    intros [->|[_ Hm]]; [lia|]. apply (wf_heap _ Hwf) in Hm. lia.
  - intros e. rewrite Hlog, Hnode, Hcall. intros He.
    destruct (wf_log _ Hwf e He). lia.
  - lia.
  - lia.
  - by rewrite Hlog.
  - intros m el Hm. exists el. split; [|tauto]. rewrite Hheap, lookup_insert_ne; [done|].
    intros <-. apply mk_is_Some, (wf_heap _ Hwf) in Hm. lia.
  - done.
  - intros ty'. rewrite HonL.
    rewrite (filter_all _ (onL_of s ty')) by (intros m Hm; by eapply Hal').
    case_decide.
    + exists front. split; [done|].
      destruct Hfb as [[-> ->]|[-> ->]]; repeat constructor.
    + exists []. split; [done|constructor].
  - intros ty' m. rewrite HonceL. case_decide; [|auto].
    destruct Hfb as [[-> ->]|[-> ->]]; rewrite ?app_nil_r; [auto|].
    rewrite elem_of_app, list_elem_of_singleton. intros [?| ->]; auto.
  - intros ty' m Hm Ha. by rewrite (Hal' ty' m) in Ha.
Qed.

Lemma get_handler_upd_mono ty g s ty' h :
  (∀ h, hid (g h) = hid h) →
  get_handler s ty' = Some h →
  ∃ h', get_handler (upd_handler ty g s) ty' = Some h' ∧ hid h' = hid h.
Proof.
  intros Hg Hh. rewrite get_handler_upd, Hh. case_decide; simpl; eauto.
Qed.

Lemma get_handler_set_heap hp s ty : get_handler (set_heap hp s) ty = get_handler s ty.
Proof. done. Qed.

Lemma get_handler_on_mono ty f s ty' h :
  get_handler s ty' = Some h →
  ∃ h', get_handler (Emitter_on ty f s).2 ty' = Some h' ∧ hid h' = hid h.
Proof.
  intros Hh. destruct (get_handler_handler_mono ty s ty' h Hh) as (h1 & H1 & E1).
  unfold Emitter_on, new_node. simpl.
  destruct (get_handler_upd_mono ty (Handler_on (next_node (handler ty s)))
              (handler ty s) ty' h1) as (h2 & H2 & E2); [done|done|].
  exists h2. split; [|congruence]. exact H2.
Qed.

Lemma get_handler_once_mono ty f s ty' h :
  get_handler s ty' = Some h →
  ∃ h', get_handler (Emitter_once ty f s).2 ty' = Some h' ∧ hid h' = hid h.
Proof.
  intros Hh. destruct (get_handler_handler_mono ty s ty' h Hh) as (h1 & H1 & E1).
  unfold Emitter_once, new_node. simpl.
  destruct (get_handler_upd_mono ty (Handler_once (next_node (handler ty s)))
              (handler ty s) ty' h1) as (h2 & H2 & E2); [done|done|].
  exists h2. split; [|congruence]. exact H2.
Qed.

Lemma step_on ty f s :
  wf s → wf (Emitter_on ty f s).2 ∧ evolves s (Emitter_on ty f s).2.
Proof.
  destruct (on_fields ty f s) as (Hheap & Hnode & Hcall & Hlog).
  apply (step_register s _ ty f [next_node s] []); try done.
  - apply onL_of_on.
  - intros ty'. rewrite onceL_of_on, app_nil_r. by case_decide.
  - by left.
  - intros ty' h. apply get_handler_on_mono.
Qed.

Lemma step_once ty f s :
  wf s → wf (Emitter_once ty f s).2 ∧ evolves s (Emitter_once ty f s).2.
Proof.
  destruct (once_fields ty f s) as (Hheap & Hnode & Hcall & Hlog).
  apply (step_register s _ ty f [] [next_node s]); try done.
  - intros ty'. rewrite onL_of_once. by case_decide.
  - apply onceL_of_once.
  - by right.
  - intros ty' h. apply get_handler_once_mono.
Qed.

Lemma Done_inj {A} (a b : A) : Done a = Done b → a = b.
Proof. by intros [= ->]. Qed.

Lemma prim_log c s s' : prim c s = Done s' → log s' = log s.
Proof.
  destruct c; cbn [prim]; intros Hp; try (apply Done_inj in Hp as <-); try done.
  - apply on_fields.
  - apply once_fields.
  - apply erase_Done in Hp as [_ ->]. apply handler_fields.
  - rewrite clear_eq. apply handler_fields.
Qed.


(** Each call that is not [publish] keeps the state well-formed. *)
Lemma step_prim c s s' : prim c s = Done s' → wf s → wf s' ∧ evolves s s'.
Proof.
  destruct c; simpl; intros H; try (injection H as <-).
  - apply step_on.
  - apply step_once.
  - by eapply step_erase.
  - apply step_clear.
  - apply step_clearAll.
  - done.
Qed.

(** *** The steps of [Handler::publish] *)

Lemma step_swap ty s : wf s → wf (swap_onceL ty s) ∧ evolves s (swap_onceL ty s).
Proof.
  intros Hwf.
  assert (∀ ty' m, m ∈ nodes_of (swap_onceL ty s) ty' → m ∈ nodes_of s ty') as Hsub.
  { intros ty' m. unfold nodes_of. rewrite onceL_of_swap, onL_of_swap.
    case_decide; set_solver. }
  split; split; try done; try (by destruct Hwf).
  - intros ty'. pose proof (wf_nodup _ Hwf ty') as Hnd. unfold nodes_of in *.
    rewrite onceL_of_swap, onL_of_swap. case_decide; [|done].
    by apply NoDup_app in Hnd as (_ & _ & ?).
  - intros ty1 ty2 m H1%Hsub H2%Hsub. by eapply wf_disj.
  - intros ty' m Hm%Hsub. by apply (wf_alloc _ Hwf ty').
  - intros m el Hm. exists el. eauto.
  - intros ty' h. by apply get_handler_upd_mono.
  - intros ty'. exists []. split; [|constructor]. simpl. rewrite onL_of_swap.
    symmetry. apply filter_all. intros m Hm.
    apply (wf_alloc _ Hwf ty'). apply elem_of_app. by right.
  - intros ty' m. rewrite onceL_of_swap. case_decide; [|auto].
    by intros ?%not_elem_of_nil.
  - intros ty' m Hm Ha. change (allocated s m = false) in Ha.
    rewrite (wf_alloc _ Hwf ty' m) in Ha; [done|]. apply elem_of_app. by right.
Qed.

Lemma allocated_free_all ns s m :
  allocated (free_all ns s) m = if decide (m ∈ ns) then false else allocated s m.
Proof.
  unfold allocated. rewrite heap_free_all. case_decide; [|done].
  by destruct (heap s !! m).
Qed.

Lemma tombstoned_free_all ns s m : tombstoned (free_all ns s) m = tombstoned s m.
Proof.
  unfold tombstoned. rewrite heap_free_all. case_decide; [|done].
  by destruct (heap s !! m).
Qed.

Lemma step_free_all ns s :
  (∀ m, m ∈ ns → ¬ listed s m) →
  wf s → wf (free_all ns s) ∧ evolves s (free_all ns s).
Proof.
  intros Hns Hwf.
  assert (∀ ty m, m ∈ nodes_of s ty → allocated (free_all ns s) m = true) as Hal.
  { intros ty m Hm. rewrite allocated_free_all. case_decide as Hin.
    - destruct (Hns m Hin). by exists ty.
    - by eapply wf_alloc. }
  split; split; try done; try (by destruct Hwf).
  - intros m. rewrite heap_free_all. case_decide; [|by apply (wf_heap _ Hwf)].
    intros ?%fmap_is_Some. by apply (wf_heap _ Hwf).
  - intros m el Hm. rewrite heap_free_all, Hm. case_decide; simpl; eauto 10.
  - eauto.
  - intros ty. exists []. split; [|constructor]. simpl. symmetry.
    apply filter_all. intros m Hm. apply (Hal ty). apply elem_of_app. by right.
  - auto.
  - intros ty m Hm Ha. rewrite (Hal ty m) in Ha; [done|]. apply elem_of_app. by right.
Qed.

Lemma remove_if_fields ty s :
  next_node (remove_if ty s) = next_node s ∧ next_call (remove_if ty s) = next_call s ∧
  log (remove_if ty s) = log s.
Proof. done. Qed.

Lemma allocated_remove_if ty s m :
  allocated (remove_if ty s) m =
    if decide (m ∈ onL_of s ty ∧ tombstoned s m = true) then false else allocated s m.
Proof.
  unfold allocated. rewrite heap_remove_if. case_decide; [|done].
  by destruct (heap s !! m).
Qed.

Lemma tombstoned_remove_if ty s m : tombstoned (remove_if ty s) m = tombstoned s m.
Proof.
  unfold tombstoned. rewrite heap_remove_if. case_decide; [|done].
  by destruct (heap s !! m).
Qed.

Lemma get_handler_remove_if_mono ty s ty' h :
  get_handler s ty' = Some h →
  ∃ h', get_handler (remove_if ty s) ty' = Some h' ∧ hid h' = hid h.
Proof.
  intros Hh. unfold remove_if, free_all. rewrite get_handler_set_heap.
  by apply get_handler_upd_mono.
Qed.

Lemma step_remove_if ty s : wf s → wf (remove_if ty s) ∧ evolves s (remove_if ty s).
Proof.
  intros Hwf.
  assert (∀ ty' m, m ∈ nodes_of (remove_if ty s) ty' →
            m ∈ nodes_of s ty' ∧ ¬ (m ∈ onL_of s ty ∧ tombstoned s m = true)) as Hsub.
  { intros ty' m. unfold nodes_of. rewrite onceL_of_remove_if, onL_of_remove_if.
    rewrite !elem_of_app. intros [Hm|Hm].
    - split; [by left|]. intros [Hin _].
      destruct (decide (ty' = ty)) as [->|Hne].
      + pose proof (wf_nodup _ Hwf ty) as (_ & Hd & _)%NoDup_app. by apply (Hd m).
      + apply Hne. apply (wf_disj _ Hwf ty' ty m); apply elem_of_app; auto.
    - case_decide as Hty.
      + subst. apply list_elem_of_filter in Hm as [Ht Hm].
        split; [by right|]. intros [_ Ht']. congruence.
      + split; [by right|]. intros [Hin _]. apply Hty.
        apply (wf_disj _ Hwf ty' ty m); apply elem_of_app; auto. }
  assert (∀ ty' m, m ∈ onL_of s ty' → allocated s m = true) as Hal.
  { intros ty' m Hm. apply (wf_alloc _ Hwf ty'). apply elem_of_app. by right. }
  split; split; try done.
  - intros ty'. pose proof (wf_nodup _ Hwf ty') as Hnd. unfold nodes_of in *.
    rewrite onceL_of_remove_if, onL_of_remove_if. case_decide; [|done].
    apply NoDup_app in Hnd as (? & Hd & ?). apply NoDup_app. split_and!; [done| |].
    + intros m Hm [_ Hm']%list_elem_of_filter. by apply (Hd m).
    + by apply NoDup_filter.
  - intros ty1 ty2 m [H1 _]%Hsub [H2 _]%Hsub. by eapply wf_disj.
  - intros ty' m [Hm Hn]%Hsub. rewrite allocated_remove_if.
    rewrite decide_False by done. by eapply wf_alloc.
  - intros m. rewrite heap_remove_if. case_decide; [|by apply (wf_heap _ Hwf)].
    intros ?%fmap_is_Some. by apply (wf_heap _ Hwf).
  - by destruct Hwf.
  - intros m el Hm. rewrite heap_remove_if, Hm. case_decide; simpl; eauto 10.
  - intros ty' h. apply get_handler_remove_if_mono.
  - intros ty'. exists []. split; [|constructor]. simpl.
    rewrite onL_of_remove_if. case_decide as Hty.
    + subst. apply filter_ext_in. intros m Hm. rewrite allocated_remove_if.
      case_decide as Hd.
      * destruct Hd as [_ ->]. done.
      * rewrite (Hal ty m Hm). split; [done|]. intros _.
        destruct (tombstoned s m); [|done]. destruct Hd. done.
    + symmetry. apply filter_all. intros m Hm. rewrite allocated_remove_if.
      rewrite decide_False; [by eapply Hal|]. intros [Hin _]. apply Hty.
      apply (wf_disj _ Hwf ty' ty m); apply elem_of_app; auto.
  - intros ty' m. rewrite onceL_of_remove_if. auto.
  - intros ty' m Hm. rewrite allocated_remove_if, tombstoned_remove_if.
    case_decide as Hd; [tauto|]. rewrite (Hal ty' m Hm). done.
Qed.

(** *** Every run *)

(** An address that is in use but linked nowhere stays unlinked. *)
Lemma unlisted_stays s s' n :
  evolves s s' → n < next_node s → ¬ listed s n → ¬ listed s' n.
Proof.
  intros He Hlt Hn [ty Hin]. apply elem_of_app in Hin as [Hin|Hin].
  - destruct (ev_onceL _ _ He _ _ Hin) as [H|H]; [|lia].
    apply Hn. by eapply onceL_listed.
  - destruct (ev_onL _ _ He ty) as (front & E & F). rewrite E in Hin.
    apply elem_of_app in Hin as [Hin|Hin].
    + apply (proj1 (Forall_forall _ _) F) in Hin. lia.
    + apply list_elem_of_filter in Hin as [_ Hin]. apply Hn. by eapply onL_listed.
Qed.

(** Every run keeps the state well-formed and changes it as [evolves] says. *)
Lemma run_wf_evolves :
  (∀ cmds s s', Exec cmds s s' → wf s → wf s' ∧ evolves s s') ∧
  (∀ ty ev s s', Publish ty ev s s' → wf s → wf s' ∧ evolves s s') ∧
  (∀ c ty cur last ev s ev' s', ForEachOn c ty cur last ev s ev' s' →
     c < next_call s → wf s → wf s' ∧ evolves s s') ∧
  (∀ c ns ev s ev' s', ForEachCurrent c ns ev s ev' s' →
     c < next_call s → wf s → wf s' ∧ evolves s s') ∧
  (∀ c n ev s ev' s', Func c n ev s ev' s' →
     c < next_call s → wf s → wf s' ∧ evolves s s').
Proof.
  apply run_mind.
  - intros s Hwf. split; [done|by apply evolves_refl].
  - intros ty ev rest s s1 s' _ IH1 _ IH2 Hwf.
    destruct (IH1 Hwf) as [Hwf1 He1]. destruct (IH2 Hwf1) as [Hwf2 He2].
    split; [done|by eapply evolves_trans].
  - intros c rest s s1 s' Hp _ IH2 Hwf.
    destruct (step_prim _ _ _ Hp Hwf) as [Hwf1 He1]. destruct (IH2 Hwf1) as [Hwf2 He2].
    split; [done|by eapply evolves_trans].
  - intros ty ev s ev1 s2 ev2 s3 _ IHon _ IHcur Hwf.
    destruct (step_handler ty s Hwf) as [Hwf0 He0].
    destruct (step_take_call _ Hwf0) as [Hwft Het].
    destruct (step_swap ty _ Hwft) as [Hwf1 He1].
    set (s0 := handler ty s) in *. set (s1 := swap_onceL ty (take_call s0)) in *.
    assert (next_call s0 < next_call s1) as Hc by (simpl; lia).
    destruct (IHon Hc Hwf1) as [Hwf2 He2].
    assert (next_call s0 < next_call s2) as Hc2.
    { pose proof (ev_call _ _ He2). lia. }
    destruct (IHcur Hc2 Hwf2) as [Hwf3 He3].
    destruct (step_remove_if ty _ Hwf3) as [Hwf4 He4].
    assert (evolves s1 (remove_if ty s3)) as He14.
    { eapply evolves_trans; [done|exact He2|]. by eapply evolves_trans. }
    assert (∀ m, m ∈ onceL_of s0 ty → ¬ listed (remove_if ty s3) m) as Hun.
    { intros m Hm. eapply unlisted_stays; [exact He14| |].
      - change (m < next_node s0). eapply listed_lt; [done|]. by eapply onceL_listed.
      - intros [ty' Hin]. unfold nodes_of, s1 in Hin.
        rewrite onceL_of_swap, onL_of_swap in Hin.
        change (onceL_of (take_call s0) ty') with (onceL_of s0 ty') in Hin.
        change (onL_of (take_call s0) ty') with (onL_of s0 ty') in Hin.
        case_decide as Hty.
        + subst. simpl in Hin.
          pose proof (wf_nodup _ Hwf0 ty) as (_ & Hd & _)%NoDup_app. by apply (Hd m).
        + apply Hty. apply (wf_disj _ Hwf0 ty' ty m); [done|].
          apply elem_of_app. by left. }
    destruct (step_free_all _ _ Hun Hwf4) as [Hwf5 He5].
    split; [done|].
    eapply evolves_trans; [done|exact He0|].
    eapply evolves_trans; [done|exact Het|].
    eapply evolves_trans; [done|exact He1|].
    eapply evolves_trans; [done|exact He14|done].
  - intros c ty cur ev s _ Hwf. split; [done|by apply evolves_refl].
  - intros c ty cur last ev s n ev1 s1 n' ev' s' _ _ _ IHf _ _ IHon Hc Hwf.
    destruct (IHf Hc Hwf) as [Hwf1 He1].
    assert (c < next_call s1) as Hc1 by (pose proof (ev_call _ _ He1); lia).
    destruct (IHon Hc1 Hwf1) as [Hwf2 He2].
    split; [done|by eapply evolves_trans].
  - intros c ev s _ Hwf. split; [done|by apply evolves_refl].
  - intros c n ns ev s ev1 s1 ev' s' _ IHf _ IHcur Hc Hwf.
    destruct (IHf Hc Hwf) as [Hwf1 He1].
    assert (c < next_call s1) as Hc1 by (pose proof (ev_call _ _ He1); lia).
    destruct (IHcur Hc1 Hwf1) as [Hwf2 He2].
    split; [done|by eapply evolves_trans].
  - intros c n ev s _ _ _ Hwf. split; [done|by apply evolves_refl].
  - intros c n ev s el s' Ha _ Hel _ IHe _ Hc Hwf.
    assert (n < next_node s) as Hn by (by apply (wf_heap _ Hwf)).
    destruct (step_log_invoke c n (second el) ev s Hc Hn Hwf) as [Hwf1 He1].
    destruct (IHe Hwf1) as [Hwf2 He2].
    split; [done|by eapply evolves_trans].
Qed.

Lemma exec_wf cmds s s' : Exec cmds s s' → wf s → wf s' ∧ evolves s s'.
Proof. apply run_wf_evolves. Qed.
Lemma publish_wf ty ev s s' : Publish ty ev s s' → wf s → wf s' ∧ evolves s s'.
Proof. apply run_wf_evolves. Qed.
Lemma on_wf c ty cur last ev s ev' s' :
  ForEachOn c ty cur last ev s ev' s' → c < next_call s → wf s → wf s' ∧ evolves s s'.
Proof. apply run_wf_evolves. Qed.
Lemma cur_wf c ns ev s ev' s' :
  ForEachCurrent c ns ev s ev' s' → c < next_call s → wf s → wf s' ∧ evolves s s'.
Proof. apply run_wf_evolves. Qed.
Lemma func_wf c n ev s ev' s' :
  Func c n ev s ev' s' → c < next_call s → wf s → wf s' ∧ evolves s s'.
Proof. apply run_wf_evolves. Qed.

(** The state in which [Handler::publish] starts its two loops. *)
Lemma publish_start ty s :
  wf s →
  wf (swap_onceL ty (take_call (handler ty s))) ∧
  evolves s (swap_onceL ty (take_call (handler ty s))) ∧
  next_call (handler ty s) = next_call s ∧
  next_call (swap_onceL ty (take_call (handler ty s))) = S (next_call s) ∧
  log (swap_onceL ty (take_call (handler ty s))) = log s ∧
  next_node (swap_onceL ty (take_call (handler ty s))) = next_node s ∧
  heap (swap_onceL ty (take_call (handler ty s))) = heap s ∧
  (∀ ty', onL_of (swap_onceL ty (take_call (handler ty s))) ty' = onL_of s ty') ∧
  (∀ ty', onceL_of (swap_onceL ty (take_call (handler ty s))) ty' =
          if decide (ty' = ty) then [] else onceL_of s ty') ∧
  onceL_of (handler ty s) ty = onceL_of s ty.
Proof.
  intros Hwf.
  destruct (step_handler ty s Hwf) as [Hwf0 He0].
  destruct (step_take_call _ Hwf0) as [Hwft Het].
  destruct (step_swap ty _ Hwft) as [Hwf1 He1].
  destruct (handler_fields ty s) as (Hheap & Hnode & Hcall & Hlog).
  split; [done|]. split.
  { eapply evolves_trans; [done|exact He0|]. by eapply evolves_trans. }
  split; [done|]. split; [simpl; by rewrite Hcall|].
  split; [done|]. split; [done|]. split; [done|]. split.
  { intros ty'. rewrite onL_of_swap. apply (onL_of_handler ty s ty'). }
  split.
  { intros ty'. rewrite onceL_of_swap. case_decide; [done|].
    apply (onceL_of_handler ty s ty'). }
  apply onceL_of_handler.
Qed.

Lemma publish_end ty ns s :
  log (free_all ns (remove_if ty s)) = log s ∧
  (∀ n, tombstoned (free_all ns (remove_if ty s)) n = tombstoned s n).
Proof.
  split; [done|]. intros n. by rewrite tombstoned_free_all, tombstoned_remove_if.
Qed.

(** A [publish] call that returned, taken apart: the state [s3] after
    the two loops, and the last two steps. *)
Lemma publish_inv k ty ev s s' :
  wf s → publish k ty ev s = Done s' →
  ∃ s3, s' = free_all (onceL_of s ty) (remove_if ty s3) ∧ wf s3 ∧
        evolves (swap_onceL ty (take_call (handler ty s))) s3 ∧
        wf s' ∧ evolves s s'.
Proof.
  intros Hwf Hp%run_sound.
  destruct (publish_wf _ _ _ _ Hp Hwf) as [Hwf' He'].
  inversion Hp as [? ? ? ev1 s2 ev2 s3 Hon Hcur]; subst.
  destruct (publish_start ty s Hwf)
    as (Hwf1 & He1 & Hc0 & Hc1 & Hlog1 & _ & _ & HonL & _ & Honce).
  rewrite Hc0, Honce in *.
  assert (next_call s < next_call (swap_onceL ty (take_call (handler ty s)))) as Hc by lia.
  destruct (on_wf _ _ _ _ _ _ _ _ Hon Hc Hwf1) as [Hwf2 He2].
  assert (next_call s < next_call s2) as Hc2 by (pose proof (ev_call _ _ He2); lia).
  destruct (cur_wf _ _ _ _ _ _ Hcur Hc2 Hwf2) as [Hwf3 He3].
  exists s3. split_and!; try done. by eapply evolves_trans.
Qed.

(** *** Call numbers, and nodes that are not invoked *)

(** A call number taken before a run is not used by the run. *)
Lemma run_fresh_call :
  (∀ cmds s s', Exec cmds s s' →
     wf s → ∀ c, c < next_call s → by_call c s' = by_call c s) ∧
  (∀ ty ev s s', Publish ty ev s s' →
     wf s → ∀ c, c < next_call s → by_call c s' = by_call c s) ∧
  (∀ c0 ty cur last ev s ev' s', ForEachOn c0 ty cur last ev s ev' s' →
     c0 < next_call s → wf s → ∀ c, c ≠ c0 → c < next_call s → by_call c s' = by_call c s) ∧
  (∀ c0 ns ev s ev' s', ForEachCurrent c0 ns ev s ev' s' →
     c0 < next_call s → wf s → ∀ c, c ≠ c0 → c < next_call s → by_call c s' = by_call c s) ∧
  (∀ c0 n ev s ev' s', Func c0 n ev s ev' s' →
     c0 < next_call s → wf s → ∀ c, c ≠ c0 → c < next_call s → by_call c s' = by_call c s).
Proof.
  apply run_mind.
  - done.
  - intros ty ev rest s s1 s' Hp IH1 _ IH2 Hwf c Hc.
    destruct (publish_wf _ _ _ _ Hp Hwf) as [Hwf1 He1].
    rewrite IH2, IH1; try done. pose proof (ev_call _ _ He1). lia.
  - intros c0 rest s s1 s' Hp _ IH2 Hwf c Hc.
    destruct (step_prim _ _ _ Hp Hwf) as [Hwf1 He1].
    rewrite IH2; [|done|pose proof (ev_call _ _ He1); lia].
    unfold by_call. by rewrite (prim_log _ _ _ Hp).
  - intros ty ev s ev1 s2 ev2 s3 Hon IHon Hcur IHcur Hwf c Hc.
    destruct (publish_start ty s Hwf) as (Hwf1 & He1 & Hc0 & Hc1 & Hlog1 & _).
    rewrite Hc0 in *.
    destruct (on_wf _ _ _ _ _ _ _ _ Hon) as [Hwf2 He2]; [lia|done|].
    pose proof (ev_call _ _ He2).
    unfold by_call at 1. rewrite (proj1 (publish_end _ _ _)). fold (by_call c s3).
    rewrite IHcur, IHon; try done; try lia.
    unfold by_call. by rewrite Hlog1.
  - done.
  - intros c0 ty cur last ev s n ev1 s1 n' ev' s' _ _ Hf IHf _ _ IHon Hc0 Hwf c Hne Hc.
    destruct (func_wf _ _ _ _ _ _ Hf Hc0 Hwf) as [Hwf1 He1].
    pose proof (ev_call _ _ He1).
    rewrite IHon, IHf; try done; lia.
  - done.
  - intros c0 n ns ev s ev1 s1 ev' s' Hf IHf _ IHcur Hc0 Hwf c Hne Hc.
    destruct (func_wf _ _ _ _ _ _ Hf Hc0 Hwf) as [Hwf1 He1].
    pose proof (ev_call _ _ He1).
    rewrite IHcur, IHf; try done; lia.
  - done.
  - intros c0 n ev s el s' Ha _ Hel _ IHe _ Hc0 Hwf c Hne Hc.
    assert (n < next_node s) as Hn by (by apply (wf_heap _ Hwf)).
    destruct (step_log_invoke c0 n (second el) ev s Hc0 Hn Hwf) as [Hwf1 He1].
    rewrite IHe by done. unfold by_call. simpl.
    rewrite filter_app, filter_cons_False, filter_nil, app_nil_r; [done|].
    simpl. congruence.
Qed.

Lemma quiet_evolves s s' n ns ns' :
  evolves s s' → ns' ⊆ ns → quiet s n ns → quiet s' n ns'.
Proof.
  intros He Hns [Ht|(Hlt & Hl & Hin)].
  - left. by eapply tombstoned_mono.
  - right. split_and!.
    + pose proof (ev_node _ _ He). lia.
    + by eapply unlisted_stays.
    + set_solver.
Qed.

(** A run does not invoke a [quiet] node. *)
Lemma run_quiet :
  (∀ cmds s s', Exec cmds s s' →
     wf s → ∀ n, quiet s n [] → fired n s' = fired n s) ∧
  (∀ ty ev s s', Publish ty ev s s' →
     wf s → ∀ n, quiet s n [] → fired n s' = fired n s) ∧
  (∀ c ty cur last ev s ev' s', ForEachOn c ty cur last ev s ev' s' →
     c < next_call s → wf s → ∀ n, quiet s n [] → fired n s' = fired n s) ∧
  (∀ c ns ev s ev' s', ForEachCurrent c ns ev s ev' s' →
     c < next_call s → wf s → ∀ n, quiet s n ns → fired n s' = fired n s) ∧
  (∀ c m ev s ev' s', Func c m ev s ev' s' →
     c < next_call s → wf s → ∀ n, quiet s n [m] → fired n s' = fired n s).
Proof.
  apply run_mind.
  - done.
  - intros ty ev rest s s1 s' Hp IH1 _ IH2 Hwf n Hq.
    destruct (publish_wf _ _ _ _ Hp Hwf) as [Hwf1 He1].
    rewrite IH2, IH1; try done. by eapply quiet_evolves.
  - intros c rest s s1 s' Hp _ IH2 Hwf n Hq.
    destruct (step_prim _ _ _ Hp Hwf) as [Hwf1 He1].
    rewrite IH2; [|done|by eapply quiet_evolves].
    unfold fired. by rewrite (prim_log _ _ _ Hp).
  - intros ty ev s ev1 s2 ev2 s3 Hon IHon Hcur IHcur Hwf n Hq.
    destruct (publish_start ty s Hwf)
      as (Hwf1 & He1 & Hc0 & Hc1 & Hlog1 & _ & _ & _ & _ & Honce).
    rewrite Hc0, Honce in *.
    destruct (on_wf _ _ _ _ _ _ _ _ Hon) as [Hwf2 He2]; [lia|done|].
    pose proof (ev_call _ _ He2).
    unfold fired at 1. rewrite (proj1 (publish_end _ _ _)). fold (fired n s3).
    rewrite IHcur, IHon; try done; try lia.
    + unfold fired. by rewrite Hlog1.
    + by eapply quiet_evolves.
    + eapply quiet_evolves;
        [eapply (evolves_trans s _ s2); [done|exact He1|exact He2]|done|].
      destruct Hq as [Ht|(Hlt & Hl & _)]; [by left|right].
      split_and!; [done|done|]. rewrite elem_of_reverse. intros Hin.
      apply Hl. by eapply onceL_listed.
  - done.
  - intros c ty cur last ev s m ev1 s1 m' ev' s' _ Hprev Hf IHf _ _ IHon Hc Hwf n Hq.
    destruct (func_wf _ _ _ _ _ _ Hf Hc Hwf) as [Hwf1 He1].
    pose proof (ev_call _ _ He1).
    rewrite IHon, IHf; try done; try lia.
    + destruct Hq as [Ht|(Hlt & Hl & _)]; [by left|right].
      split_and!; [done|done|]. intros ->%list_elem_of_singleton.
      apply Hl. exists ty. apply elem_of_app. right.
      clear -Hprev. revert Hprev. generalize (onL_of s ty). intros l.
      induction l as [|x [|y l] IH]; simpl; [done| |].
      * destruct cur; [done|]. intros [= ->]. left.
      * case_decide; [intros [= ->]; left|]. intros ?. right. by apply IH.
    + by eapply quiet_evolves.
  - done.
  - intros c m ns ev s ev1 s1 ev' s' Hf IHf _ IHcur Hc Hwf n Hq.
    destruct (func_wf _ _ _ _ _ _ Hf Hc Hwf) as [Hwf1 He1].
    pose proof (ev_call _ _ He1).
    rewrite IHcur, IHf; try done; try lia.
    + destruct Hq as [Ht|(Hlt & Hl & Hin)]; [by left|right]. set_solver.
    + eapply quiet_evolves; [done| |done]. set_solver.
  - done.
  - intros c m ev s el s' Ha Ht Hel _ IHe _ Hc Hwf n Hq.
    assert (m < next_node s) as Hm by (by apply (wf_heap _ Hwf)).
    destruct (step_log_invoke c m (second el) ev s Hc Hm Hwf) as [Hwf1 He1].
    rewrite IHe; [|done|eapply quiet_evolves; [exact He1| |exact Hq]; set_solver].
    unfold fired. simpl.
    rewrite filter_app, filter_cons_False, filter_nil, app_nil_r; [done|].
    simpl. intros <-. destruct Hq as [Ht'|(_ & _ & Hin)]; [congruence|set_solver].
Qed.

(** *** The iterator step *)

Lemma prev_of_split l it m :
  prev_of l it = Some m → ∃ A C, l = A ++ m :: C ∧ it = head C.
Proof.
  induction l as [|x [|y l] IH]; simpl; [done| |].
  - destruct it; [done|]. intros [= ->]. by exists [], [].
  - case_decide as Hit.
    + intros [= ->]. by exists [], (y :: l).
    + intros (A & C & E & Hh)%IH. exists (x :: A), C. by rewrite E.
Qed.

Lemma prev_of_elem l it m : prev_of l it = Some m → m ∈ l.
Proof. intros (A & C & -> & _)%prev_of_split. set_solver. Qed.

Lemma prev_of_iter_elem l y m : prev_of l (Some y) = Some m → y ∈ l.
Proof.
  intros (A & C & -> & Hh)%prev_of_split.
  destruct C as [|z C]; [done|]. injection Hh as ->. set_solver.
Qed.

(** In a list without repetitions, the node before the head of [C]. *)
Lemma prev_of_app A m C :
  NoDup (A ++ m :: C) → prev_of (A ++ m :: C) (head C) = Some m.
Proof.
  induction A as [|x A IH]; intros Hnd.
  - destruct C as [|y C]; simpl; [done|]. by rewrite decide_True.
  - apply NoDup_cons in Hnd as [Hx Hnd]. specialize (IH Hnd).
    change ((x :: A) ++ m :: C) with (x :: (A ++ m :: C)).
    remember (A ++ m :: C) as l eqn:El. destruct l as [|y l].
    { by destruct A. }
    cbn [prev_of]. rewrite decide_False; [done|].
    intros Hh. destruct C as [|z C]; [done|]. injection Hh as ->.
    assert (y ∈ A ++ [m]) as Hy.
    { destruct A as [|a A]; simpl in El; injection El as -> _; set_solver. }
    pose proof Hnd as (_ & Hd & Hnd')%NoDup_app.
    apply elem_of_app in Hy as [Hy|Hy%list_elem_of_singleton].
    + apply (Hd y Hy). set_solver.
    + subst. apply NoDup_cons in Hnd' as [Hm _]. set_solver.
Qed.

(** The node before [end()] is the last one. *)
Lemma prev_of_end l (n : nat) : prev_of (l ++ [n]) None = Some n.
Proof.
  induction l as [|x l IH]; [done|].
  change ((x :: l) ++ [n]) with (x :: (l ++ [n])).
  destruct (l ++ [n]) as [|y l'] eqn:E; [by destruct l|].
  cbn [prev_of]. rewrite decide_False by done. exact IH.
Qed.

(** While a stretch of the list is still to be walked, the base of the
    reverse iterator is not the base of [rend()]. *)
Lemma rbase_ne_rend (A seg0 : list nat) m C :
  NoDup (A ++ (seg0 ++ [m]) ++ C) → head C ≠ head ((seg0 ++ [m]) ++ C).
Proof.
  intros Hnd Heq.
  assert (∃ x, head ((seg0 ++ [m]) ++ C) = Some x ∧ x ∈ seg0 ++ [m]) as (x & Hx & Hin).
  { destruct seg0 as [|y seg0]; simpl; eexists; (split; [done|]); set_solver. }
  rewrite Hx in Heq. destruct C as [|z C]; [done|]. injection Heq as ->.
  apply NoDup_app in Hnd as (_ & _ & Hnd).
  apply NoDup_app in Hnd as (_ & Hd & _). apply (Hd x Hin). left.
Qed.

(** *** What one invocation, and one loop, adds to the log *)

Lemma chain_app ev es1 ev1 es2 ev2 :
  chain ev es1 ev1 → chain ev1 es2 ev2 → chain ev (es1 ++ es2) ev2.
Proof.
  revert ev. induction es1 as [|e es1 IH]; simpl; intros ev.
  - by intros ->.
  - intros [-> H1] H2. split; [done|]. by apply IH.
Qed.

Lemma faithful_evolves s s' e : evolves s s' → faithful s e → faithful s' e.
Proof.
  intros He (el & Hel & Ht & Hl).
  destruct (listener_stable _ _ _ _ He Hel) as (el' & Hel' & E).
  exists el'. by rewrite E.
Qed.

(** [func] on a node adds no entry if the node is tombstoned and one
    entry for it otherwise; what the listener runs adds none for the
    call [c]. *)
Lemma func_spec c m ev s ev' s' :
  Func c m ev s ev' s' → c < next_call s → wf s →
  ∃ new, by_call c s' = by_call c s ++ new ∧ chain ev new ev' ∧
         Forall (faithful s') new ∧
         (new = [] ∧ tombstoned s m = true ∨
          ∃ e, new = [e] ∧ e_node e = m ∧ tombstoned s m = false).
Proof.
  intros Hf Hc Hwf. inversion Hf as [? ? ? ? Ha Ht|? ? ? ? el ? Ha Ht Hel Hex Ha']; subst.
  - exists []. rewrite app_nil_r. split_and!; [done|done|constructor|by left].
  - assert (m < next_node s) as Hm by (by apply (wf_heap _ Hwf)).
    destruct (step_log_invoke c m (second el) ev s Hc Hm Hwf) as [Hwf1 He1].
    destruct (exec_wf _ _ _ Hex Hwf1) as [Hwf2 He2].
    exists [MkEntry c m (tag (second el)) ev (act (second el) ev)].
    split_and!.
    + rewrite (proj1 run_fresh_call _ _ _ Hex Hwf1 c Hc).
      unfold by_call. simpl. rewrite filter_app. f_equal.
      by rewrite filter_cons_True.
    + done.
    + constructor; [|constructor].
      eapply faithful_evolves; [exact He2|]. by exists el.
    + right. eauto.
Qed.

(** The loop over [currentL] adds entries for nodes of [ns], in the
    order of [ns], and leaves out none that is not tombstoned at the end. *)
Lemma cur_spec c ns ev s ev' s' :
  ForEachCurrent c ns ev s ev' s' → c < next_call s → wf s →
  ∃ new, by_call c s' = by_call c s ++ new ∧ chain ev new ev' ∧
         Forall (faithful s') new ∧
         (e_node <$> new) `sublist_of` ns ∧
         (∀ n, n ∈ ns → tombstoned s' n = false → n ∈ (e_node <$> new)).
Proof.
  induction 1 as [c ev s|c m ns ev s ev1 s1 ev' s' Hf Hcur IH]; intros Hc Hwf.
  - exists []. rewrite app_nil_r. by split_and!.
  - destruct (func_wf _ _ _ _ _ _ Hf Hc Hwf) as [Hwf1 He1].
    assert (c < next_call s1) as Hc1 by (pose proof (ev_call _ _ He1); lia).
    destruct (cur_wf _ _ _ _ _ _ Hcur Hc1 Hwf1) as [Hwf2 He2].
    destruct (func_spec _ _ _ _ _ _ Hf Hc Hwf) as (new1 & E1 & Hch1 & Hfa1 & Hcase).
    destruct (IH Hc1 Hwf1) as (new2 & E2 & Hch2 & Hfa2 & Hsub & Hall).
    exists (new1 ++ new2). split_and!.
    + by rewrite E2, E1, app_assoc.
    + by eapply chain_app.
    + apply Forall_app. split; [|done].
      eapply Forall_impl; [exact Hfa1|]. intros e. by apply faithful_evolves.
    + rewrite fmap_app. destruct Hcase as [[-> _]|(e & -> & <- & _)]; simpl.
      * by apply sublist_cons.
      * by apply sublist_skip.
    + intros n [->|Hn]%elem_of_cons Ht; rewrite fmap_app, elem_of_app.
      * left. destruct Hcase as [[_ Ht']|(e & -> & <- & _)].
        -- assert (tombstoned s' m = true); [|congruence].
           eapply tombstoned_mono; [|exact Ht'].
           by eapply evolves_trans.
        -- left.
      * right. by apply Hall.
Qed.

Lemma func_allocated c m ev s ev' s' : Func c m ev s ev' s' → allocated s' m = true.
Proof. by inversion 1. Qed.

Lemma wf_onL_nodup s ty : wf s → NoDup (onL_of s ty).
Proof. intros Hwf. by pose proof (wf_nodup _ Hwf ty) as (_ & _ & ?)%NoDup_app. Qed.

Lemma wf_onL_alloc s ty n : wf s → n ∈ onL_of s ty → allocated s n = true.
Proof. intros Hwf Hn. apply (wf_alloc _ Hwf ty). apply elem_of_app. by right. Qed.

(** Once the node that ends the loop has left [onL], the loop cannot end. *)
Lemma on_doom c ty cur last ev s ev' s' l :
  ForEachOn c ty cur last ev s ev' s' → c < next_call s → wf s →
  last = Some l → l < next_node s → l ∉ onL_of s ty →
  (∀ y, cur = Some y → y ∈ onL_of s ty) → False.
Proof.
  induction 1 as [c ty cur ev s|c ty cur last ev s m ev1 s1 m' ev' s' Hne Hp Hf Hp' Hon IH];
    intros Hc Hwf -> Hl Hni Hcur.
  - apply Hni. by apply Hcur.
  - destruct (func_wf _ _ _ _ _ _ Hf Hc Hwf) as [Hwf1 He1].
    apply IH; try done.
    + pose proof (ev_call _ _ He1). lia.
    + pose proof (ev_node _ _ He1). lia.
    + destruct (ev_onL _ _ He1 ty) as (front & -> & F).
      rewrite elem_of_app, list_elem_of_filter. intros [Hin|[_ Hin]]; [|done].
      apply (proj1 (Forall_forall _ _) F) in Hin. lia.
    + intros y [= <-]. by eapply prev_of_elem.
Qed.

(** The loop over [onL], started with base [cur] and bound for [last]:
    [seg] is the stretch of the list it still has to walk. *)
Lemma on_spec c ty cur last ev s ev' s' :
  ForEachOn c ty cur last ev s ev' s' → c < next_call s → wf s →
  ∀ A seg C, onL_of s ty = A ++ seg ++ C → cur = head C → last = head (seg ++ C) →
  ∃ new, by_call c s' = by_call c s ++ new ∧ chain ev new ev' ∧
         Forall (faithful s') new ∧
         (e_node <$> new) `sublist_of` reverse seg ∧
         (∀ n, n ∈ seg → tombstoned s' n = false → n ∈ (e_node <$> new)).
Proof.
  induction 1 as [c ty cur ev s|c ty cur last ev s m ev1 s1 m' ev' s' Hne Hp Hf Hp' Hon IH];
    intros Hc Hwf A seg C EL Hcur Hlast.
  - assert (seg = []) as ->.
    { destruct seg as [|x seg]; [done|]. exfalso.
      rewrite Hcur in Hlast. simpl in Hlast.
      destruct C as [|z C]; [done|]. injection Hlast as ->.
      pose proof (wf_onL_nodup s ty Hwf) as Hnd. rewrite EL in Hnd.
      apply NoDup_app in Hnd as (_ & _ & Hnd).
      apply NoDup_app in Hnd as (_ & Hd & _). apply (Hd x); left. }
    exists []. rewrite app_nil_r. by split_and!.
  - destruct (func_wf _ _ _ _ _ _ Hf Hc Hwf) as [Hwf1 He1].
    assert (c < next_call s1) as Hc1 by (pose proof (ev_call _ _ He1); lia).
    destruct (on_wf _ _ _ _ _ _ _ _ Hon Hc1 Hwf1) as [Hwf2 He2].
    pose proof (wf_onL_nodup s ty Hwf) as Hnd.
    pose proof (wf_onL_nodup s1 ty Hwf1) as Hnd1.
    (* the node visited is the last one of [seg] *)
    destruct (decide (seg = [])) as [->|Hseg].
    { simpl in Hlast. congruence. }
    destruct (exists_last Hseg) as (seg0 & m0 & ->).
    assert (onL_of s ty = (A ++ seg0) ++ m0 :: C) as EL'.
    { rewrite EL, <- !app_assoc. done. }
    assert (m0 = m) as ->.
    { rewrite EL' in Hnd, Hp. rewrite Hcur, prev_of_app in Hp by done. congruence. }
    (* the list after the listener ran *)
    destruct (ev_onL _ _ He1 ty) as (front & EL1 & Hfront).
    rewrite EL', !filter_app, filter_cons_True in EL1
      by (by eapply func_allocated).
    set (al := λ n, allocated s1 n = true) in *.
    assert (head (filter al C) = cur) as HC1.
    { destruct cur as [y|].
      - symmetry in Hcur. apply head_filter_cons; [done|].
        apply (wf_onL_alloc s1 ty); [done|]. by eapply prev_of_iter_elem.
      - destruct C; [done|discriminate]. }
    assert (m' = m) as ->.
    { assert (onL_of s1 ty = (front ++ filter al A ++ filter al seg0) ++ m :: filter al C)
        as EL1' by (rewrite EL1, <- !app_assoc; done).
      rewrite EL1' in Hnd1, Hp'. rewrite <- HC1, prev_of_app in Hp' by done. congruence. }
    (* the node that ends the loop is still where it was *)
    assert (last = head (filter al seg0 ++ m :: filter al C)) as Hlast1.
    { destruct seg0 as [|l seg0]; [by rewrite Hlast|].
      simpl in Hlast. rewrite Hlast.
      destruct (allocated s1 l) eqn:Hal.
      - by rewrite filter_cons_True.
      - exfalso. eapply (on_doom _ _ _ _ _ _ _ _ l Hon); try done.
        + pose proof (ev_node _ _ He1).
          assert (l < next_node s); [|lia].
          eapply listed_lt; [done|]. apply (onL_listed s ty). rewrite EL. set_solver.
        + intros Hin. apply (wf_onL_alloc s1 ty) in Hin; [congruence|done].
        + intros y [= <-]. by eapply prev_of_elem. }
    destruct (IH Hc1 Hwf1 (front ++ filter al A) (filter al seg0) (m :: filter al C))
      as (new2 & E2 & Hch2 & Hfa2 & Hsub2 & Hall2).
    { rewrite EL1, <- !app_assoc. done. }
    { done. }
    { done. }
    destruct (func_spec _ _ _ _ _ _ Hf Hc Hwf) as (new1 & E1 & Hch1 & Hfa1 & Hcase).
    exists (new1 ++ new2). split_and!.
    + by rewrite E2, E1, app_assoc.
    + by eapply chain_app.
    + apply Forall_app. split; [|done].
      eapply Forall_impl; [exact Hfa1|]. intros e. by apply faithful_evolves.
    + rewrite fmap_app, reverse_app, reverse_singleton.
      assert ((e_node <$> new2) `sublist_of` reverse seg0) as Hsub2'.
      { etrans; [exact Hsub2|]. rewrite <- filter_reverse. apply sublist_filter. }
      destruct Hcase as [[-> _]|(e & -> & <- & _)]; simpl.
      * by apply sublist_cons.
      * by apply sublist_skip.
    + intros n [Hn| ->%list_elem_of_singleton]%elem_of_app Ht;
        rewrite fmap_app, elem_of_app.
      * right. apply Hall2; [|done]. apply list_elem_of_filter. split; [|done].
        unfold al. destruct (allocated s1 n) eqn:Hal; [done|].
        assert (tombstoned s' n = true); [|congruence].
        eapply tombstoned_mono; [exact He2|].
        eapply (ev_freed _ _ He1 ty); [|done]. rewrite EL. set_solver.
      * left. destruct Hcase as [[_ Ht']|(e & -> & <- & _)].
        -- assert (tombstoned s' m = true); [|congruence].
           eapply tombstoned_mono; [|exact Ht'].
           by eapply evolves_trans.
        -- left.
Qed.

Lemma by_call_fresh s c : wf s → next_call s ≤ c → by_call c s = [].
Proof.
  intros Hwf Hc. apply filter_none. intros e He.
  destruct (wf_log _ Hwf e He). lia.
Qed.


Lemma faithful_publish_end ty ns s e :
  faithful s e → faithful (free_all ns (remove_if ty s)) e.
Proof.
  intros (el & Hel & Ht & Hl). unfold faithful.
  rewrite heap_free_all, heap_remove_if, Hel.
  repeat case_decide; simpl; eauto.
Qed.

(** [publish]: what the call adds to the log. *)
Lemma publish_spec ty ev s s' :
  Publish ty ev s s' → wf s →
  ∃ new1 new2 ev1 ev2,
    by_call (next_call s) s' = new1 ++ new2 ∧
    chain ev new1 ev1 ∧ chain ev1 new2 ev2 ∧
    Forall (faithful s') (new1 ++ new2) ∧
    (e_node <$> new1) `sublist_of` reverse (onL_of s ty) ∧
    (e_node <$> new2) `sublist_of` reverse (onceL_of s ty) ∧
    (∀ n, n ∈ onL_of s ty → tombstoned s' n = false → n ∈ (e_node <$> new1)) ∧
    (∀ n, n ∈ onceL_of s ty → tombstoned s' n = false → n ∈ (e_node <$> new2)).
Proof.
  intros Hp Hwf.
  inversion Hp as [? ? ? ev1 s2 ev2 s3 Hon Hcur]; subst.
  destruct (publish_start ty s Hwf)
    as (Hwf1 & He1 & Hc0 & Hc1 & Hlog1 & _ & _ & HonL & _ & Honce).
  rewrite Hc0, Honce in *.
  set (s1 := swap_onceL ty (take_call (handler ty s))) in *.
  assert (next_call s < next_call s1) as Hc by lia.
  destruct (on_wf _ _ _ _ _ _ _ _ Hon Hc Hwf1) as [Hwf2 He2].
  assert (next_call s < next_call s2) as Hc2 by (pose proof (ev_call _ _ He2); lia).
  destruct (cur_wf _ _ _ _ _ _ Hcur Hc2 Hwf2) as [Hwf3 He3].
  destruct (on_spec _ _ _ _ _ _ _ _ Hon Hc Hwf1 [] (onL_of s ty) [])
    as (new1 & E1 & Hch1 & Hfa1 & Hsub1 & Hall1).
  { by rewrite app_nil_r, HonL. }
  { done. }
  { by rewrite app_nil_r, HonL. }
  destruct (cur_spec _ _ _ _ _ _ Hcur Hc2 Hwf2) as (new2 & E2 & Hch2 & Hfa2 & Hsub2 & Hall2).
  assert (by_call (next_call s) s1 = []) as E0.
  { unfold by_call. rewrite Hlog1. by apply by_call_fresh. }
  rewrite E0 in E1. simpl in E1.
  destruct (publish_end ty (onceL_of s ty) s3) as [Hlog5 Htomb5].
  exists new1, new2, ev1, ev2. split_and!; try done.
  - unfold by_call. rewrite Hlog5. fold (by_call (next_call s) s3). by rewrite E2, E1.
  - apply Forall_app. split.
    + eapply Forall_impl; [exact Hfa1|]. intros e He.
      apply faithful_publish_end. by eapply faithful_evolves.
    + eapply Forall_impl; [exact Hfa2|]. intros e. apply faithful_publish_end.
  - intros n Hn Ht. rewrite Htomb5 in Ht. apply Hall1; [done|].
    destruct (tombstoned s2 n) eqn:Ht2; [|done].
    by rewrite (tombstoned_mono _ _ _ He3 Ht2) in Ht.
  - intros n Hn Ht. rewrite Htomb5 in Ht. apply Hall2; [|done].
    by apply elem_of_reverse.
Qed.

(** *** One-shot nodes *)


Lemma fired_log_invoke c m f ev s n :
  fired n (log_invoke c m f ev s) =
    fired n s ++ (if decide (m = n) then [MkEntry c m (tag f) ev (act f ev)] else []).
Proof.
  unfold fired. simpl. rewrite filter_app.
  case_decide.
  - by rewrite filter_cons_True.
  - by rewrite filter_cons_False.
Qed.

(** A node of [currentL] is invoked at most once by the loop over it. *)
Lemma cur_once c ns ev s ev' s' n :
  ForEachCurrent c ns ev s ev' s' → c < next_call s → wf s →
  n < next_node s → ¬ listed s n → NoDup ns →
  length (fired n s') ≤ S (length (fired n s)).
Proof.
  induction 1 as [c ev s|c m ns ev s ev1 s1 ev' s' Hf Hcur IH];
    intros Hc Hwf Hn Hun Hnd; [lia|].
  apply NoDup_cons in Hnd as [Hm Hnd].
  destruct (func_wf _ _ _ _ _ _ Hf Hc Hwf) as [Hwf1 He1].
  assert (c < next_call s1) as Hc1 by (pose proof (ev_call _ _ He1); lia).
  assert (n < next_node s1) as Hn1 by (pose proof (ev_node _ _ He1); lia).
  assert (¬ listed s1 n) as Hun1 by (by eapply unlisted_stays).
  destruct (decide (m = n)) as [->|Hne].
  - rewrite (proj1 (proj2 (proj2 (proj2 run_quiet))) _ _ _ _ _ _ Hcur Hc1 Hwf1 n)
      by (right; done).
    inversion Hf as [? ? ? ? Ha Ht|? ? ? ? el ? Ha Ht Hel Hex Ha']; subst; [lia|].
    destruct (step_log_invoke c n (second el) ev s Hc Hn Hwf) as [Hwfl Hel'].
    rewrite (proj1 run_quiet _ _ _ Hex Hwfl n).
    + rewrite fired_log_invoke, decide_True, length_app by done. simpl. lia.
    + right. split_and!; [done| |set_solver]. by eapply unlisted_stays.
  - rewrite <- (proj2 (proj2 (proj2 (proj2 run_quiet))) _ _ _ _ _ _ Hf Hc Hwf n).
    + by apply IH.
    + right. split_and!; [done|done|set_solver].
Qed.

(** The loop over [currentL] invokes a node of the list for its own call
    only. *)
Lemma cur_own c ns ev s ev' s' n :
  ForEachCurrent c ns ev s ev' s' → c < next_call s → wf s →
  n < next_node s → ¬ listed s n → NoDup ns →
  ∀ e, e ∈ fired n s' → e ∈ fired n s ∨ e_call e = c.
Proof.
  induction 1 as [c ev s|c m ns ev s ev1 s1 ev' s' Hf Hcur IH];
    intros Hc Hwf Hn Hun Hnd e He; [by left|].
  apply NoDup_cons in Hnd as [Hm Hnd].
  destruct (func_wf _ _ _ _ _ _ Hf Hc Hwf) as [Hwf1 He1].
  assert (c < next_call s1) as Hc1 by (pose proof (ev_call _ _ He1); lia).
  assert (n < next_node s1) as Hn1 by (pose proof (ev_node _ _ He1); lia).
  assert (¬ listed s1 n) as Hun1 by (by eapply unlisted_stays).
  destruct (decide (m = n)) as [->|Hne].
  - rewrite (proj1 (proj2 (proj2 (proj2 run_quiet))) _ _ _ _ _ _ Hcur Hc1 Hwf1 n) in He
      by (right; done).
    inversion Hf as [? ? ? ? Ha Ht|? ? ? ? el ? Ha Ht Hel Hex Ha']; subst; [by left|].
    destruct (step_log_invoke c n (second el) ev s Hc Hn Hwf) as [Hwfl Hel'].
    rewrite (proj1 run_quiet _ _ _ Hex Hwfl n) in He.
    + rewrite fired_log_invoke, decide_True in He by done.
      apply elem_of_app in He as [?|He]; [by left|right].
      apply list_elem_of_singleton in He. by subst e.
    + right. split_and!; [done| |set_solver]. by eapply unlisted_stays.
  - apply (IH Hc1 Hwf1 Hn1 Hun1 Hnd) in He as [He|?]; [left|by right].
    by rewrite <- (proj2 (proj2 (proj2 (proj2 run_quiet))) _ _ _ _ _ _ Hf Hc Hwf n)
      by (right; split_and!; [done|done|set_solver]).
Qed.




(** *** Reachable states *)

Lemma wf_init : wf Emitter_init.
Proof.
  split.
  - intros ty. unfold nodes_of, onceL_of, onL_of, get_handler. simpl. constructor.
  - intros ty1 ty2 n Hn. by apply not_elem_of_nil in Hn.
  - intros ty n Hn. by apply not_elem_of_nil in Hn.
  - intros n [el Hn]. simpl in Hn. by rewrite lookup_empty in Hn.
  - intros e He. by apply not_elem_of_nil in He.
Qed.

(** What a script makes of a new emitter is well-formed. *)
Lemma wf_reachable fuel cmds s : exec fuel cmds Emitter_init = Done s → wf s.
Proof.
  intros H%run_sound. by apply (exec_wf _ _ _ H wf_init).
Qed.

(** *** [empty] *)

Lemma Handler_empty_spec s h :
  Handler_empty s h = true ↔ ∀ n, n ∈ onceL h ++ onL h → tombstoned s n = true.
Proof.
  unfold Handler_empty. rewrite andb_true_iff, !forallb_elem_of.
  setoid_rewrite elem_of_app. naive_solver.
Qed.

Lemma get_handler_None s ty :
  get_handler s ty = None ↔
  length (handlers s) ≤ ty ∨ handlers s !! ty = Some None.
Proof.
  unfold get_handler. destruct (handlers s !! ty) as [[h|]|] eqn:E.
  - split; [done|]. intros [Hl|?]; [|done].
    apply lookup_lt_Some in E. lia.
  - split; auto.
  - split; [|done]. intros _. left. by apply lookup_ge_None.
Qed.

Lemma Emitter_empty_ty_spec ty s :
  Emitter_empty_ty ty s = true ↔
  get_handler s ty = None ∨
  ∃ h, get_handler s ty = Some h ∧ ∀ n, n ∈ onceL h ++ onL h → tombstoned s n = true.
Proof.
  unfold Emitter_empty_ty, get_handler.
  destruct (handlers s !! ty) as [[h|]|] eqn:E.
  - rewrite orb_true_iff, Handler_empty_spec, negb_true_iff, bool_decide_eq_false.
    apply lookup_lt_Some in E. split.
    + intros [?|?]; [lia|]. right. eauto.
    + intros [?|(h' & [= <-] & ?)]; [done|]. by right.
  - rewrite orb_true_r. split; auto.
  - rewrite orb_true_r. split; auto.
Qed.

(** *** [handler] *)

Lemma length_vec_resize n hs : length (vec_resize n hs) = n.
Proof. unfold vec_resize. rewrite length_app, length_take, length_replicate. lia. Qed.

Lemma handler_grows ty s :
  length (handlers s) ≤ ty →
  length (handlers (handler ty s)) = ty + 1 ∧
  (∀ i, i < length (handlers s) → handlers (handler ty s) !! i = handlers s !! i) ∧
  (∀ i, length (handlers s) ≤ i < ty → handlers (handler ty s) !! i = Some None) ∧
  handlers (handler ty s) !! ty = Some (Some (MkHandler (next_hid s) [] [])).
Proof.
  intros Hlen. unfold handler. rewrite decide_False by lia.
  rewrite vec_resize_lookup by lia.
  rewrite decide_False by lia. rewrite decide_True by lia. simpl.
  split_and!.
  - by rewrite length_insert, length_vec_resize.
  - intros i Hi. rewrite list_lookup_insert_ne by lia.
    rewrite vec_resize_lookup by lia. by rewrite decide_True.
  - intros i Hi. rewrite list_lookup_insert_ne by lia.
    rewrite vec_resize_lookup by lia.
    rewrite decide_False by lia. by rewrite decide_True by lia.
  - apply list_lookup_insert_eq. rewrite length_vec_resize. lia.
Qed.

Lemma handler_keeps_length ty s :
  ty < length (handlers s) → length (handlers (handler ty s)) = length (handlers s).
Proof.
  intros Hlen. unfold handler. rewrite decide_True by done.
  repeat case_match; simpl; by rewrite ?length_insert.
Qed.

Lemma handler_existing ty s h : get_handler s ty = Some h → handler ty s = s.
Proof.
  unfold get_handler, handler. intros Hh.
  destruct (handlers s !! ty) as [[h'|]|] eqn:E; try done.
  rewrite decide_True by (by eapply lookup_lt_Some). rewrite E. by destruct s.
Qed.

(** *** [clear], [clearAll] *)

Lemma tombstoned_clear ty s n :
  wf s → n ∈ nodes_of s ty → tombstoned (Emitter_clear ty s) n = true.
Proof.
  intros Hwf Hn. rewrite clear_eq. unfold tombstoned. simpl.
  pose proof (wf_alloc _ Hwf ty n Hn) as [el Hel]%allocated_is_Some.
  destruct (handler_fields ty s) as (_ & _).
  rewrite !lookup_tombstone_all, Hel.
  apply elem_of_app in Hn as [Hn|Hn].
  - rewrite (decide_True (P:= n ∈ onceL_of s ty)) by done. by case_decide.
  - rewrite (decide_True (P:= n ∈ onL_of s ty)) by done. by case_decide.
Qed.

Lemma lookup_clearAll hs (hp : gmap nat Element) n h :
  Some h ∈ hs → n ∈ onceL h ++ onL h →
  foldl (λ hp oh, match oh with Some h => Handler_clear h hp | None => hp end) hp hs !! n
  = set_first <$> hp !! n.
Proof.
  revert hp. induction hs as [|oh hs IH]; intros hp Hh Hn.
  - by apply not_elem_of_nil in Hh.
  - simpl. apply elem_of_cons in Hh as [<-|Hh].
    + destruct (marked_clearAll hs (Handler_clear h hp) n) as [-> | ->].
      * unfold Handler_clear. rewrite !lookup_tombstone_all.
        apply elem_of_app in Hn as [Hn|Hn].
        -- rewrite (decide_True (P:= n ∈ onceL h)) by done.
           case_decide; [|done]. by destruct (hp !! n).
        -- by rewrite (decide_True (P:= n ∈ onL h)) by done; case_decide;
             destruct (hp !! n).
      * unfold Handler_clear. rewrite !lookup_tombstone_all.
        repeat case_decide; by destruct (hp !! n).
    + rewrite IH by done. destruct oh as [h'|]; [|done].
      unfold Handler_clear. rewrite !lookup_tombstone_all.
      repeat case_decide; by destruct (hp !! n).
Qed.

Lemma get_handler_elem s ty h : get_handler s ty = Some h → Some h ∈ handlers s.
Proof.
  unfold get_handler. destruct (handlers s !! ty) as [[h'|]|] eqn:E; try done.
  intros [= <-]. by eapply list_elem_of_lookup_2.
Qed.

Lemma tombstoned_clearAll ty s n :
  wf s → n ∈ nodes_of s ty → tombstoned (Emitter_clearAll s) n = true.
Proof.
  intros Hwf Hn.
  pose proof (wf_alloc _ Hwf ty n Hn) as [el Hel]%allocated_is_Some.
  unfold nodes_of, onceL_of, onL_of in Hn.
  destruct (get_handler s ty) as [h|] eqn:Hh; [|by apply not_elem_of_nil in Hn].
  unfold tombstoned, Emitter_clearAll. simpl.
  rewrite (lookup_clearAll _ _ n h); [by rewrite Hel| |done].
  by eapply get_handler_elem.
Qed.


(** [clearAll()] leaves a node alone that no handler has in its lists. *)
Lemma lookup_clearAll_other hs (hp : gmap nat Element) n :
  (∀ h, Some h ∈ hs → n ∉ onceL h ++ onL h) →
  foldl (λ hp oh, match oh with Some h => Handler_clear h hp | None => hp end) hp hs !! n
  = hp !! n.
Proof.
  revert hp. induction hs as [|oh hs IH]; intros hp Hn; [done|].
  simpl. rewrite IH by (intros h Hh; apply Hn; by right).
  destruct oh as [h|]; [|done].
  specialize (Hn h (list_elem_of_here _ _)). rewrite elem_of_app in Hn.
  unfold Handler_clear. rewrite !lookup_tombstone_all.
  repeat case_decide; tauto.
Qed.

Lemma listed_handler s n :
  listed s n ↔ ∃ h, Some h ∈ handlers s ∧ n ∈ onceL h ++ onL h.
Proof.
  split.
  - intros [ty Hn]. unfold nodes_of, onceL_of, onL_of in Hn.
    destruct (get_handler s ty) as [h|] eqn:Hh; [|by apply not_elem_of_nil in Hn].
    exists h. split; [by eapply get_handler_elem|done].
  - intros (h & Hh & Hn). apply list_elem_of_lookup in Hh as [ty Hty].
    exists ty. unfold nodes_of, onceL_of, onL_of, get_handler. by rewrite Hty.
Qed.

Lemma listed_dec s n : listed s n ∨ ¬ listed s n.
Proof.
  rewrite listed_handler.
  induction (handlers s) as [|oh hs IH].
  - right. intros (h & Hh & _). by apply not_elem_of_nil in Hh.
  - destruct IH as [(h & Hh & Hn)|IH]; [left; exists h; split; [by right|done]|].
    destruct oh as [h|].
    + destruct (decide (n ∈ onceL h ++ onL h)); [left; exists h; split; [left|done]|].
      right. intros (h' & [[= ->]|Hh]%elem_of_cons & Hn); [done|]. apply IH; eauto.
    + right. intros (h' & [?|Hh]%elem_of_cons & Hn); [done|]. apply IH; eauto.
Qed.





(** *** Unfolding one step of the functions *)

Lemma publish_unfold k ty ev s :
  publish (S k) ty ev s =
    obind (for_each_on k (next_call (handler ty s)) ty None
             (begin_of (onL_of (swap_onceL ty (take_call (handler ty s))) ty)) ev
             (swap_onceL ty (take_call (handler ty s))))
      (λ r1, obind (for_each_current k (next_call (handler ty s))
                      (reverse (onceL_of (handler ty s) ty)) r1.1 r1.2)
        (λ r2, Done (free_all (onceL_of (handler ty s) ty) (remove_if ty r2.2)))).
Proof.
  cbn [publish]. destruct (for_each_on _ _ _ _ _ _ _) as [[ev1 s2]| |]; [|done..].
  cbn [obind fst snd]. by destruct (for_each_current _ _ _ _ _) as [[ev2 s3]| |].
Qed.

Lemma for_each_on_stop k c ty cur ev s :
  for_each_on (S k) c ty cur cur ev s = Done (ev, s).
Proof. cbn [for_each_on]. by rewrite decide_True. Qed.

Lemma for_each_current_nil k c ev s :
  for_each_current (S k) c [] ev s = Done (ev, s).
Proof. done. Qed.

(** *** An event type without listeners *)

Lemma Emitter_empty_spec s :
  Emitter_empty s = true ↔ ∀ ty n, n ∈ nodes_of s ty → tombstoned s n = true.
Proof.
  unfold Emitter_empty. rewrite forallb_elem_of. split.
  - intros H ty n Hn. unfold nodes_of, onceL_of, onL_of in Hn.
    destruct (get_handler s ty) as [h|] eqn:Hh; [|by apply not_elem_of_nil in Hn].
    specialize (H (Some h) (get_handler_elem _ _ _ Hh)). simpl in H.
    by apply (proj1 (Handler_empty_spec s h) H).
  - intros H [h|] Hh; [|done]. apply Handler_empty_spec. intros n Hn.
    apply list_elem_of_lookup in Hh as [ty Hty]. apply (H ty).
    unfold nodes_of, onceL_of, onL_of, get_handler. by rewrite Hty.
Qed.

Lemma Emitter_empty_ty_nodes ty s :
  Emitter_empty_ty ty s = true ↔ ∀ n, n ∈ nodes_of s ty → tombstoned s n = true.
Proof.
  rewrite Emitter_empty_ty_spec. unfold nodes_of, onceL_of, onL_of.
  destruct (get_handler s ty) as [h|]; simpl.
  - split; [|eauto]. intros [?|(h' & [= <-] & H)]; done.
  - split; [|auto]. intros _ n Hn. by apply not_elem_of_nil in Hn.
Qed.

(** *** Registration and emptiness *)

(** A node registered at a new address makes its event type non-empty;
    erasing it brings [empty] back to what it was. *)
Lemma register_erase_empty s s1 ty n f :
  wf s → n = next_node s →
  heap s1 = <[n := MkElement false f false]> (heap s) →
  (∀ ty' m, m ∈ nodes_of s1 ty' ↔ (ty' = ty ∧ m = n) ∨ m ∈ nodes_of s ty') →
  Emitter_empty_ty ty s1 = false ∧ Emitter_empty s1 = false ∧
  ∃ s2, Emitter_erase ty n s1 = Done s2 ∧
        (∀ ty', Emitter_empty_ty ty' s2 = Emitter_empty_ty ty' s) ∧
        Emitter_empty s2 = Emitter_empty s.
Proof.
  intros Hwf -> Hheap Hnodes. set (n := next_node s) in *.
  assert (tombstoned s1 n = false) as Ht1.
  { unfold tombstoned. by rewrite Hheap, lookup_insert_eq. }
  assert (n ∈ nodes_of s1 ty) as Hn by (apply Hnodes; by left).
  assert (∀ ty' m, m ∈ nodes_of s ty' → m ≠ n) as Hold.
  { intros ty' m Hm. assert (m < n); [|lia]. apply listed_lt; [done|]. by exists ty'. }
  split_and!.
  - destruct (Emitter_empty_ty ty s1) eqn:E; [|done].
    rewrite Emitter_empty_ty_nodes in E. by rewrite (E n Hn) in Ht1.
  - destruct (Emitter_empty s1) eqn:E; [|done].
    rewrite Emitter_empty_spec in E. by rewrite (E ty n Hn) in Ht1.
  - assert (allocated s1 n = true) as Ha.
    { unfold allocated. by rewrite Hheap, lookup_insert_eq. }
    unfold Emitter_erase, Handler_erase.
    rewrite (marked_allocated s1)
      by (destruct (handler_fields ty s1) as (-> & _); apply marked_refl).
    rewrite Ha. eexists. split; [done|].
    set (s2 := set_heap _ _).
    assert (∀ ty', nodes_of s2 ty' = nodes_of s1 ty') as Hn2.
    { intros ty'. unfold nodes_of, s2.
      by rewrite onL_of_set_heap, onceL_of_set_heap, onL_of_handler, onceL_of_handler. }
    assert (tombstoned s2 n = true) as Ht2.
    { unfold tombstoned, s2. simpl. destruct (handler_fields ty s1) as (-> & _).
      by rewrite lookup_alter_eq, Hheap, lookup_insert_eq. }
    assert (∀ m, m ≠ n → tombstoned s2 m = tombstoned s m) as Ht2'.
    { intros m Hm. unfold tombstoned, s2. simpl.
      destruct (handler_fields ty s1) as (-> & _).
      by rewrite lookup_alter_ne, Hheap, lookup_insert_ne. }
    assert (∀ ty', (∀ m, m ∈ nodes_of s2 ty' → tombstoned s2 m = true) ↔
                   (∀ m, m ∈ nodes_of s ty' → tombstoned s m = true)) as Hiff.
    { intros ty'. split; intros H m Hm.
      - rewrite <- Ht2' by (by eapply Hold). apply H. rewrite Hn2. apply Hnodes. by right.
      - rewrite Hn2 in Hm. apply Hnodes in Hm as [[_ ->]|Hm]; [done|].
        rewrite Ht2' by (by eapply Hold). by apply H. }
    split.
    + intros ty'. apply eq_true_iff_eq. rewrite !Emitter_empty_ty_nodes. apply Hiff.
    + apply eq_true_iff_eq. rewrite !Emitter_empty_spec.
      split; intros H ty'; apply Hiff, H.
Qed.

(** [publish] for an event type without listeners returns and changes
    neither log, nor store, nor lists. *)
Lemma publish_no_listeners k ty ev s :
  onL_of s ty = [] → onceL_of s ty = [] →
  ∃ s', publish (S (S k)) ty ev s = Done s' ∧
        log s' = log s ∧ heap s' = heap s ∧ next_node s' = next_node s ∧
        (∀ ty', onL_of s' ty' = onL_of s ty') ∧
        (∀ ty', onceL_of s' ty' = onceL_of s ty') ∧
        is_Some (get_handler s' ty).
Proof.
  intros HonL HonceL. eexists. rewrite publish_unfold.
  rewrite onL_of_swap. change (onL_of (take_call ?s) ty) with (onL_of s ty).
  rewrite onL_of_handler, onceL_of_handler, HonL, HonceL.
  cbn [begin_of head reverse]. rewrite for_each_on_stop. cbn [obind fst snd].
  change (reverse []) with (@nil nat). rewrite for_each_current_nil. cbn [obind snd].
  split; [done|].
  destruct (handler_fields ty s) as (Hheap & Hnode & Hcall & Hlog).
  assert (∀ ty', onL_of (swap_onceL ty (take_call (handler ty s))) ty' = onL_of s ty') as E1.
  { intros ty'. rewrite onL_of_swap. apply (onL_of_handler ty s ty'). }
  split_and!.
  - done.
  - apply map_eq. intros n. rewrite heap_free_all, heap_remove_if. simpl.
    rewrite E1, HonL.
    destruct (decide (n ∈ [])) as [Hin|_]; [by apply not_elem_of_nil in Hin|].
    destruct (decide (n ∈ [] ∧ _)) as [[Hin _]|_]; [by apply not_elem_of_nil in Hin|].
    simpl. by rewrite Hheap.
  - done.
  - intros ty'. unfold free_all. rewrite onL_of_set_heap, onL_of_remove_if, E1.
    case_decide; [|done]. subst. by rewrite HonL.
  - intros ty'. unfold free_all. rewrite onceL_of_set_heap, onceL_of_remove_if.
    rewrite onceL_of_swap. case_decide.
    + subst. by rewrite HonceL.
    + apply (onceL_of_handler ty s ty').
  - destruct (get_handler_handler_is_Some ty s) as [h Hh].
    destruct (get_handler_upd_mono ty (set_onceL []) (take_call (handler ty s)) ty h)
      as (h1 & H1 & _); [done|exact Hh|].
    destruct (get_handler_remove_if_mono ty _ ty h1 H1) as (h2 & H2 & _).
    exists h2. exact H2.
Qed.

(** The invocations made by a [publish] call are of nodes that existed
    when the call started. *)
Lemma publish_old_nodes ty ev s s' e :
  Publish ty ev s s' → wf s → e ∈ by_call (next_call s) s' → e_node e < next_node s.
Proof.
  intros Hp Hwf He.
  destruct (publish_spec _ _ _ _ Hp Hwf)
    as (new1 & new2 & ev1 & ev2 & E & _ & _ & _ & Hs1 & Hs2 & _).
  rewrite E in He. apply (list_elem_of_fmap_2 e_node) in He.
  rewrite fmap_app, elem_of_app in He.
  destruct He as [He|He].
  - eapply elem_of_sublist in He; [|exact Hs1]. rewrite elem_of_reverse in He.
    eapply listed_lt; [done|]. by eapply onL_listed.
  - eapply elem_of_sublist in He; [|exact Hs2]. rewrite elem_of_reverse in He.
    eapply listed_lt; [done|]. by eapply onceL_listed.
Qed.

(** *** Fuel *)

(** More fuel does not change the result of a run that returned. *)
Lemma run_fuel_mono k :
  (∀ k' cmds s s', exec k cmds s = Done s' → k ≤ k' → exec k' cmds s = Done s') ∧
  (∀ k' ty ev s s', publish k ty ev s = Done s' → k ≤ k' → publish k' ty ev s = Done s') ∧
  (∀ k' c ty cur last ev s r,
     for_each_on k c ty cur last ev s = Done r → k ≤ k' →
     for_each_on k' c ty cur last ev s = Done r) ∧
  (∀ k' c ns ev s r,
     for_each_current k c ns ev s = Done r → k ≤ k' →
     for_each_current k' c ns ev s = Done r) ∧
  (∀ k' c n ev s r,
     func k c n ev s = Done r → k ≤ k' → func k' c n ev s = Done r).
Proof.
  induction k as [|k (IHe & IHp & IHo & IHc & IHf)];
    [by split_and!; intros; discriminate|].
  split_and!.
  - intros [|k'] cmds s s' H Hk; [lia|]. cbn [exec] in *.
    destruct cmds as [|c rest]; [done|].
    destruct c; apply obind_Done in H as (s1 & H1 & H2);
      try (rewrite H1; cbn [obind]; apply IHe; [done|lia]).
    rewrite (IHp k' _ _ _ _ H1) by lia. cbn [obind]. apply IHe; [done|lia].
  - intros [|k'] ty ev s s' H Hk; [lia|]. rewrite publish_unfold in *.
    apply obind_Done in H as (r1 & H1 & H).
    apply obind_Done in H as (r2 & H2 & H).
    rewrite (IHo k' _ _ _ _ _ _ _ H1) by lia. cbn [obind].
    rewrite (IHc k' _ _ _ _ _ H2) by lia. done.
  - intros [|k'] c ty cur last ev s r H Hk; [lia|]. cbn [for_each_on] in *.
    destruct (decide (cur = last)); [done|].
    destruct (prev_of (onL_of s ty) cur) as [m|]; [|done].
    apply obind_Done in H as ([ev1 s1] & H1 & H).
    rewrite (IHf k' _ _ _ _ _ H1) by lia. cbn [obind].
    destruct (prev_of (onL_of s1 ty) cur) as [m1|]; [|done].
    apply IHo; [done|lia].
  - intros [|k'] c ns ev s r H Hk; [lia|]. cbn [for_each_current] in *.
    destruct ns as [|n ns]; [done|].
    apply obind_Done in H as ([ev1 s1] & H1 & H).
    rewrite (IHf k' _ _ _ _ _ H1) by lia. cbn [obind]. apply IHc; [done|lia].
  - intros [|k'] c n ev s r H Hk; [lia|]. cbn [func] in *.
    destruct (allocated s n); [|done]. destruct (tombstoned s n); [done|].
    destruct (heap s !! n) as [el|]; [|done].
    apply obind_Done in H as (s1 & H1 & H).
    rewrite (IHe k' _ _ _ H1) by lia. done.
Qed.

(** *** The dispatch, stopped after a listener *)

(** A place in a list without repetitions is the only one. *)
Lemma NoDup_split_inj (l1 l2 k1 k2 : list nat) x :
  NoDup (l1 ++ x :: l2) → l1 ++ x :: l2 = k1 ++ x :: k2 → l1 = k1 ∧ l2 = k2.
Proof.
  revert k1. induction l1 as [|a l1 IH]; intros k1 Hnd E.
  - destruct k1 as [|b k1]; simpl in *; [by injection E as ->|].
    injection E as <- ->. apply NoDup_cons in Hnd as [Hx _]. set_solver.
  - destruct k1 as [|b k1]; simpl in *.
    + injection E as -> <-. apply NoDup_cons in Hnd as [Hx _]. set_solver.
    + injection E as -> E. apply NoDup_cons in Hnd as [_ Hnd].
      destruct (IH k1 Hnd E) as [-> ->]. done.
Qed.

(** Two runs of the loop over [onL] from the same state, bound for
    different ends: the one that ends first is the start of the other. *)
Lemma on_split k1 : ∀ k c ty cur x last ev s r0 r,
  for_each_on k1 c ty cur x ev s = Done r0 →
  for_each_on k c ty cur last ev s = Done r →
  (∃ k', for_each_on k' c ty x last r0.1 r0.2 = Done r) ∨
  (∃ k', for_each_on k' c ty last x r.1 r.2 = Done r0).
Proof.
  induction k1 as [|k1 IH]; intros k c ty cur x last ev s r0 r H1 H2; [done|].
  destruct k as [|k]; [done|].
  pose proof H1 as H1'. pose proof H2 as H2'. cbn [for_each_on] in H1, H2.
  destruct (decide (cur = x)) as [->|Hx].
  { apply Done_inj in H1 as <-. left. by exists (S k). }
  destruct (decide (cur = last)) as [->|Hl].
  { apply Done_inj in H2 as <-. right. by exists (S k1). }
  destruct (prev_of (onL_of s ty) cur) as [n|]; [|done].
  apply obind_Done in H1 as ([e1 s1] & Hf1 & H1).
  apply obind_Done in H2 as ([e2 s2] & Hf2 & H2).
  pose proof (proj2 (proj2 (proj2 (proj2 (run_fuel_mono k1)))) (k1 `max` k) _ _ _ _ _ Hf1
                ltac:(lia)) as E1.
  pose proof (proj2 (proj2 (proj2 (proj2 (run_fuel_mono k)))) (k1 `max` k) _ _ _ _ _ Hf2
                ltac:(lia)) as E2.
  rewrite E1 in E2. injection E2 as <- <-.
  destruct (prev_of (onL_of s1 ty) cur) as [n'|]; [|done].
  apply (IH _ _ _ _ _ _ _ _ _ _ H1 H2).
Qed.

(** A loop over [onL] that starts with every older node behind its base
    does not end at an older node. *)
Lemma on_front_doom c ty cur last ev s ev' s' :
  ForEachOn c ty cur last ev s ev' s' → c < next_call s → wf s →
  ∀ N F y R m, N ≤ next_node s → cur = Some y → onL_of s ty = F ++ y :: R →
    Forall (λ x, N ≤ x) F → last = Some m → m < N → m ≠ y → False.
Proof.
  induction 1 as [c ty cur ev s|c ty cur last ev s n ev1 s1 n' ev' s' Hne Hp Hf Hp' Hon IH];
    intros Hc Hwf N F y R m HN Hcur EL HF Hlast Hm Hmy.
  - congruence.
  - subst cur last.
    destruct (func_wf _ _ _ _ _ _ Hf Hc Hwf) as [Hwf1 He1].
    apply prev_of_split in Hp' as (A1 & C1 & EL1 & Hh1).
    destruct C1 as [|y' C1]; [done|]. injection Hh1 as <-.
    destruct (ev_onL _ _ He1 ty) as (front & EL1' & Hfront).
    assert (allocated s1 y = true) as Hay.
    { apply (wf_onL_alloc s1 ty); [done|]. rewrite EL1. set_solver. }
    rewrite EL, filter_app, filter_cons_True in EL1' by done.
    assert (A1 ++ [n'] = front ++ filter (λ x, allocated s1 x = true) F) as EA.
    { pose proof (wf_onL_nodup s1 ty Hwf1) as Hnd.
      rewrite EL1' in EL1. rewrite EL1' in Hnd.
      rewrite (app_assoc front) in EL1, Hnd.
      change (A1 ++ n' :: y :: C1) with (A1 ++ [n'] ++ y :: C1) in EL1.
      rewrite (app_assoc A1) in EL1.
      symmetry. by apply (NoDup_split_inj _ _ _ _ _ Hnd EL1). }
    assert (Forall (λ x, N ≤ x) (A1 ++ [n'])) as HF1.
    { rewrite EA. apply Forall_app. split.
      - eapply Forall_impl; [exact Hfront|]. simpl. lia.
      - apply Forall_forall. intros z [_ Hz]%list_elem_of_filter.
        by apply (proj1 (Forall_forall _ _) HF). }
    apply Forall_app in HF1 as [HF1 Hn']. rewrite Forall_singleton in Hn'.
    apply (IH ltac:(pose proof (ev_call _ _ He1); lia) Hwf1 N A1 n' (y :: C1) m);
      try done.
    + pose proof (ev_node _ _ He1). lia.
    + lia.
Qed.

(** *** Listeners that make no calls *)

Lemma logged_refl s : logged s s.
Proof. done. Qed.

Lemma logged_trans s1 s2 s3 : logged s1 s2 → logged s2 s3 → logged s1 s3.
Proof. unfold logged. intros (-> & -> & -> & -> & ->) (-> & -> & -> & -> & ->). done. Qed.

Lemma logged_onL s s' ty : logged s s' → onL_of s' ty = onL_of s ty.
Proof. intros (H & _). unfold onL_of, get_handler. by rewrite H. Qed.

Lemma logged_onceL s s' ty : logged s s' → onceL_of s' ty = onceL_of s ty.
Proof. intros (H & _). unfold onceL_of, get_handler. by rewrite H. Qed.

Lemma logged_allocated s s' n : logged s s' → allocated s' n = allocated s n.
Proof. intros (_ & H & _). unfold allocated. by rewrite H. Qed.

Lemma logged_tombstoned s s' n : logged s s' → tombstoned s' n = tombstoned s n.
Proof. intros (_ & H & _). unfold tombstoned. by rewrite H. Qed.

Lemma logged_passive s s' n : logged s s' → passive_node s n → passive_node s' n.
Proof. intros (_ & H & _) Hp el. rewrite H. apply Hp. Qed.

Lemma func_passive k c n ev s :
  allocated s n = true → passive_node s n →
  ∃ r, func (S (S k)) c n ev s = Done r ∧ logged s r.2.
Proof.
  intros Ha Hp. cbn [func]. rewrite Ha.
  destruct (tombstoned s n); [by eexists|].
  destruct (allocated_is_Some _ _ Ha) as [el Hel]. rewrite Hel, (Hp el Hel).
  cbn [exec obind].
  change (allocated (log_invoke c n (second el) ev s) n) with (allocated s n).
  rewrite Ha. by eexists.
Qed.

(** The loop over [onL], on listeners that make no calls, returns. *)
Lemma on_passive c ty seg : ∀ A C k cur last ev s,
  onL_of s ty = A ++ seg ++ C → NoDup (onL_of s ty) →
  cur = head C → last = head (seg ++ C) →
  (∀ n, n ∈ seg → allocated s n = true ∧ passive_node s n) →
  length seg + 2 ≤ k →
  ∃ r, for_each_on k c ty cur last ev s = Done r ∧ logged s r.2.
Proof.
  induction seg as [|m seg0 IH] using rev_ind; intros A C k cur last ev s EL Hnd Hcur Hlast Hseg Hk.
  - simpl in Hlast. subst. destruct k as [|k]; [simpl in Hk; lia|].
    rewrite for_each_on_stop. by eexists.
  - rewrite length_app in Hk. simpl in Hk. destruct k as [|k]; [lia|].
    cbn [for_each_on].
    assert (onL_of s ty = (A ++ seg0) ++ m :: C) as EL'.
    { rewrite EL, <- !app_assoc. done. }
    assert (cur ≠ last) as Hne.
    { rewrite Hcur, Hlast. apply (rbase_ne_rend A). by rewrite <- EL. }
    rewrite decide_False by done.
    pose proof Hnd as Hnd'. rewrite EL' in Hnd'.
    rewrite EL', Hcur, (prev_of_app _ _ _ Hnd').
    destruct (Hseg m) as [Ha Hp]; [set_solver|].
    destruct k as [|[|k]]; [lia|lia|].
    destruct (func_passive k c m ev s Ha Hp) as ([ev1 s1] & Hf & Hl).
    rewrite Hf. cbn [obind]. simpl in Hl.
    rewrite (logged_onL s s1 ty Hl), EL', (prev_of_app _ _ _ Hnd').
    destruct (IH A (m :: C) (S (S k)) (Some m) last ev1 s1) as (r & Hr & Hl').
    + rewrite (logged_onL s s1 ty Hl), EL, <- !app_assoc. done.
    + by rewrite (logged_onL s s1 ty Hl).
    + done.
    + rewrite Hlast, <- !app_assoc. done.
    + intros n Hn. destruct (Hseg n) as [? ?]; [set_solver|].
      split; [by rewrite (logged_allocated s s1)|by eapply logged_passive].
    + lia.
    + exists r. split; [done|]. by eapply logged_trans.
Qed.

Lemma cur_passive c ns : ∀ k ev s,
  (∀ n, n ∈ ns → allocated s n = true ∧ passive_node s n) →
  length ns + 2 ≤ k →
  ∃ r, for_each_current k c ns ev s = Done r ∧ logged s r.2.
Proof.
  induction ns as [|m ns IH]; intros k ev s Hns Hk.
  - destruct k as [|k]; [simpl in Hk; lia|]. by eexists.
  - simpl in Hk. destruct k as [|[|[|k]]]; [lia|lia|lia|]. cbn [for_each_current].
    destruct (Hns m) as [Ha Hp]; [left|].
    destruct (func_passive k c m ev s Ha Hp) as ([ev1 s1] & Hf & Hl).
    rewrite Hf. cbn [obind]. simpl in Hl.
    destruct (IH (S (S k)) ev1 s1) as (r & Hr & Hl').
    + intros n Hn. destruct (Hns n) as [? ?]; [by right|].
      split; [by rewrite (logged_allocated s s1)|by eapply logged_passive].
    + lia.
    + exists r. split; [done|]. by eapply logged_trans.
Qed.

(** With listeners that make no calls, [publish] returns: the two loops
    change nothing but the log. *)
Lemma publish_passive_run k ty ev s :
  wf s → (∀ n, n ∈ nodes_of s ty → passive_node s n) →
  length (nodes_of s ty) + 3 ≤ k →
  ∃ s3, publish k ty ev s = Done (free_all (onceL_of s ty) (remove_if ty s3)) ∧
        logged (swap_onceL ty (take_call (handler ty s))) s3.
Proof.
  intros Hwf Hpas Hk. destruct k as [|k]; [lia|]. rewrite publish_unfold.
  destruct (publish_start ty s Hwf)
    as (Hwf1 & He1 & Hc0 & Hc1 & Hlog1 & Hnode1 & Hheap1 & HonL & HonceL & Honce).
  set (s1 := swap_onceL ty (take_call (handler ty s))) in *.
  assert (∀ n, allocated s1 n = allocated s n) as Hal1.
  { intros n. unfold allocated. by rewrite Hheap1. }
  assert (∀ n, passive_node s n → passive_node s1 n) as Hp1.
  { intros n H el. rewrite Hheap1. apply H. }
  unfold nodes_of in Hk. rewrite length_app in Hk.
  destruct (on_passive (next_call (handler ty s)) ty (onL_of s ty) [] [] k None
              (begin_of (onL_of s1 ty)) ev s1) as ([ev1 s2] & Hon & Hl2).
  { by rewrite app_nil_r, HonL. }
  { by apply wf_onL_nodup. }
  { done. }
  { by rewrite app_nil_r, HonL. }
  { intros n Hn. split.
    - rewrite Hal1. by eapply wf_onL_alloc.
    - apply Hp1, Hpas. apply elem_of_app. by right. }
  { lia. }
  rewrite Hon. cbn [obind fst snd]. simpl in Hl2. rewrite Honce.
  destruct (cur_passive (next_call (handler ty s)) (reverse (onceL_of s ty)) k ev1 s2)
    as ([ev2 s3] & Hcur & Hl3).
  { intros n Hn. rewrite elem_of_reverse in Hn. split.
    - rewrite (logged_allocated s1 s2), Hal1 by done.
      apply (wf_alloc _ Hwf ty). apply elem_of_app. by left.
    - eapply logged_passive; [done|]. apply Hp1, Hpas. apply elem_of_app. by left. }
  { rewrite length_reverse. lia. }
  rewrite Hcur. cbn [obind snd]. simpl in Hl3. exists s3. split; [done|].
  by eapply logged_trans.
Qed.

(** With listeners that make no calls, [publish] returns, and the flags
    are what they were. *)
Lemma publish_passive_returns k ty ev s :
  wf s → (∀ n, n ∈ nodes_of s ty → passive_node s n) →
  length (nodes_of s ty) + 3 ≤ k →
  ∃ s', publish k ty ev s = Done s' ∧ ∀ n, tombstoned s' n = tombstoned s n.
Proof.
  intros Hwf Hpas Hk.
  destruct (publish_passive_run k ty ev s Hwf Hpas Hk) as (s3 & Hp & Hl).
  destruct (publish_start ty s Hwf) as (_ & _ & _ & _ & _ & _ & Hheap1 & _).
  eexists. split; [exact Hp|]. intros n.
  rewrite (proj2 (publish_end _ _ _)), (logged_tombstoned _ s3) by done.
  unfold tombstoned. by rewrite Hheap1.
Qed.

(** With listeners that make no calls, [publish] returns and has invoked
    exactly the nodes that were not tombstoned: those of [onL] back to
    front, then those of [onceL] back to front. *)
Lemma publish_passive k ty ev s :
  wf s → (∀ n, n ∈ nodes_of s ty → passive_node s n) →
  length (nodes_of s ty) + 3 ≤ k →
  ∃ s', publish k ty ev s = Done s' ∧
        e_node <$> by_call (next_call s) s' =
          reverse (live s (onL_of s ty)) ++ reverse (live s (onceL_of s ty)).
Proof.
  intros Hwf Hpas Hk.
  destruct (publish_passive_returns k ty ev s Hwf Hpas Hk) as (s' & Hp & Ht).
  exists s'. split; [done|].
  pose proof (proj1 (proj2 (run_sound _)) _ _ _ _ Hp) as Hp'.
  destruct (publish_spec _ _ _ _ Hp' Hwf)
    as (new1 & new2 & ev1 & ev2 & E & _ & _ & _ & Hs1 & Hs2 & Hall1 & Hall2).
  assert (∀ e, e ∈ by_call (next_call s) s' → tombstoned s (e_node e) = false) as Hlive.
  { intros e He. destruct (tombstoned s (e_node e)) eqn:Hte; [|done]. exfalso.
    assert (e ∈ fired (e_node e) s') as Hf.
    { apply list_elem_of_filter in He as [_ He]. by apply list_elem_of_filter. }
    rewrite (proj1 (proj2 run_quiet) _ _ _ _ Hp' Hwf (e_node e)) in Hf by (by left).
    apply list_elem_of_filter in Hf as [_ Hf].
    apply list_elem_of_filter in He as [Hc _].
    destruct (wf_log _ Hwf e Hf). lia. }
  rewrite E, fmap_app. unfold live. rewrite <- !filter_reverse. f_equal.
  - apply sublist_filter_eq; [done| | |].
    + intros n Hn Htn. rewrite elem_of_reverse in Hn. apply Hall1; [done|]. by rewrite Ht.
    + intros n (e & -> & He)%list_elem_of_fmap. apply Hlive. rewrite E. set_solver.
    + rewrite reverse_Permutation. by apply wf_onL_nodup.
  - apply sublist_filter_eq; [done| | |].
    + intros n Hn Htn. rewrite elem_of_reverse in Hn. apply Hall2; [done|]. by rewrite Ht.
    + intros n (e & -> & He)%list_elem_of_fmap. apply Hlive. rewrite E. set_solver.
    + rewrite reverse_Permutation.
      by pose proof (wf_nodup _ Hwf ty) as (? & _ & _)%NoDup_app.
Qed.

(** The state in which [publish] returns, with listeners that make no
    calls. *)
Lemma publish_passive_effect k ty ev s :
  wf s → (∀ n, n ∈ nodes_of s ty → passive_node s n) →
  length (nodes_of s ty) + 3 ≤ k →
  ∃ s', publish k ty ev s = Done s' ∧
        onL_of s' ty = live s (onL_of s ty) ∧ onceL_of s' ty = [] ∧
        (∀ ty', ty' ≠ ty →
           onL_of s' ty' = onL_of s ty' ∧ onceL_of s' ty' = onceL_of s ty') ∧
        (∀ n, tombstoned s' n = tombstoned s n) ∧
        (∀ n, allocated s' n =
              if decide (n ∈ onceL_of s ty ∨ n ∈ onL_of s ty ∧ tombstoned s n = true)
              then false else allocated s n) ∧
        next_node s' = next_node s ∧ next_call s' = S (next_call s).
Proof.
  intros Hwf Hpas Hk.
  destruct (publish_passive_run k ty ev s Hwf Hpas Hk) as (s3 & Hp & Hl).
  destruct (publish_start ty s Hwf)
    as (Hwf1 & He1 & Hc0 & Hc1 & Hlog1 & Hnode1 & Hheap1 & HonL & HonceL & Honce).
  set (s1 := swap_onceL ty (take_call (handler ty s))) in *.
  assert (∀ n, tombstoned s3 n = tombstoned s n) as Ht3.
  { intros n. rewrite (logged_tombstoned s1 s3) by done. unfold tombstoned. by rewrite Hheap1. }
  assert (∀ n, allocated s3 n = allocated s n) as Ha3.
  { intros n. rewrite (logged_allocated s1 s3) by done. unfold allocated. by rewrite Hheap1. }
  assert (∀ ty', onL_of s3 ty' = onL_of s ty') as HonL3.
  { intros ty'. by rewrite (logged_onL s1 s3). }
  assert (∀ ty', onceL_of s3 ty' = if decide (ty' = ty) then [] else onceL_of s ty') as HonceL3.
  { intros ty'. by rewrite (logged_onceL s1 s3). }
  eexists. split; [exact Hp|]. split_and!.
  - unfold free_all. rewrite onL_of_set_heap, onL_of_remove_if, decide_True by done.
    rewrite HonL3. unfold live. apply filter_ext_in. intros n _. by rewrite Ht3.
  - unfold free_all. rewrite onceL_of_set_heap, onceL_of_remove_if, HonceL3.
    by rewrite decide_True.
  - intros ty' Hne. unfold free_all.
    rewrite onL_of_set_heap, onceL_of_set_heap, onL_of_remove_if, onceL_of_remove_if.
    rewrite HonL3, HonceL3. by rewrite !decide_False.
  - intros n. by rewrite (proj2 (publish_end _ _ _)).
  - intros n. rewrite allocated_free_all, allocated_remove_if, HonL3, Ht3, Ha3.
    repeat case_decide; tauto.
  - destruct Hl as (_ & _ & Hn & _). simpl. by rewrite Hn.
  - destruct Hl as (_ & _ & _ & _ & Hc). simpl. by rewrite Hc.
Qed.

Lemma filter_node_absent (es : list Entry) n :
  n ∉ e_node <$> es → filter (λ e, e_node e = n) es = [].
Proof.
  intros Hn. apply filter_none. intros e He Hen. apply Hn. subst n.
  by apply list_elem_of_fmap_2.
Qed.

Lemma filter_node_once (es : list Entry) n :
  NoDup (e_node <$> es) → n ∈ e_node <$> es →
  length (filter (λ e, e_node e = n) es) = 1.
Proof.
  induction es as [|e es IH]; simpl; intros Hnd Hn.
  - by apply not_elem_of_nil in Hn.
  - apply NoDup_cons in Hnd as [He Hnd]. destruct (decide (e_node e = n)) as [E|E].
    + rewrite filter_cons_True by done. subst n.
      by rewrite filter_node_absent.
    + rewrite filter_cons_False by done. apply IH; [done|].
      apply elem_of_cons in Hn as [?|?]; [by subst|done].
Qed.

(** A [publish] call within which no other [publish] call starts adds to
    the log the invocations it makes itself, and nothing else. *)
Lemma publish_log_own ty ev s s' :
  Publish ty ev s s' → wf s → next_call s' = S (next_call s) →
  log s' = log s ++ by_call (next_call s) s'.
Proof.
  intros Hp Hwf Hc.
  destruct (publish_wf _ _ _ _ Hp Hwf) as [Hwf' He'].
  destruct (ev_log _ _ He') as [ext Hext].
  assert (∀ e, e ∈ ext → e_call e = next_call s) as Hext_c.
  { intros e He.
    assert (e ∈ log s') as Hin by (rewrite Hext; set_solver).
    destruct (wf_log _ Hwf' e Hin) as [_ Hlt]. rewrite Hc in Hlt.
    destruct (decide (e_call e = next_call s)) as [|Hne]; [done|exfalso].
    assert (e_call e < next_call s) as Hlt' by lia.
    pose proof (proj1 (proj2 run_fresh_call) _ _ _ _ Hp Hwf _ Hlt') as E.
    unfold by_call in E. rewrite Hext, filter_app in E.
    rewrite <- (app_nil_r (filter _ (log s))) in E at 2.
    apply app_inv_head in E.
    assert (e ∈ filter (λ e0, e_call e0 = e_call e) ext) as Hf
      by (by apply list_elem_of_filter).
    rewrite E in Hf. by apply not_elem_of_nil in Hf. }
  unfold by_call. rewrite Hext at 2. rewrite filter_app.
  fold (by_call (next_call s) s). rewrite by_call_fresh by (done || lia).
  simpl. rewrite Hext. f_equal. symmetry. by apply filter_all.
Qed.

(** *** Tombstoned listeners *)

Lemma func_skip k c n ev s :
  allocated s n = true → tombstoned s n = true → func (S k) c n ev s = Done (ev, s).
Proof. intros Ha Ht. cbn [func]. by rewrite Ha, Ht. Qed.

Lemma on_skip c ty seg : ∀ A C k cur last ev s,
  onL_of s ty = A ++ seg ++ C → NoDup (onL_of s ty) →
  cur = head C → last = head (seg ++ C) →
  (∀ n, n ∈ seg → allocated s n = true ∧ tombstoned s n = true) →
  length seg + 1 ≤ k →
  for_each_on k c ty cur last ev s = Done (ev, s).
Proof.
  induction seg as [|m seg0 IH] using rev_ind;
    intros A C k cur last ev s EL Hnd Hcur Hlast Hseg Hk.
  - simpl in Hlast. subst. destruct k as [|k]; [simpl in Hk; lia|].
    apply for_each_on_stop.
  - rewrite length_app in Hk. simpl in Hk. destruct k as [|k]; [lia|].
    cbn [for_each_on].
    assert (onL_of s ty = (A ++ seg0) ++ m :: C) as EL'.
    { rewrite EL, <- !app_assoc. done. }
    assert (cur ≠ last) as Hne.
    { rewrite Hcur, Hlast. apply (rbase_ne_rend A). by rewrite <- EL. }
    rewrite decide_False by done.
    pose proof Hnd as Hnd'. rewrite EL' in Hnd'.
    rewrite EL', Hcur, (prev_of_app _ _ _ Hnd').
    destruct (Hseg m) as [Ha Ht]; [set_solver|].
    destruct k as [|k]; [lia|].
    rewrite (func_skip k c m ev s Ha Ht). cbn [obind].
    rewrite EL', (prev_of_app _ _ _ Hnd').
    apply (IH A (m :: C)); try done.
    + rewrite EL, <- !app_assoc. done.
    + rewrite Hlast, <- !app_assoc. done.
    + intros n Hn. apply Hseg. set_solver.
    + lia.
Qed.

Lemma cur_skip c ns : ∀ k ev s,
  (∀ n, n ∈ ns → allocated s n = true ∧ tombstoned s n = true) →
  length ns + 1 ≤ k →
  for_each_current k c ns ev s = Done (ev, s).
Proof.
  induction ns as [|m ns IH]; intros k ev s Hns Hk.
  - destruct k as [|k]; [simpl in Hk; lia|]. done.
  - simpl in Hk. destruct k as [|k]; [lia|]. cbn [for_each_current].
    destruct (Hns m) as [Ha Ht]; [left|].
    destruct k as [|k]; [lia|].
    rewrite (func_skip k c m ev s Ha Ht). cbn [obind].
    apply IH; [|lia]. intros n Hn. apply Hns. by right.
Qed.

(* ===================================================================== *)
(** ** Sample runs *)
(* ===================================================================== *)

(** [scenario], run on a new emitter: the tags of the listeners the
    first and the second [publish] invoke, in order. *)
Example scenario_run ta tb tc td te fa fb fc fd fe ev1 ev2 :
  ∃ r, exec 20 (scenario ta tb tc td te fa fb fc fd fe ev1 ev2) Emitter_init = Done r ∧
       e_tag <$> by_call 0 r = [ta; tb; tc; te; td] ∧
       e_tag <$> by_call 1 r = [ta; tb; tc] ∧
       length (log r) = 8.
Proof.
  eexists. split; [vm_compute; reflexivity|]. split_and!; by vm_compute.
Qed.

(** Two publishes on [demo]: call, node, tag, event seen, event left.
    The listeners registered during the first call (nodes 4 and 5) run
    in the second. *)
Example demo_log :
  (λ e : Entry, (e_call e, e_node e, e_tag e, e_seen e, e_left e)) <$> log demo2 =
  [(0, 0, 1, 7%Z, 7%Z); (0, 1, 2, 7%Z, 8%Z); (0, 2, 3, 8%Z, 16%Z);
   (1, 0, 1, 5%Z, 5%Z); (1, 1, 2, 5%Z, 6%Z); (1, 5, 8, 6%Z, 6%Z);
   (1, 4, 9, 6%Z, 6%Z)].
Proof. vm_compute. reflexivity. Qed.

(** A publish on [erasing]: A erases C, so A, B and the one-shot D run,
    and C is unlinked from [onL] when the call returns.  Erasing the
    same connection again is then undefined. *)
Example erasing_run :
  ∃ r, publish 10 0 7%Z erasing = Done r ∧
       e_tag <$> log r = [1; 2; 4] ∧ onL_of r 0 = [1; 0] ∧ onceL_of r 0 = [] ∧
       publish 10 0 7%Z r = Undefined.
Proof.
  eexists. split; [vm_compute; reflexivity|]. split_and!; by vm_compute.
Qed.

(** [clear] from within a dispatch: the persistent listener P clears
    event type 0 while the one-shot listener O is already in [currentL];
    O is in neither list then, and is invoked. *)
Example clear_during_dispatch :
  ∃ r, exec 10 [COn 0 (MkListener 1 id [CClear 0]); COnce 0 (passive 2 id);
                CPublish 0 7%Z] Emitter_init = Done r ∧
       e_tag <$> log r = [1; 2] ∧ Emitter_empty r = true.
Proof.
  eexists. split; [vm_compute; reflexivity|]. split_and!; by vm_compute.
Qed.

(** The sample emitters are states of the emitter, and the publishes on
    them return. *)
Lemma wf_demo : wf demo.
Proof. apply (wf_reachable 10 demo_cmds). vm_compute. reflexivity. Qed.

Lemma publish_demo : publish 10 0 7%Z demo = Done demo1.
Proof. vm_compute. reflexivity. Qed.

Lemma publish_demo1 : publish 10 0 5%Z demo1 = Done demo2.
Proof. vm_compute. reflexivity. Qed.

(** The further sample emitters. *)
Lemma wf_calm : wf calm.
Proof. apply (wf_reachable 10 calm_cmds). vm_compute. reflexivity. Qed.

Lemma wf_nesting : wf nesting.
Proof. apply (wf_reachable 10 nesting_cmds). vm_compute. reflexivity. Qed.

Lemma calm_passive : ∀ n, n ∈ nodes_of calm 0 → passive_node calm n.
Proof.
  intros n Hn el Hel. vm_compute in Hn.
  repeat (apply elem_of_cons in Hn as [->|Hn];
          [vm_compute in Hel; injection Hel as <-; reflexivity|]).
  by apply not_elem_of_nil in Hn.
Qed.

Lemma calm_fuel : length (nodes_of calm 0) + 3 ≤ 10.
Proof. vm_compute. lia. Qed.

Lemma erase_demo : Emitter_erase 0 1 demo = Done demo_erased.
Proof. vm_compute. reflexivity. Qed.

(* ===================================================================== *)
(** ** The properties *)
(* ===================================================================== *)

(** C1.  A [publish] of event type [ty] invokes persistent listeners
    first and one-shot listeners after them; the persistent ones in the
    order of [onL] read back to front, which is the order in which they
    were registered ([on] links at the front), the one-shot ones in the
    order of [onceL] read back to front, which is the reverse of the
    order in which they were registered ([once] links at the back); a
    listener that is not tombstoned when the call returns was invoked.
    If the listeners make no calls to the emitter, [publish] returns and
    has invoked exactly those that were not tombstoned, in that order.
    With persistent A, B, C and one-shot D, E registered in that order
    on a new emitter, a publish invokes A, B, C, E, D and the next one
    A, B, C. *)
Theorem publish_dispatch_order fuel ty ev s f :
  wf s →
  (∀ s', publish fuel ty ev s = Done s' → dispatch_order ty s s') ∧
  ((∀ n, n ∈ nodes_of s ty → passive_node s n) →
   length (nodes_of s ty) + 3 ≤ fuel →
   ∃ s', publish fuel ty ev s = Done s' ∧
         e_node <$> by_call (next_call s) s' =
           reverse (live s (onL_of s ty)) ++ reverse (live s (onceL_of s ty))) ∧
  onL_of (Emitter_on ty f s).2 ty = (Emitter_on ty f s).1 :: onL_of s ty ∧
  onceL_of (Emitter_once ty f s).2 ty = onceL_of s ty ++ [(Emitter_once ty f s).1] ∧
  (∀ ta tb tc td te fa fb fc fd fe ev1 ev2,
     ∃ r, exec 20 (scenario ta tb tc td te fa fb fc fd fe ev1 ev2) Emitter_init = Done r ∧
          e_tag <$> by_call 0 r = [ta; tb; tc; te; td] ∧
          e_tag <$> by_call 1 r = [ta; tb; tc] ∧
          length (log r) = 8).
Proof.
  intros Hwf. split_and!.
  - intros s' Hp%run_sound.
    destruct (publish_spec _ _ _ _ Hp Hwf)
      as (new1 & new2 & ev1 & ev2 & E & _ & _ & _ & ? & ? & ? & ?).
    by exists new1, new2.
  - by apply publish_passive.
  - by rewrite onL_of_on, on_conn, decide_True.
  - by rewrite onceL_of_once, once_conn, decide_True.
  - apply scenario_run.
Qed.

Lemma publish_dispatch_order_witness :
  wf demo ∧ publish 10 0 7%Z demo = Done demo1 ∧ dispatch_order 0 demo demo1 ∧
  (∀ n, n ∈ nodes_of demo 1 → passive_node demo n) ∧
  length (nodes_of demo 1) + 3 ≤ 10 ∧
  ∃ s', publish 10 1 7%Z demo = Done s' ∧
        e_node <$> by_call (next_call demo) s' =
          reverse (live demo (onL_of demo 1)) ++ reverse (live demo (onceL_of demo 1)).
Proof.
  assert (∀ n, n ∈ nodes_of demo 1 → passive_node demo n) as Hpas.
  { intros n Hn el Hel. vm_compute in Hn. apply list_elem_of_singleton in Hn. subst n.
    vm_compute in Hel. injection Hel as <-. reflexivity. }
  assert (length (nodes_of demo 1) + 3 ≤ 10) as Hlen by (vm_compute; lia).
  split_and!; [exact wf_demo|exact publish_demo| |exact Hpas|exact Hlen|].
  - exact (proj1 (publish_dispatch_order 10 0 7%Z demo (passive 0 id) wf_demo)
             demo1 publish_demo).
  - exact (proj1 (proj2 (publish_dispatch_order 10 1 7%Z demo (passive 0 id) wf_demo))
             Hpas Hlen).
Defined.



(** C3.  [publish] first moves the whole of [onceL] into its local list:
    the two loops start in a state in which [onceL] is empty.  Hence
    every invocation made by the call is of a node that existed when the
    call started; a node that is in [onceL] when the call returns was
    registered during the call and was not invoked by it; and the next
    [publish] of that event type invokes it, unless it is tombstoned by
    the time that call returns. *)
Theorem once_during_publish k ty ev s s' :
  wf s → publish (S k) ty ev s = Done s' →
  (∃ ev1 s2 ev2 s3,
     onceL_of (swap_onceL ty (take_call (handler ty s))) ty = [] ∧
     for_each_on k (next_call s) ty None (begin_of (onL_of s ty)) ev
       (swap_onceL ty (take_call (handler ty s))) = Done (ev1, s2) ∧
     for_each_current k (next_call s) (reverse (onceL_of s ty)) ev1 s2 = Done (ev2, s3) ∧
     s' = free_all (onceL_of s ty) (remove_if ty s3)) ∧
  (∀ e, e ∈ by_call (next_call s) s' → e_node e < next_node s) ∧
  (∀ n, n ∈ onceL_of s' ty →
     next_node s ≤ n ∧ n ∉ (e_node <$> by_call (next_call s) s')) ∧
  (∀ fuel2 ev2 s'' n,
     n ∈ onceL_of s' ty → publish fuel2 ty ev2 s' = Done s'' →
     tombstoned s'' n = false →
     n ∈ (e_node <$> by_call (next_call s') s'')).
Proof.
  intros Hwf Hp.
  pose proof (proj1 (proj2 (run_sound _)) _ _ _ _ Hp) as Hp'.
  destruct (publish_wf _ _ _ _ Hp' Hwf) as [Hwf' He'].
  destruct (publish_start ty s Hwf)
    as (Hwf1 & He1 & Hc0 & Hc1 & Hlog1 & Hnode1 & _ & HonL & HonceL & Honce).
  assert (∀ e, e ∈ by_call (next_call s) s' → e_node e < next_node s) as Hold.
  { intros e He. by eapply publish_old_nodes. }
  split_and!.
  - rewrite publish_unfold in Hp.
    apply obind_Done in Hp as ([ev1 s2] & H1 & Hp).
    apply obind_Done in Hp as ([ev2 s3] & H2 & Hp).
    apply Done_inj in Hp. simpl in H2, Hp.
    rewrite Hc0, HonL in H1. rewrite Hc0, Honce in H2. rewrite Honce in Hp.
    exists ev1, s2, ev2, s3. split_and!; try done.
    by rewrite HonceL, decide_True.
  - done.
  - intros n Hn.
    assert (next_node s ≤ n) as Hge.
    { inversion Hp' as [? ? ? ev1 s2 ev2 s3 Hon Hcur]; subst.
      rewrite Hc0, Honce in *.
      assert (next_call s < next_call (swap_onceL ty (take_call (handler ty s))))
        as Hc by lia.
      destruct (on_wf _ _ _ _ _ _ _ _ Hon Hc Hwf1) as [Hwf2 He2].
      assert (next_call s < next_call s2) as Hc2 by (pose proof (ev_call _ _ He2); lia).
      destruct (cur_wf _ _ _ _ _ _ Hcur Hc2 Hwf2) as [Hwf3 He3].
      assert (evolves (swap_onceL ty (take_call (handler ty s))) s3) as He13
        by (by eapply evolves_trans).
      unfold free_all in Hn. rewrite onceL_of_set_heap, onceL_of_remove_if in Hn.
      destruct (ev_onceL _ _ He13 _ _ Hn) as [Hin|Hin]; [|lia].
      rewrite HonceL, decide_True in Hin by done. by apply not_elem_of_nil in Hin. }
    split; [done|]. intros (e & -> & He)%list_elem_of_fmap. apply Hold in He. lia.
  - intros fuel2 ev2 s'' n Hn Hp2%run_sound Ht.
    destruct (publish_spec _ _ _ _ Hp2 Hwf')
      as (new1 & new2 & ev1' & ev2' & E & _ & _ & _ & _ & _ & _ & Hall).
    rewrite E, fmap_app, elem_of_app. right. by apply Hall.
Qed.

Lemma once_during_publish_witness :
  wf demo ∧ publish 10 0 7%Z demo = Done demo1 ∧
  4 ∈ onceL_of demo1 0 ∧ publish 10 0 5%Z demo1 = Done demo2 ∧
  tombstoned demo2 4 = false ∧
  (4 ∉ e_node <$> by_call (next_call demo) demo1) ∧
  4 ∈ (e_node <$> by_call (next_call demo1) demo2).
Proof.
  assert (4 ∈ onceL_of demo1 0) as Hin by (vm_compute; left).
  assert (tombstoned demo2 4 = false) as Ht by (vm_compute; reflexivity).
  pose proof (once_during_publish 9 0 7%Z demo demo1 wf_demo publish_demo)
    as (_ & _ & Hnot & Hnext).
  split_and!; [exact wf_demo|exact publish_demo|exact Hin|exact publish_demo1|exact Ht| |].
  - exact (proj2 (Hnot 4 Hin)).
  - exact (Hnext 10 5%Z demo2 4 Hin publish_demo1 Ht).
Defined.

(** C4.  A [publish] of event type [ty] is in progress: the loop over
    [onL] has run from its start until a listener [m] returned, which
    left the state [s0].  A node [n] that is tombstoned in [s0] is not
    invoked from then on until the call returns, so if the call had not
    invoked it by then it does not invoke it at all: the flag is read
    when the node is visited.  And when the call returns [n] is not in
    [onL]; if it was a node of [onL] it has been destroyed. *)
Theorem erased_mid_dispatch fuel k1 ty ev s s' m n ev0 s0 :
  wf s → publish fuel ty ev s = Done s' →
  m ∈ onL_of s ty →
  for_each_on k1 (next_call s) ty None (Some m) ev
    (swap_onceL ty (take_call (handler ty s))) = Done (ev0, s0) →
  tombstoned s0 n = true →
  fired n s' = fired n s0 ∧
  (n ∉ e_node <$> by_call (next_call s) s0 → n ∉ e_node <$> by_call (next_call s) s') ∧
  (n ∉ onL_of s' ty) ∧
  (n ∈ onL_of s ty → allocated s' n = false).
Proof.
  intros Hwf Hp Hm Hpre Ht.
  pose proof (proj1 (proj2 (run_sound _)) _ _ _ _ Hp) as Hp'.
  destruct (publish_wf _ _ _ _ Hp' Hwf) as [Hwf' He'].
  destruct fuel as [|k]; [done|]. rewrite publish_unfold in Hp.
  apply obind_Done in Hp as ([ev1 s2] & H1 & Hp).
  apply obind_Done in Hp as ([ev2 s3] & H2 & Hp).
  apply Done_inj in Hp. cbn [fst snd] in H2, Hp.
  destruct (publish_start ty s Hwf)
    as (Hwf1 & He1 & Hc0 & Hc1 & Hlog1 & Hnode1 & _ & HonL & _ & Honce).
  rewrite Hc0, HonL in H1. rewrite Hc0, Honce in H2. rewrite Honce in Hp.
  set (s1 := swap_onceL ty (take_call (handler ty s))) in *.
  assert (next_call s < next_call s1) as Hc by lia.
  pose proof (proj1 (proj2 (proj2 (run_sound _))) _ _ _ _ _ _ _ _ Hpre) as Hpre'.
  destruct (on_wf _ _ _ _ _ _ _ _ Hpre' Hc Hwf1) as [Hwf0 He0].
  assert (next_call s < next_call s0) as Hc0' by (pose proof (ev_call _ _ He0); lia).
  pose proof (proj1 (proj2 (proj2 (run_sound _))) _ _ _ _ _ _ _ _ H1) as H1'.
  destruct (on_wf _ _ _ _ _ _ _ _ H1' Hc Hwf1) as [Hwf2 He2].
  assert (next_call s < next_call s2) as Hc2 by (pose proof (ev_call _ _ He2); lia).
  pose proof (proj1 (proj2 (proj2 (proj2 (run_sound _)))) _ _ _ _ _ _ H2) as H2'.
  destruct (cur_wf _ _ _ _ _ _ H2' Hc2 Hwf2) as [Hwf3 He3].
  (* the dispatch goes on from the state in which [m] returned *)
  assert (ForEachOn (next_call s) ty (Some m) (begin_of (onL_of s ty)) ev0 s0 ev1 s2)
    as Hrest.
  { destruct (on_split _ _ _ _ _ _ _ _ _ _ _ Hpre H1) as [[k' H]|[k' H]].
    - by apply run_sound in H.
    - cbn [fst snd] in H. apply run_sound in H.
      destruct (onL_of s ty) as [|l0 rest] eqn:EL; [by apply not_elem_of_nil in Hm|].
      cbn [begin_of head] in *.
      destruct (decide (m = l0)) as [->|Hne].
      + inversion H; subst; [constructor|done].
      + exfalso.
        assert (l0 ∈ onL_of s2 ty) as Hl0.
        { inversion H as [|? ? ? ? ? ? ? ? ? ? ? ? ? Hprev]; subst; [done|].
          by eapply prev_of_iter_elem. }
        destruct (ev_onL _ _ He2 ty) as (front & EL2 & Hfront).
        rewrite HonL, EL, filter_cons_True in EL2 by (by eapply wf_onL_alloc).
        eapply (on_front_doom _ _ _ _ _ _ _ _ H Hc2 Hwf2 (next_node s) front l0 _ m);
          try done.
        * pose proof (ev_node _ _ He1). pose proof (ev_node _ _ He2). lia.
        * by rewrite Hnode1 in Hfront.
        * apply listed_lt; [done|]. apply (onL_listed s ty). rewrite EL. done. }
  assert (evolves s0 s2) as He02 by (by destruct (on_wf _ _ _ _ _ _ _ _ Hrest Hc0' Hwf0)).
  pose proof (tombstoned_mono _ _ _ He02 Ht) as Ht2.
  pose proof (tombstoned_mono _ _ _ He3 Ht2) as Ht3.
  assert (fired n s' = fired n s0) as Efired.
  { subst s'. unfold fired at 1. rewrite (proj1 (publish_end _ _ _)). fold (fired n s3).
    rewrite (proj1 (proj2 (proj2 (proj2 run_quiet))) _ _ _ _ _ _ H2' Hc2 Hwf2 n)
      by (by left).
    apply (proj1 (proj2 (proj2 run_quiet)) _ _ _ _ _ _ _ _ Hrest Hc0' Hwf0). by left. }
  assert (n ∉ onL_of s' ty) as Hni.
  { subst s'. unfold free_all. rewrite onL_of_set_heap, onL_of_remove_if, decide_True by done.
    intros [Hn _]%list_elem_of_filter. congruence. }
  split_and!; [done| |done|].
  - intros Hn0 (e & -> & He)%list_elem_of_fmap. apply Hn0.
    apply list_elem_of_filter in He as [Hcall He].
    assert (e ∈ fired (e_node e) s') as Hf by (by apply list_elem_of_filter).
    rewrite Efired in Hf. apply list_elem_of_filter in Hf as [_ Hf].
    apply list_elem_of_fmap_2. by apply list_elem_of_filter.
  - intros Hn. destruct (allocated s' n) eqn:Ha; [|done]. destruct Hni.
    destruct (ev_onL _ _ He' ty) as (front & -> & _).
    apply elem_of_app. right. by apply list_elem_of_filter.
Qed.

Lemma erased_mid_dispatch_witness :
  wf erasing ∧ publish 10 0 7%Z erasing = Done erasing1 ∧
  onL_of erasing 0 = [2; 1; 0] ∧ 0 ∈ onL_of erasing 0 ∧
  for_each_on 10 (next_call erasing) 0 None (Some 0) 7%Z
    (swap_onceL 0 (take_call (handler 0 erasing))) = Done (erasing_A.1, erasing_A.2) ∧
  tombstoned erasing_A.2 2 = true ∧
  (2 ∉ e_node <$> by_call (next_call erasing) erasing_A.2) ∧
  fired 2 erasing1 = fired 2 erasing_A.2 ∧
  (2 ∉ e_node <$> by_call (next_call erasing) erasing1) ∧
  (2 ∉ onL_of erasing1 0) ∧ allocated erasing1 2 = false.
Proof.
  assert (wf erasing) as Hwf.
  { apply (wf_reachable 10 erasing_cmds). vm_compute. reflexivity. }
  assert (publish 10 0 7%Z erasing = Done erasing1) as Hp by (vm_compute; reflexivity).
  assert (0 ∈ onL_of erasing 0) as Hm by (vm_compute; right; right; left).
  assert (2 ∈ onL_of erasing 0) as Hn by (vm_compute; left).
  assert (for_each_on 10 (next_call erasing) 0 None (Some 0) 7%Z
            (swap_onceL 0 (take_call (handler 0 erasing)))
          = Done (erasing_A.1, erasing_A.2)) as Hpre by (vm_compute; reflexivity).
  assert (tombstoned erasing_A.2 2 = true) as Ht by (vm_compute; reflexivity).
  assert (2 ∉ e_node <$> by_call (next_call erasing) erasing_A.2) as Hn0.
  { vm_compute. intros H. repeat (apply elem_of_cons in H as [H|H]; [discriminate|]).
    by apply not_elem_of_nil in H. }
  destruct (erased_mid_dispatch 10 10 0 7%Z erasing erasing1 0 2 erasing_A.1 erasing_A.2
              Hwf Hp Hm Hpre Ht) as (H1 & H2 & H3 & H4).
  split_and!;
    [exact Hwf|exact Hp|by vm_compute|exact Hm|exact Hpre|exact Ht|exact Hn0|exact H1
    |exact (H2 Hn0)|exact H3|exact (H4 Hn)].
Defined.

(** C5.  [empty<E>()] is true exactly when there is no handler for [E]
    (the vector is too short or the slot is null) or every node of both
    lists of the handler is tombstoned. *)
Theorem empty_iff_all_tombstoned ty s :
  Emitter_empty_ty ty s = true ↔
  (length (handlers s) ≤ ty ∨ handlers s !! ty = Some None) ∨
  ∃ h, handlers s !! ty = Some (Some h) ∧
       ∀ n, n ∈ onceL h ++ onL h → tombstoned s n = true.
Proof.
  rewrite Emitter_empty_ty_spec, get_handler_None. unfold get_handler.
  destruct (handlers s !! ty) as [[h|]|]; naive_solver.
Qed.

Lemma empty_iff_all_tombstoned_witness :
  length (handlers demo) ≤ 7 ∧ Emitter_empty_ty 7 demo = true.
Proof.
  assert (length (handlers demo) ≤ 7) as Hlen by (vm_compute; lia).
  split; [exact Hlen|].
  apply (proj2 (empty_iff_all_tombstoned 7 demo)). left. left. exact Hlen.
Defined.

(** C6.  [handler<E>()] on a vector that is too short resizes it to
    exactly [E::type() + 1] slots, the old slots unchanged and the new
    ones null except the last, which gets a new handler; on a vector
    that is long enough the length stays.  Where a handler exists,
    [handler<E>()] changes nothing, and after any run the slot still
    holds the same handler object. *)
Theorem handler_storage ty s :
  (length (handlers s) ≤ ty →
     length (handlers (handler ty s)) = ty + 1 ∧
     (∀ i, i < length (handlers s) → handlers (handler ty s) !! i = handlers s !! i) ∧
     (∀ i, length (handlers s) ≤ i < ty → handlers (handler ty s) !! i = Some None) ∧
     handlers (handler ty s) !! ty = Some (Some (MkHandler (next_hid s) [] []))) ∧
  (ty < length (handlers s) →
     length (handlers (handler ty s)) = length (handlers s)) ∧
  (∀ h, get_handler s ty = Some h → handler ty s = s) ∧
  (∀ h fuel cmds s', wf s → get_handler s ty = Some h →
     exec fuel cmds s = Done s' →
     ∃ h', get_handler s' ty = Some h' ∧ hid h' = hid h).
Proof.
  split_and!.
  - apply handler_grows.
  - apply handler_keeps_length.
  - apply handler_existing.
  - intros h fuel cmds s' Hwf Hh Hex%run_sound.
    destruct (exec_wf _ _ _ Hex Hwf) as [_ He]. by apply (ev_handler _ _ He).
Qed.

Lemma handler_storage_witness :
  length (handlers demo) ≤ 5 ∧ length (handlers (handler 5 demo)) = 5 + 1 ∧
  wf demo ∧ get_handler demo 0 = Some (MkHandler 0 [2] [1; 0]) ∧
  exec 10 [CPublish 0 7%Z; CClearAll; COn 3 (passive 1 id)] demo =
    Done (state_of (exec 10 [CPublish 0 7%Z; CClearAll; COn 3 (passive 1 id)] demo)) ∧
  ∃ h', get_handler
          (state_of (exec 10 [CPublish 0 7%Z; CClearAll; COn 3 (passive 1 id)] demo)) 0
        = Some h' ∧ hid h' = 0.
Proof.
  assert (length (handlers demo) ≤ 5) as Hlen by (vm_compute; lia).
  assert (get_handler demo 0 = Some (MkHandler 0 [2] [1; 0])) as Hh
    by (vm_compute; reflexivity).
  assert (exec 10 [CPublish 0 7%Z; CClearAll; COn 3 (passive 1 id)] demo =
          Done (state_of (exec 10 [CPublish 0 7%Z; CClearAll; COn 3 (passive 1 id)] demo)))
    as Hex by (vm_compute; reflexivity).
  destruct (handler_storage 5 demo) as (Hgrow & _).
  destruct (handler_storage 0 demo) as (_ & _ & _ & Hkeep).
  split_and!; [exact Hlen|exact (proj1 (Hgrow Hlen))|exact wf_demo|exact Hh|exact Hex|].
  exact (Hkeep _ 10 _ _ wf_demo Hh Hex).
Defined.




(** C8.  The listeners invoked by one [publish] call work on one event:
    the first sees the event as published, each later one — in the loop
    over [onL] and on into the loop over [currentL] — sees it as the one
    before left it, and what a listener leaves is what its own code made
    of what it saw. *)
Theorem event_shared fuel ty ev s s' :
  wf s → publish fuel ty ev s = Done s' →
  ∃ ev', chain ev (by_call (next_call s) s') ev' ∧
         Forall (faithful s') (by_call (next_call s) s').
Proof.
  intros Hwf Hp%run_sound.
  destruct (publish_spec _ _ _ _ Hp Hwf)
    as (new1 & new2 & ev1 & ev2 & -> & Hc1 & Hc2 & Hfa & _).
  exists ev2. split; [by eapply chain_app|done].
Qed.

Lemma event_shared_witness :
  wf demo ∧ publish 10 0 7%Z demo = Done demo1 ∧
  ∃ ev', chain 7%Z (by_call (next_call demo) demo1) ev' ∧
         Forall (faithful demo1) (by_call (next_call demo) demo1).
Proof.
  split_and!; [exact wf_demo|exact publish_demo|].
  exact (event_shared 10 0 7%Z demo demo1 wf_demo publish_demo).
Defined.

(** C9.  For an event type without listeners, [empty<E>()] is true;
    [publish<E>] returns, invokes nothing, leaves every node and every
    list as it was, and [empty<E>()] stays true; [clear<E>()] and
    [erase<E>] on a live connection return as well; each of the three
    leaves a handler for [E] behind. *)
Theorem untouched_type k ty ev s :
  onL_of s ty = [] → onceL_of s ty = [] →
  Emitter_empty_ty ty s = true ∧
  (∃ s', publish (S (S k)) ty ev s = Done s' ∧
         log s' = log s ∧ heap s' = heap s ∧
         (∀ ty', nodes_of s' ty' = nodes_of s ty') ∧
         Emitter_empty_ty ty s' = true ∧ is_Some (get_handler s' ty)) ∧
  (heap (Emitter_clear ty s) = heap s ∧
   Emitter_empty_ty ty (Emitter_clear ty s) = true ∧
   is_Some (get_handler (Emitter_clear ty s) ty)) ∧
  (∀ conn, allocated s conn = true →
     ∃ s', Emitter_erase ty conn s = Done s' ∧
           Emitter_empty_ty ty s' = true ∧ is_Some (get_handler s' ty)).
Proof.
  intros HonL HonceL.
  assert (∀ s', onL_of s' ty = [] → onceL_of s' ty = [] → Emitter_empty_ty ty s' = true)
    as Hempty.
  { intros s' H1 H2. apply Emitter_empty_ty_nodes. unfold nodes_of.
    rewrite H1, H2. intros n Hn. by apply not_elem_of_nil in Hn. }
  split_and!.
  - by apply Hempty.
  - destruct (publish_no_listeners k ty ev s HonL HonceL)
      as (s' & Hp & Hlog & Hheap & _ & H1 & H2 & Hh).
    exists s'. split_and!; try done.
    + intros ty'. unfold nodes_of. by rewrite H1, H2.
    + apply Hempty; [by rewrite H1|by rewrite H2].
  - by rewrite clear_eq, HonL, HonceL.
  - rewrite clear_eq. apply Hempty.
    + by rewrite onL_of_set_heap, onL_of_handler.
    + by rewrite onceL_of_set_heap, onceL_of_handler.
  - rewrite clear_eq, get_handler_set_heap. apply get_handler_handler_is_Some.
  - intros conn Ha. unfold Emitter_erase, Handler_erase.
    rewrite (marked_allocated s)
      by (destruct (handler_fields ty s) as (-> & _); apply marked_refl).
    rewrite Ha. eexists. split; [done|]. split.
    + apply Hempty.
      * by rewrite onL_of_set_heap, onL_of_handler.
      * by rewrite onceL_of_set_heap, onceL_of_handler.
    + rewrite get_handler_set_heap. apply get_handler_handler_is_Some.
Qed.

Lemma untouched_type_witness :
  onL_of demo 5 = [] ∧ onceL_of demo 5 = [] ∧ get_handler demo 5 = None ∧
  Emitter_empty_ty 5 demo = true ∧
  ∃ s', publish 2 5 7%Z demo = Done s' ∧ log s' = log demo ∧
        Emitter_empty_ty 5 s' = true ∧ is_Some (get_handler s' 5).
Proof.
  assert (onL_of demo 5 = []) as H1 by (vm_compute; reflexivity).
  assert (onceL_of demo 5 = []) as H2 by (vm_compute; reflexivity).
  destruct (untouched_type 0 5 7%Z demo H1 H2)
    as (He & (s' & Hp & Hlog & _ & _ & He' & Hh) & _).
  split_and!; [exact H1|exact H2|by vm_compute|exact He|].
  exists s'. split_and!; [exact Hp|exact Hlog|exact He'|exact Hh].
Defined.

(** C10.  When [publish] returns, [onL] is what is left of the old list
    with the nodes registered during the call in front of it; the call,
    whose loop ends at the node that was first when it started, invoked
    no node registered during the call (their addresses were not in use
    when it started); and the next [publish] of that event type invokes
    such a node, and keeps it in [onL], unless it is tombstoned by the
    time that call returns. *)
Theorem on_during_publish fuel ty ev s s' :
  wf s → publish fuel ty ev s = Done s' →
  (∃ front,
     onL_of s' ty = front ++ filter (λ n, allocated s' n = true) (onL_of s ty) ∧
     Forall (λ n, next_node s ≤ n) front) ∧
  (∀ n, n ∈ onL_of s' ty → n ∉ onL_of s ty → next_node s ≤ n) ∧
  (∀ n, next_node s ≤ n → n ∉ e_node <$> by_call (next_call s) s') ∧
  (∀ fuel2 ev2 s'' n,
     n ∈ onL_of s' ty → publish fuel2 ty ev2 s' = Done s'' →
     tombstoned s'' n = false →
     n ∈ (e_node <$> by_call (next_call s') s'') ∧ n ∈ onL_of s'' ty).
Proof.
  intros Hwf Hp%run_sound.
  destruct (publish_wf _ _ _ _ Hp Hwf) as [Hwf' He'].
  split_and!.
  - apply (ev_onL _ _ He').
  - intros n Hn Hni.
    destruct (ev_onL _ _ He' ty) as (front & E & F). rewrite E in Hn.
    apply elem_of_app in Hn as [Hn|[_ Hn]%list_elem_of_filter]; [|done].
    by apply (proj1 (Forall_forall _ _) F) in Hn.
  - intros n Hn (e & -> & He)%list_elem_of_fmap.
    assert (e_node e < next_node s); [|lia]. by eapply publish_old_nodes.
  - intros fuel2 ev2 s'' n Hn Hp2%run_sound Ht.
    destruct (publish_wf _ _ _ _ Hp2 Hwf') as [Hwf'' He''].
    destruct (publish_spec _ _ _ _ Hp2 Hwf')
      as (new1 & new2 & ev1' & ev2' & E & _ & _ & _ & _ & _ & Hall & _).
    split.
    + rewrite E, fmap_app, elem_of_app. left. by apply Hall.
    + destruct (ev_onL _ _ He'' ty) as (front & -> & _).
      apply elem_of_app. right. apply list_elem_of_filter. split; [|done].
      destruct (allocated s'' n) eqn:Ha; [done|].
      by rewrite (ev_freed _ _ He'' ty n Hn Ha) in Ht.
Qed.

Lemma on_during_publish_witness :
  wf demo ∧ publish 10 0 7%Z demo = Done demo1 ∧
  onL_of demo 0 = [1; 0] ∧ onL_of demo1 0 = [5; 1; 0] ∧
  publish 10 0 5%Z demo1 = Done demo2 ∧ tombstoned demo2 5 = false ∧
  (5 ∉ e_node <$> by_call (next_call demo) demo1) ∧
  5 ∈ (e_node <$> by_call (next_call demo1) demo2).
Proof.
  assert (5 ∈ onL_of demo1 0) as Hin by (vm_compute; left).
  assert (5 ∉ onL_of demo 0) as Hni.
  { vm_compute. intros H. repeat (apply elem_of_cons in H as [H|H]; [discriminate|]).
    by apply not_elem_of_nil in H. }
  assert (tombstoned demo2 5 = false) as Ht by (vm_compute; reflexivity).
  pose proof (on_during_publish 10 0 7%Z demo demo1 wf_demo publish_demo)
    as (_ & Hnew & Hnot & Hnext).
  split_and!;
    [exact wf_demo|exact publish_demo|by vm_compute|by vm_compute|exact publish_demo1
    |exact Ht| |].
  - exact (Hnot 5 (Hnew 5 Hin Hni)).
  - exact (proj1 (Hnext 10 5%Z demo2 5 Hin publish_demo1 Ht)).
Defined.

(* ===================================================================== *)
(** ** Further properties of the code *)
(* ===================================================================== *)

(** X1.  Whatever script of calls is run on a well-formed emitter
    (a new emitter is one), listeners calling back included, the state
    it returns in is well-formed: no node is linked twice or into two
    lists, every linked node exists and is not destroyed, and addresses
    and call numbers in use are below the counters. *)
Theorem runs_keep_wf fuel cmds s s' :
  wf s → exec fuel cmds s = Done s' → wf s'.
Proof. intros Hwf Hx%run_sound. by destruct (exec_wf _ _ _ Hx Hwf). Qed.

Lemma runs_keep_wf_witness :
  wf Emitter_init ∧ exec 10 demo_cmds Emitter_init = Done demo ∧ wf demo.
Proof.
  assert (exec 10 demo_cmds Emitter_init = Done demo) as Hx by (vm_compute; reflexivity).
  split_and!; [exact wf_init|exact Hx|].
  exact (runs_keep_wf 10 demo_cmds Emitter_init demo wf_init Hx).
Defined.

(** X2.  What a script can do to the emitter: counters and the log only
    grow; a node keeps its listener; a tombstone and a destruction are
    never undone; a handler, once made, stays the same object; [onL]
    keeps the order of its nodes, losing only destroyed ones and gaining
    only new ones at the front; [onceL] gains only new nodes; a node
    destroyed out of [onL] was tombstoned. *)
Theorem runs_only_add fuel cmds s s' :
  wf s → exec fuel cmds s = Done s' → evolves s s'.
Proof. intros Hwf Hx%run_sound. by destruct (exec_wf _ _ _ Hx Hwf). Qed.

Lemma runs_only_add_witness :
  wf demo ∧ publish 10 0 7%Z demo = Done demo1 ∧
  exec 10 [CPublish 0 7%Z] demo = Done demo1 ∧ evolves demo demo1.
Proof.
  assert (exec 10 [CPublish 0 7%Z] demo = Done demo1) as Hx by (vm_compute; reflexivity).
  split_and!; [exact wf_demo|exact publish_demo|exact Hx|].
  exact (runs_only_add 10 [CPublish 0 7%Z] demo demo1 wf_demo Hx).
Defined.

(** X3.  After [erase] on a connection, of a persistent or of a one-shot
    listener, no script invokes the listener again, and its node stays
    tombstoned. *)
Theorem erased_stays_silent ty conn s s0 fuel cmds s' :
  wf s → Emitter_erase ty conn s = Done s0 → exec fuel cmds s0 = Done s' →
  tombstoned s' conn = true ∧ fired conn s' = fired conn s.
Proof.
  intros Hwf He Hx%run_sound.
  destruct (step_erase _ _ _ _ He Hwf) as [Hwf0 He0].
  destruct (tombstoned_erase _ _ _ _ He) as (Ht & _).
  destruct (exec_wf _ _ _ Hx Hwf0) as [Hwf' He'].
  split; [by eapply tombstoned_mono|].
  rewrite (proj1 run_quiet _ _ _ Hx Hwf0 conn) by (by left).
  unfold fired. by rewrite (prim_log (CErase ty conn) s s0).
Qed.

Lemma erased_stays_silent_witness :
  wf demo ∧ Emitter_erase 0 1 demo = Done demo_erased ∧
  exec 10 [CPublish 0 7%Z; CPublish 0 8%Z] demo_erased =
    Done (state_of (exec 10 [CPublish 0 7%Z; CPublish 0 8%Z] demo_erased)) ∧
  tombstoned (state_of (exec 10 [CPublish 0 7%Z; CPublish 0 8%Z] demo_erased)) 1 = true ∧
  fired 1 (state_of (exec 10 [CPublish 0 7%Z; CPublish 0 8%Z] demo_erased)) = fired 1 demo.
Proof.
  assert (exec 10 [CPublish 0 7%Z; CPublish 0 8%Z] demo_erased =
          Done (state_of (exec 10 [CPublish 0 7%Z; CPublish 0 8%Z] demo_erased))) as Hx
    by (vm_compute; reflexivity).
  destruct (erased_stays_silent 0 1 demo demo_erased 10 _ _ wf_demo erase_demo Hx)
    as [H1 H2].
  split_and!; [exact wf_demo|exact erase_demo|exact Hx|exact H1|exact H2].
Defined.

(** X4.  When [publish] returns, every node of [onL] of the event type
    is untombstoned and exists; a node that was in [onL] when the call
    started and is tombstoned when it returns has been unlinked and
    destroyed. *)
Theorem publish_compacts_onL fuel ty ev s s' :
  wf s → publish fuel ty ev s = Done s' →
  (∀ n, n ∈ onL_of s' ty → tombstoned s' n = false ∧ allocated s' n = true) ∧
  (∀ n, n ∈ onL_of s ty → tombstoned s' n = true →
        (n ∉ onL_of s' ty) ∧ allocated s' n = false).
Proof.
  intros Hwf Hp.
  destruct (publish_inv _ _ _ _ _ Hwf Hp) as (s3 & -> & Hwf3 & He13 & Hwf' & He').
  set (s' := free_all (onceL_of s ty) (remove_if ty s3)) in *.
  assert (∀ n, n ∈ onL_of s' ty → tombstoned s' n = false) as Hlive.
  { intros n Hn. unfold s' in *. rewrite (proj2 (publish_end _ _ _)).
    unfold free_all in Hn. rewrite onL_of_set_heap, onL_of_remove_if, decide_True in Hn by done.
    by apply list_elem_of_filter in Hn as [? _]. }
  split.
  - intros n Hn. split; [by apply Hlive|]. by eapply wf_onL_alloc.
  - intros n Hn Ht.
    assert (n ∉ onL_of s' ty) as Hni.
    { intros Hin. apply Hlive in Hin. congruence. }
    split; [done|]. destruct (allocated s' n) eqn:Ha; [|done]. destruct Hni.
    destruct (ev_onL _ _ He' ty) as (front & -> & _).
    apply elem_of_app. right. by apply list_elem_of_filter.
Qed.

Lemma publish_compacts_onL_witness :
  wf demo_erased ∧
  publish 10 0 7%Z demo_erased = Done (state_of (publish 10 0 7%Z demo_erased)) ∧
  1 ∈ onL_of demo_erased 0 ∧ tombstoned (state_of (publish 10 0 7%Z demo_erased)) 1 = true ∧
  (1 ∉ onL_of (state_of (publish 10 0 7%Z demo_erased)) 0) ∧
  allocated (state_of (publish 10 0 7%Z demo_erased)) 1 = false.
Proof.
  assert (wf demo_erased) as Hwf.
  { exact (proj1 (step_erase 0 1 demo demo_erased erase_demo wf_demo)). }
  assert (publish 10 0 7%Z demo_erased = Done (state_of (publish 10 0 7%Z demo_erased)))
    as Hp by (vm_compute; reflexivity).
  assert (1 ∈ onL_of demo_erased 0) as Hin by (vm_compute; left).
  assert (tombstoned (state_of (publish 10 0 7%Z demo_erased)) 1 = true) as Ht
    by (vm_compute; reflexivity).
  destruct (proj2 (publish_compacts_onL 10 0 7%Z demo_erased _ Hwf Hp) 1 Hin Ht)
    as [H1 H2].
  split_and!; [exact Hwf|exact Hp|exact Hin|exact Ht|exact H1|exact H2].
Defined.

(** X5.  When [publish] returns, every node that was in [onceL] of the
    event type when the call started is destroyed and in no list,
    whether its listener was invoked or not; [erase] through a
    connection to it has no defined behaviour from then on. *)
Theorem publish_consumes_onceL fuel ty ev s s' n :
  wf s → publish fuel ty ev s = Done s' → n ∈ onceL_of s ty →
  allocated s' n = false ∧ ¬ listed s' n ∧
  (∀ ty', Emitter_erase ty' n s' = Undefined).
Proof.
  intros Hwf Hp Hn.
  destruct (publish_inv _ _ _ _ _ Hwf Hp) as (s3 & -> & Hwf3 & He13 & Hwf' & He').
  set (s' := free_all (onceL_of s ty) (remove_if ty s3)) in *.
  assert (allocated s' n = false) as Ha.
  { unfold s'. by rewrite allocated_free_all, decide_True. }
  split_and!; [done| |].
  - intros [ty' Hin]. by rewrite (wf_alloc _ Hwf' ty' n Hin) in Ha.
  - intros ty'. unfold Emitter_erase, Handler_erase.
    rewrite (marked_allocated s')
      by (destruct (handler_fields ty' s') as (-> & _); apply marked_refl).
    by rewrite Ha.
Qed.

Lemma publish_consumes_onceL_witness :
  wf demo ∧ publish 10 0 7%Z demo = Done demo1 ∧ 2 ∈ onceL_of demo 0 ∧
  allocated demo1 2 = false ∧ Emitter_erase 0 2 demo1 = Undefined.
Proof.
  assert (2 ∈ onceL_of demo 0) as Hin by (vm_compute; left).
  destruct (publish_consumes_onceL 10 0 7%Z demo demo1 2 wf_demo publish_demo Hin)
    as (H1 & _ & H3).
  split_and!; [exact wf_demo|exact publish_demo|exact Hin|exact H1|exact (H3 0)].
Defined.

(** X6.  An [erase] that returns has tombstoned the node of the
    connection and changed no other flag, destroyed nothing, relinked
    nothing and invoked nothing; a second [erase] through the same
    connection returns and changes nothing. *)
Theorem erase_only_flags ty conn s s1 :
  Emitter_erase ty conn s = Done s1 →
  tombstoned s1 conn = true ∧
  (∀ m, m ≠ conn → tombstoned s1 m = tombstoned s m) ∧
  (∀ m, allocated s1 m = allocated s m) ∧
  (∀ ty', onL_of s1 ty' = onL_of s ty' ∧ onceL_of s1 ty' = onceL_of s ty') ∧
  log s1 = log s ∧
  Emitter_erase ty conn s1 = Done s1.
Proof.
  intros He. destruct (tombstoned_erase _ _ _ _ He) as (Ht & Ho & Ha).
  pose proof He as (Hal & Es)%erase_Done.
  split_and!; try done.
  - intros ty'. subst s1.
    by rewrite onL_of_set_heap, onceL_of_set_heap, onL_of_handler, onceL_of_handler.
  - by apply (prim_log (CErase ty conn)).
  - unfold Emitter_erase, Handler_erase.
    assert (handler ty s1 = s1) as ->.
    { subst s1. destruct (get_handler_handler_is_Some ty s) as [h Hh].
      apply (handler_existing ty _ h). by rewrite get_handler_set_heap. }
    rewrite Ha, Hal. f_equal. subst s1. unfold set_heap. simpl. f_equal.
    apply map_eq. intros m. destruct (decide (conn = m)) as [->|Hne].
    + rewrite !lookup_alter_eq. by destruct (heap s !! m).
    + by rewrite !lookup_alter_ne.
Qed.

Lemma erase_only_flags_witness :
  Emitter_erase 0 1 demo = Done demo_erased ∧
  tombstoned demo_erased 1 = true ∧ log demo_erased = log demo ∧
  Emitter_erase 0 1 demo_erased = Done demo_erased.
Proof.
  destruct (erase_only_flags 0 1 demo demo_erased erase_demo)
    as (H1 & _ & _ & _ & H5 & H6).
  split_and!; [exact erase_demo|exact H1|exact H5|exact H6].
Defined.

(** X7.  After [on<E>(f)], and likewise after [once<E>(f)], [empty<E>()]
    and [empty()] are false; [erase] through the connection returned
    returns, and then [empty<E'>()] for every [E'] and [empty()] are
    what they were before the registration. *)
Theorem register_erase_round_trip ty f s :
  wf s →
  (Emitter_empty_ty ty (Emitter_on ty f s).2 = false ∧
   Emitter_empty (Emitter_on ty f s).2 = false ∧
   ∃ s2, Emitter_erase ty (Emitter_on ty f s).1 (Emitter_on ty f s).2 = Done s2 ∧
         (∀ ty', Emitter_empty_ty ty' s2 = Emitter_empty_ty ty' s) ∧
         Emitter_empty s2 = Emitter_empty s) ∧
  (Emitter_empty_ty ty (Emitter_once ty f s).2 = false ∧
   Emitter_empty (Emitter_once ty f s).2 = false ∧
   ∃ s2, Emitter_erase ty (Emitter_once ty f s).1 (Emitter_once ty f s).2 = Done s2 ∧
         (∀ ty', Emitter_empty_ty ty' s2 = Emitter_empty_ty ty' s) ∧
         Emitter_empty s2 = Emitter_empty s).
Proof.
  intros Hwf. split.
  - rewrite on_conn. apply (register_erase_empty s _ ty _ f Hwf eq_refl).
    + apply on_fields.
    + intros ty' m. unfold nodes_of. rewrite onL_of_on, onceL_of_on.
      case_decide; set_solver.
  - rewrite once_conn. apply (register_erase_empty s _ ty _ f Hwf eq_refl).
    + apply once_fields.
    + intros ty' m. unfold nodes_of. rewrite onL_of_once, onceL_of_once.
      case_decide; set_solver.
Qed.

Lemma register_erase_round_trip_witness :
  wf demo ∧
  Emitter_empty_ty 5 demo = true ∧
  Emitter_empty_ty 5 (Emitter_on 5 (passive 7 id) demo).2 = false ∧
  ∃ s2, Emitter_erase 5 (Emitter_on 5 (passive 7 id) demo).1
          (Emitter_on 5 (passive 7 id) demo).2 = Done s2 ∧
        (∀ ty', Emitter_empty_ty ty' s2 = Emitter_empty_ty ty' demo) ∧
        Emitter_empty s2 = Emitter_empty demo.
Proof.
  destruct (register_erase_round_trip 5 (passive 7 id) demo wf_demo)
    as ((H1 & _ & H3) & _).
  split_and!; [exact wf_demo|by vm_compute|exact H1|exact H3].
Defined.

(** X8.  [empty()] is true exactly when [empty<E>()] is true for every
    event type [E]. *)
Theorem empty_all_types s :
  Emitter_empty s = true ↔ ∀ ty, Emitter_empty_ty ty s = true.
Proof.
  rewrite Emitter_empty_spec. setoid_rewrite Emitter_empty_ty_nodes. done.
Qed.

(** X9.  [clear<E>()] tombstones the nodes linked into the two lists of
    [E] and no other node, [clearAll()] the nodes linked into some list
    and no other: a node that is linked nowhere (a one-shot listener
    taken into the local list of a [publish] in progress) keeps its
    flag, and [func] still invokes it after [clearAll()]. *)
Theorem clear_tombstones_only_linked s ty n :
  wf s →
  (tombstoned (Emitter_clear ty s) n = true ↔
     tombstoned s n = true ∨ n ∈ nodes_of s ty) ∧
  (tombstoned (Emitter_clearAll s) n = true ↔ tombstoned s n = true ∨ listed s n) ∧
  (∀ k c ev el,
     ¬ listed s n → heap s !! n = Some el → first el = false → freed el = false →
     body (second el) = [] →
     func (S (S k)) c n ev (Emitter_clearAll s) =
       Done (act (second el) ev, log_invoke c n (second el) ev (Emitter_clearAll s))).
Proof.
  intros Hwf.
  assert (∀ n, ¬ listed s n → heap (Emitter_clearAll s) !! n = heap s !! n) as Hother.
  { intros m Hm. unfold Emitter_clearAll. simpl. apply lookup_clearAll_other.
    intros h Hh Hin. apply Hm, listed_handler. eauto. }
  split_and!.
  - split.
    + intros Ht. destruct (decide (n ∈ nodes_of s ty)) as [?|Hni]; [by right|left].
      rewrite clear_eq in Ht. unfold tombstoned in *. simpl in Ht.
      rewrite !lookup_tombstone_all in Ht. unfold nodes_of in Hni.
      rewrite elem_of_app in Hni. repeat case_decide; tauto.
    + intros [Ht|Hn]; [|by apply tombstoned_clear].
      destruct (step_clear ty s Hwf) as [_ He]. by eapply tombstoned_mono.
  - split.
    + intros Ht. destruct (tombstoned s n) eqn:Ht0; [by left|right].
      destruct (listed_dec s n) as [?|Hl]; [done|].
      unfold tombstoned in Ht. rewrite (Hother n Hl) in Ht.
      unfold tombstoned in Ht0. congruence.
    + intros [Ht|[ty' Hn]]; [|by eapply tombstoned_clearAll].
      destruct (step_clearAll s Hwf) as [_ He]. by eapply tombstoned_mono.
  - intros k c ev el Hl Hel Hf Hfr Hb. cbn [func].
    unfold allocated, tombstoned. rewrite (Hother n Hl), Hel, Hf, Hfr, Hb.
    cbn [negb exec obind heap log_invoke]. by rewrite (Hother n Hl), Hel, Hfr.
Qed.

Lemma clear_tombstones_only_linked_witness :
  wf erasing_start ∧ ¬ listed erasing_start 3 ∧
  heap erasing_start !! 3 = Some (MkElement false (passive 4 id) false) ∧
  func 2 0 3 7%Z (Emitter_clearAll erasing_start) =
    Done (7%Z, log_invoke 0 3 (passive 4 id) 7%Z (Emitter_clearAll erasing_start)).
Proof.
  assert (wf erasing_start) as Hwf.
  { apply publish_start. apply (wf_reachable 10 erasing_cmds). vm_compute. reflexivity. }
  assert (¬ listed erasing_start 3) as Hl.
  { intros (h & Hh & Hn)%listed_handler. vm_compute in Hh.
    apply list_elem_of_singleton in Hh. injection Hh as ->. vm_compute in Hn.
    repeat (apply elem_of_cons in Hn as [Hn|Hn]; [discriminate|]).
    by apply not_elem_of_nil in Hn. }
  assert (heap erasing_start !! 3 = Some (MkElement false (passive 4 id) false)) as Hel
    by (vm_compute; reflexivity).
  split_and!; [exact Hwf|exact Hl|exact Hel|].
  exact (proj2 (proj2 (clear_tombstones_only_linked erasing_start 0 3 Hwf))
           0 0 7%Z _ Hl Hel eq_refl eq_refl eq_refl).
Defined.

(** X10.  On an event type for which [empty<E>()] is true, [publish]
    returns whatever listeners the nodes hold, invokes none, and leaves
    both lists of the event type empty and their former nodes
    destroyed; the lists of the other event types are as before. *)
Theorem publish_after_clear fuel ty ev s :
  wf s → Emitter_empty_ty ty s = true → length (nodes_of s ty) + 2 ≤ fuel →
  ∃ s', publish fuel ty ev s = Done s' ∧ log s' = log s ∧
        onL_of s' ty = [] ∧ onceL_of s' ty = [] ∧
        (∀ n, n ∈ nodes_of s ty → allocated s' n = false) ∧
        (∀ ty', ty' ≠ ty →
           onL_of s' ty' = onL_of s ty' ∧ onceL_of s' ty' = onceL_of s ty').
Proof.
  intros Hwf Hempty Hk. rewrite Emitter_empty_ty_nodes in Hempty.
  destruct fuel as [|k]; [lia|]. rewrite publish_unfold.
  destruct (publish_start ty s Hwf)
    as (Hwf1 & He1 & Hc0 & Hc1 & Hlog1 & Hnode1 & Hheap1 & HonL & HonceL & Honce).
  set (s1 := swap_onceL ty (take_call (handler ty s))) in *.
  assert (∀ n, allocated s1 n = allocated s n) as Hal1.
  { intros n. unfold allocated. by rewrite Hheap1. }
  assert (∀ n, tombstoned s1 n = tombstoned s n) as Ht1.
  { intros n. unfold tombstoned. by rewrite Hheap1. }
  unfold nodes_of in Hk. rewrite length_app in Hk.
  rewrite (on_skip (next_call (handler ty s)) ty (onL_of s ty) [] [] k None
             (begin_of (onL_of s1 ty)) ev s1); last first.
  { lia. }
  { intros n Hn. rewrite Hal1, Ht1. split.
    - by eapply wf_onL_alloc.
    - apply Hempty. apply elem_of_app. by right. }
  { by rewrite app_nil_r, HonL. }
  { done. }
  { by apply wf_onL_nodup. }
  { by rewrite app_nil_r, HonL. }
  cbn [obind fst snd]. rewrite Honce.
  rewrite (cur_skip (next_call (handler ty s)) (reverse (onceL_of s ty)) k ev s1); last first.
  { rewrite length_reverse. lia. }
  { intros n Hn. rewrite elem_of_reverse in Hn. rewrite Hal1, Ht1.
    assert (n ∈ nodes_of s ty) by (apply elem_of_app; by left).
    split; [by eapply wf_alloc|by apply Hempty]. }
  cbn [obind snd]. eexists. split; [done|]. split_and!.
  - by rewrite (proj1 (publish_end _ _ _)).
  - unfold free_all. rewrite onL_of_set_heap, onL_of_remove_if, decide_True by done.
    apply filter_none. intros n Hn. rewrite HonL in Hn. rewrite Ht1.
    rewrite Hempty; [done|]. apply elem_of_app. by right.
  - unfold free_all. rewrite onceL_of_set_heap, onceL_of_remove_if, HonceL.
    by rewrite decide_True.
  - intros n Hn. rewrite allocated_free_all. case_decide as Hin; [done|].
    rewrite allocated_remove_if, decide_True; [done|].
    rewrite HonL, Ht1. split; [|by apply Hempty].
    apply elem_of_app in Hn as [?|?]; done.
  - intros ty' Hne. unfold free_all.
    rewrite onL_of_set_heap, onceL_of_set_heap, onL_of_remove_if, onceL_of_remove_if.
    rewrite HonL, HonceL. by rewrite !decide_False.
Qed.

Lemma publish_after_clear_witness :
  wf cleared ∧ Emitter_empty_ty 0 cleared = true ∧ length (nodes_of cleared 0) + 2 ≤ 10 ∧
  nodes_of cleared 0 = [2; 1; 0] ∧
  ∃ s', publish 10 0 7%Z cleared = Done s' ∧ log s' = log cleared ∧
        onL_of s' 0 = [] ∧ onceL_of s' 0 = [].
Proof.
  assert (wf cleared) as Hwf by exact (proj1 (step_clear 0 demo wf_demo)).
  assert (Emitter_empty_ty 0 cleared = true) as He by (vm_compute; reflexivity).
  assert (length (nodes_of cleared 0) + 2 ≤ 10) as Hk by (vm_compute; lia).
  destruct (publish_after_clear 10 0 7%Z cleared Hwf He Hk)
    as (s' & Hp & Hlog & H1 & H2 & _).
  split_and!; [exact Hwf|exact He|exact Hk|by vm_compute|].
  exists s'. split_and!; [exact Hp|exact Hlog|exact H1|exact H2].
Defined.

(** X11.  With listeners that make no calls, [publish] returns in a
    state where [onL] is what it was without the tombstoned nodes, in
    the same order, [onceL] is empty, the lists of the other event types
    and every flag are as before, exactly the nodes of [onceL] and the
    tombstoned nodes of [onL] have been destroyed, no address was taken,
    and one call number was. *)
Theorem publish_passive_state fuel ty ev s :
  wf s → (∀ n, n ∈ nodes_of s ty → passive_node s n) →
  length (nodes_of s ty) + 3 ≤ fuel →
  ∃ s', publish fuel ty ev s = Done s' ∧
        onL_of s' ty = live s (onL_of s ty) ∧ onceL_of s' ty = [] ∧
        (∀ ty', ty' ≠ ty →
           onL_of s' ty' = onL_of s ty' ∧ onceL_of s' ty' = onceL_of s ty') ∧
        (∀ n, tombstoned s' n = tombstoned s n) ∧
        (∀ n, allocated s' n =
              if decide (n ∈ onceL_of s ty ∨ n ∈ onL_of s ty ∧ tombstoned s n = true)
              then false else allocated s n) ∧
        next_node s' = next_node s ∧ next_call s' = S (next_call s).
Proof. apply publish_passive_effect. Qed.

Lemma publish_passive_state_witness :
  wf calm ∧ (∀ n, n ∈ nodes_of calm 0 → passive_node calm n) ∧
  length (nodes_of calm 0) + 3 ≤ 10 ∧
  onL_of calm 0 = [1; 0] ∧ onceL_of calm 0 = [2; 3] ∧ live calm (onL_of calm 0) = [1] ∧
  ∃ s', publish 10 0 7%Z calm = Done s' ∧
        onL_of s' 0 = live calm (onL_of calm 0) ∧ onceL_of s' 0 = [] ∧
        onL_of s' 1 = onL_of calm 1.
Proof.
  destruct (publish_passive_state 10 0 7%Z calm wf_calm calm_passive calm_fuel)
    as (s' & Hp & H1 & H2 & H3 & _).
  split_and!;
    [exact wf_calm|exact calm_passive|exact calm_fuel|by vm_compute|by vm_compute
    |by vm_compute|].
  exists s'. split_and!; [exact Hp|exact H1|exact H2|].
  exact (proj1 (H3 1 (λ H : 1 = 0, O_S 0 (eq_sym H)))).
Defined.

(** X12.  With listeners that make no calls, [publish] adds to the log
    the invocations of its own call only; it invokes each node of the
    event type that is not tombstoned exactly once and no other node;
    and no later script invokes a node that was in [onceL] again. *)
Theorem publish_invokes_each_once fuel ty ev s :
  wf s → (∀ n, n ∈ nodes_of s ty → passive_node s n) →
  length (nodes_of s ty) + 3 ≤ fuel →
  ∃ s', publish fuel ty ev s = Done s' ∧
    log s' = log s ++ by_call (next_call s) s' ∧
    (∀ n, n ∈ nodes_of s ty → tombstoned s n = false →
          length (fired n s') = S (length (fired n s))) ∧
    (∀ n, n ∉ nodes_of s ty ∨ tombstoned s n = true → fired n s' = fired n s) ∧
    (∀ n fuel' cmds s'', n ∈ onceL_of s ty → exec fuel' cmds s' = Done s'' →
          fired n s'' = fired n s').
Proof.
  intros Hwf Hpas Hk.
  destruct (publish_passive_effect fuel ty ev s Hwf Hpas Hk)
    as (s' & Hp & HonL & HonceL & _ & Ht & Ha & Hnode & Hcall).
  destruct (publish_passive fuel ty ev s Hwf Hpas Hk) as (s0 & Hp0 & Hnodes).
  rewrite Hp in Hp0. apply Done_inj in Hp0 as <-.
  pose proof (proj1 (proj2 (run_sound _)) _ _ _ _ Hp) as Hp'.
  destruct (publish_wf _ _ _ _ Hp' Hwf) as [Hwf' He'].
  pose proof (publish_log_own _ _ _ _ Hp' Hwf Hcall) as Hlog.
  assert (∀ n, fired n s' =
               fired n s ++ filter (λ e, e_node e = n) (by_call (next_call s) s')) as Hfired.
  { intros n. unfold fired at 1. by rewrite Hlog, filter_app. }
  assert (∀ n, n ∈ e_node <$> by_call (next_call s) s' ↔
               n ∈ nodes_of s ty ∧ tombstoned s n = false) as Hin.
  { intros n. rewrite Hnodes. unfold live, nodes_of.
    rewrite !elem_of_app, !elem_of_reverse, !list_elem_of_filter. tauto. }
  assert (NoDup (e_node <$> by_call (next_call s) s')) as Hnd.
  { rewrite Hnodes. pose proof (wf_nodup _ Hwf ty) as (H1 & Hd & H2)%NoDup_app.
    apply NoDup_app. split_and!.
    - rewrite reverse_Permutation. by apply NoDup_filter.
    - intros n. rewrite !elem_of_reverse. unfold live. rewrite !list_elem_of_filter.
      intros [_ Hon] [_ Honce]. by apply (Hd n).
    - rewrite reverse_Permutation. by apply NoDup_filter. }
  exists s'. split_and!; try done.
  - intros n Hn Htn. rewrite Hfired, length_app, filter_node_once; [lia|done|].
    by apply Hin.
  - intros n Hn. rewrite Hfired, filter_node_absent; [by rewrite app_nil_r|].
    rewrite Hin. intros [? ?]. destruct Hn; [done|congruence].
  - intros n fuel' cmds s'' Hn Hx%run_sound.
    apply (proj1 run_quiet _ _ _ Hx Hwf'). right.
    assert (n ∈ nodes_of s ty) as Hn' by (apply elem_of_app; by left).
    split_and!.
    + rewrite Hnode. apply listed_lt; [done|]. by exists ty.
    + intros [ty' Hl]. pose proof (wf_alloc _ Hwf' ty' n Hl) as Hal.
      rewrite Ha, decide_True in Hal; [done|by left].
    + apply not_elem_of_nil.
Qed.

Lemma publish_invokes_each_once_witness :
  wf calm ∧ (∀ n, n ∈ nodes_of calm 0 → passive_node calm n) ∧
  length (nodes_of calm 0) + 3 ≤ 10 ∧
  3 ∈ nodes_of calm 0 ∧ tombstoned calm 3 = false ∧ tombstoned calm 0 = true ∧
  ∃ s', publish 10 0 7%Z calm = Done s' ∧
        length (fired 3 s') = S (length (fired 3 calm)) ∧ fired 0 s' = fired 0 calm.
Proof.
  assert (3 ∈ nodes_of calm 0) as Hin by (vm_compute; right; left).
  assert (tombstoned calm 3 = false) as Ht3 by (vm_compute; reflexivity).
  assert (tombstoned calm 0 = true) as Ht0 by (vm_compute; reflexivity).
  destruct (publish_invokes_each_once 10 0 7%Z calm wf_calm calm_passive calm_fuel)
    as (s' & Hp & _ & H1 & H2 & _).
  split_and!; [exact wf_calm|exact calm_passive|exact calm_fuel|exact Hin|exact Ht3|exact Ht0|].
  exists s'. split_and!; [exact Hp|exact (H1 3 Hin Ht3)|exact (H2 0 (or_intror Ht0))].
Defined.

(** X13.  With listeners that make no calls, two publishes in a row both
    return; the first invokes the untombstoned persistent listeners,
    oldest first, then the untombstoned one-shot ones, newest first; the
    second invokes the same persistent listeners in the same order and
    nothing else, and leaves [onL] as the first left it. *)
Theorem publish_twice fuel ty ev ev2 s :
  wf s → (∀ n, n ∈ nodes_of s ty → passive_node s n) →
  length (nodes_of s ty) + 3 ≤ fuel →
  ∃ s' s'', publish fuel ty ev s = Done s' ∧ publish fuel ty ev2 s' = Done s'' ∧
    e_node <$> by_call (next_call s) s' =
      reverse (live s (onL_of s ty)) ++ reverse (live s (onceL_of s ty)) ∧
    e_node <$> by_call (next_call s') s'' = reverse (live s (onL_of s ty)) ∧
    onL_of s'' ty = onL_of s' ty ∧ onceL_of s'' ty = [].
Proof.
  intros Hwf Hpas Hk.
  destruct (publish_passive_effect fuel ty ev s Hwf Hpas Hk)
    as (s' & Hp & HonL & HonceL & _ & Ht & _).
  destruct (publish_passive fuel ty ev s Hwf Hpas Hk) as (s0 & Hp0 & Hlog).
  rewrite Hp in Hp0. apply Done_inj in Hp0 as <-.
  pose proof (proj1 (proj2 (run_sound _)) _ _ _ _ Hp) as Hp'.
  destruct (publish_wf _ _ _ _ Hp' Hwf) as [Hwf' He'].
  assert (nodes_of s' ty = live s (onL_of s ty)) as Hnodes.
  { unfold nodes_of. by rewrite HonL, HonceL. }
  assert (live s' (live s (onL_of s ty)) = live s (onL_of s ty)) as Hlive.
  { unfold live. apply filter_all. intros n [Hn _]%list_elem_of_filter. by rewrite Ht. }
  assert (∀ n, n ∈ nodes_of s' ty → passive_node s' n) as Hpas'.
  { intros n Hn el' Hel'. rewrite Hnodes in Hn. apply list_elem_of_filter in Hn as [_ Hn].
    assert (n ∈ nodes_of s ty) as Hn' by (apply elem_of_app; by right).
    destruct (allocated_is_Some s n (wf_alloc _ Hwf ty n Hn')) as [el Hel].
    destruct (listener_stable _ _ _ _ He' Hel) as (el2 & Hel2 & E).
    rewrite Hel' in Hel2. injection Hel2 as <-. rewrite E. by apply (Hpas n Hn'). }
  assert (length (nodes_of s' ty) + 3 ≤ fuel) as Hk'.
  { rewrite Hnodes. unfold live, nodes_of in *. rewrite length_app in Hk.
    pose proof (length_filter (λ n, tombstoned s n = false) (onL_of s ty)). lia. }
  destruct (publish_passive_effect fuel ty ev2 s' Hwf' Hpas' Hk')
    as (s'' & Hp2 & HonL2 & HonceL2 & _).
  destruct (publish_passive fuel ty ev2 s' Hwf' Hpas' Hk') as (s0 & Hp0 & Hlog2).
  rewrite Hp2 in Hp0. apply Done_inj in Hp0 as <-.
  exists s', s''. split_and!; try done.
  - rewrite Hlog2, HonL, HonceL, Hlive. unfold live at 2.
    by rewrite filter_nil, app_nil_r.
  - by rewrite HonL2, HonL, Hlive.
Qed.

Lemma publish_twice_witness :
  wf calm ∧ (∀ n, n ∈ nodes_of calm 0 → passive_node calm n) ∧
  length (nodes_of calm 0) + 3 ≤ 10 ∧
  reverse (live calm (onL_of calm 0)) = [1] ∧ reverse (live calm (onceL_of calm 0)) = [3; 2] ∧
  ∃ s' s'', publish 10 0 7%Z calm = Done s' ∧ publish 10 0 8%Z s' = Done s'' ∧
    e_node <$> by_call (next_call calm) s' =
      reverse (live calm (onL_of calm 0)) ++ reverse (live calm (onceL_of calm 0)) ∧
    e_node <$> by_call (next_call s') s'' = reverse (live calm (onL_of calm 0)).
Proof.
  destruct (publish_twice 10 0 7%Z 8%Z calm wf_calm calm_passive calm_fuel)
    as (s' & s'' & Hp & Hp2 & H1 & H2 & _).
  split_and!;
    [exact wf_calm|exact calm_passive|exact calm_fuel|by vm_compute|by vm_compute|].
  exists s', s''. split_and!; [exact Hp|exact Hp2|exact H1|exact H2].
Defined.

(** X14.  If the oldest persistent listener of an event type is neither
    tombstoned nor destroyed and starts by publishing that same event
    type, a [publish] of the type does not return: the nested call
    finds the same listener first, and no amount of fuel suffices. *)
Theorem republish_never_returns fuel ty ev ev' s l n el rest :
  onL_of s ty = l ++ [n] → heap s !! n = Some el →
  first el = false → freed el = false →
  body (second el) = CPublish ty ev' :: rest →
  publish fuel ty ev s = OutOfFuel.
Proof.
  revert ev s. induction fuel as [fuel IH] using lt_wf_ind.
  intros ev s HonL Hel Hf Hfr Hb.
  destruct fuel as [|k]; [done|]. rewrite publish_unfold.
  set (s1 := swap_onceL ty (take_call (handler ty s))).
  assert (onL_of s1 ty = l ++ [n]) as HonL1.
  { unfold s1. rewrite onL_of_swap. change (onL_of (take_call ?s) ty) with (onL_of s ty).
    by rewrite onL_of_handler. }
  assert (heap s1 = heap s) as Hheap1.
  { unfold s1. simpl. apply handler_fields. }
  destruct k as [|k]; [done|]. cbn [for_each_on].
  rewrite HonL1. rewrite decide_False by (by destruct l).
  rewrite prev_of_end.
  destruct k as [|k]; [done|]. cbn [func].
  unfold allocated, tombstoned. rewrite Hheap1, Hel, Hf, Hfr. simpl. rewrite Hb.
  destruct k as [|k]; [done|]. cbn [exec].
  rewrite (IH k); [done|lia| | | | |]; try done.
  change (heap s1 !! n = Some el). by rewrite Hheap1.
Qed.

Lemma republish_never_returns_witness :
  onL_of looping 0 = [] ++ [0] ∧
  heap looping !! 0 = Some (MkElement false (MkListener 1 id [CPublish 0 0%Z]) false) ∧
  publish 1000 0 7%Z looping = OutOfFuel.
Proof.
  assert (onL_of looping 0 = [] ++ [0]) as H1 by (vm_compute; reflexivity).
  assert (heap looping !! 0 =
          Some (MkElement false (MkListener 1 id [CPublish 0 0%Z]) false)) as H2
    by (vm_compute; reflexivity).
  split_and!; [exact H1|exact H2|].
  exact (republish_never_returns 1000 0 7%Z 0%Z looping [] 0 _ [] H1 H2
           eq_refl eq_refl eq_refl).
Defined.

(** X15.  A node that is in [onceL] when [publish] starts is invoked,
    until the call returns, by that call alone and at most once: a
    [publish] that a listener starts within the call does not invoke
    it. *)
Theorem one_shot_only_by_own_call fuel ty ev s s' n :
  wf s → publish fuel ty ev s = Done s' → n ∈ onceL_of s ty →
  (∀ e, e ∈ fired n s' → e ∈ fired n s ∨ e_call e = next_call s) ∧
  length (fired n s') ≤ S (length (fired n s)).
Proof.
  intros Hwf Hp%run_sound Hn.
  inversion Hp as [? ? ? ev1 s2 ev2 s3 Hon Hcur]; subst.
  destruct (publish_start ty s Hwf)
    as (Hwf1 & He1 & Hc0 & Hc1 & Hlog1 & Hnode1 & _ & HonL & HonceL & Honce).
  rewrite Hc0, Honce in *.
  set (s1 := swap_onceL ty (take_call (handler ty s))) in *.
  assert (next_call s < next_call s1) as Hc by lia.
  destruct (on_wf _ _ _ _ _ _ _ _ Hon Hc Hwf1) as [Hwf2 He2].
  assert (next_call s < next_call s2) as Hc2 by (pose proof (ev_call _ _ He2); lia).
  assert (n < next_node s1) as Hlt.
  { rewrite Hnode1. apply listed_lt; [done|]. by eapply onceL_listed. }
  assert (¬ listed s1 n) as Hun.
  { intros [ty' Hin]. unfold nodes_of in Hin. rewrite HonL, HonceL in Hin.
    case_decide as Hty.
    - subst. simpl in Hin.
      pose proof (wf_nodup _ Hwf ty) as (_ & Hd & _)%NoDup_app. by apply (Hd n).
    - apply Hty. apply (wf_disj _ Hwf ty' ty n); [done|]. apply elem_of_app. by left. }
  assert (fired n s2 = fired n s) as E2.
  { rewrite (proj1 (proj2 (proj2 run_quiet)) _ _ _ _ _ _ _ _ Hon Hc Hwf1 n)
      by (right; split_and!; [done|done|apply not_elem_of_nil]).
    unfold fired. by rewrite Hlog1. }
  assert (n < next_node s2) as Hlt2 by (pose proof (ev_node _ _ He2); lia).
  assert (¬ listed s2 n) as Hun2 by (by eapply unlisted_stays).
  assert (NoDup (reverse (onceL_of s ty))) as Hnd.
  { rewrite reverse_Permutation.
    by pose proof (wf_nodup _ Hwf ty) as (? & _ & _)%NoDup_app. }
  assert (fired n (free_all (onceL_of s ty) (remove_if ty s3)) = fired n s3) as E3.
  { unfold fired. by rewrite (proj1 (publish_end _ _ _)). }
  rewrite E3. split.
  - intros e He. rewrite <- E2. by eapply cur_own.
  - rewrite <- E2. by eapply cur_once.
Qed.

Lemma one_shot_only_by_own_call_witness :
  wf nesting ∧ publish 10 0 7%Z nesting = Done nesting1 ∧ 0 ∈ onceL_of nesting 0 ∧
  e_call <$> log nesting1 = [0; 0] ∧ next_call nesting1 = 2 ∧
  (∀ e, e ∈ fired 0 nesting1 → e ∈ fired 0 nesting ∨ e_call e = next_call nesting).
Proof.
  assert (publish 10 0 7%Z nesting = Done nesting1) as Hp by (vm_compute; reflexivity).
  assert (0 ∈ onceL_of nesting 0) as Hin by (vm_compute; left).
  split_and!; [exact wf_nesting|exact Hp|exact Hin|by vm_compute|by vm_compute|].
  exact (proj1 (one_shot_only_by_own_call 10 0 7%Z nesting nesting1 0 wf_nesting Hp Hin)).
Defined.
